(** * go-osmium-extract: the address import pipeline of [main.go]

    A shallow embedding of the streaming decode, address extraction,
    batched transactional load, full-text index and search of [main.go],
    with the properties of the specification stated over it. *)

From Stdlib Require Import ZArith String Ascii List Bool Lia PrimFloat.
From stdpp Require Import gmap strings list sorting relations.

Set Warnings "-register-all".

Local Open Scope string_scope.
Local Open Scope list_scope.
Local Open Scope Z_scope.

(** ** JSON values

    A decoded JSON value.  It serves both as the content of a
    [json.RawMessage] and as the Go [interface{}] value that
    [encoding/json] produces for a property ([nil] for [null], [float64]
    for numbers).  [JHuge] is a number literal outside the [float64]
    range: it is valid JSON, but converting it to [float64] fails. *)
Inductive json : Type :=
  | JNull
  | JBool (b : bool)
  | JNum (f : float)
  | JHuge
  | JStr (s : string)
  | JArr (elems : list json)
  | JObj (members : list (string * json)).

(** [json.RawMessage]: [None] stands for bytes that are not one JSON value
    (the empty message of an absent member in particular). *)
Definition RawMessage : Type := option json.

(** Go's [len], an [int]. *)
Definition len {A} (l : list A) : Z := Z.of_nat (length l).

(** ** Runtime panics

    Indexing a slice out of range panics in Go.  [exec A] is a computation
    that returns an [A] or panics. *)
Inductive exec (A : Type) : Type :=
  | Ret (a : A)
  | Panic.
Arguments Ret {A} a.
Arguments Panic {A}.

#[global] Instance exec_ret : MRet exec := fun A a => Ret a.
#[global] Instance exec_bind : MBind exec := fun A B k m =>
  match m with
  | Ret a => k a
  | Panic => Panic
  end.

(** [s[i]] on a slice. *)
Definition index {A} (s : list A) (i : nat) : exec A :=
  match s !! i with
  | Some x => Ret x
  | None => Panic
  end.

(** ** [json.Unmarshal] into the coordinate slices

    [None] is a non-nil error.  A JSON [null] leaves a [float64] at its
    zero value and a slice nil, without an error; any other mismatch of
    type, anywhere in the value, is an error. *)
Definition unmarshal_float64 (j : json) : option float :=
  match j with
  | JNum f => Some f
  | JNull => Some 0%float
  | _ => None
  end.

Definition unmarshal_slice {A} (elem : json -> option A) (j : json)
  : option (list A) :=
  match j with
  | JArr elems => mapM elem elems
  | JNull => Some []
  | _ => None
  end.

Definition json_Unmarshal {A} (target : json -> option A) (data : RawMessage)
  : option A :=
  match data with
  | Some j => target j
  | None => None
  end.

(** ** Data model *)

Record Geometry : Type := mkGeometry {
    Geometry_Type : string;
    Coordinates : RawMessage
  }.

Record Feature : Type := mkFeature {
    Feature_Type : string;
    Properties : gmap string json;
    Feature_Geometry : Geometry
  }.

Record AddressRecord : Type := mkAddressRecord {
    Street : string;
    HouseNumber : string;
    City : string;
    Lon : float;
    Lat : float
  }.

(** [v, ok := m[k]]: the zero value [nil] and [false] for a missing key. *)
Definition map_index (m : gmap string json) (k : string) : json * bool :=
  match m !! k with
  | Some v => (v, true)
  | None => (JNull, false)
  end.

(** [lon == 0 && lat == 0] on [float64]. *)
Definition both_zero (lon lat : float) : bool :=
  PrimFloat.eqb lon 0%float && PrimFloat.eqb lat 0%float.

Module Extractor.
Section WithFormatting.

(** [fmt]'s [%v] for a [float64] and for a composite value
    ([[]interface{}], [map[string]interface{}]) is the library's. *)
Variable formatFloat : float -> string.
Variable formatComposite : json -> string.

(** [fmt.Sprintf("%v", v)] *)
Definition Sprintf_v (v : json) : string :=
  match v with
  | JNull => "<nil>"
  | JBool true => "true"
  | JBool false => "false"
  | JNum f => formatFloat f
  | JStr s => s
  | _ => formatComposite v
  end.

(** The [switch feature.Geometry.Type] of [extractAddressData]:
    [Some (lon, lat)] when control reaches the zero check, [None] for the
    [default] branch. *)
Definition coordinates_switch (g : Geometry) : exec (option (float * float)) :=
  let zero := (0%float, 0%float) in
  let raw := Coordinates g in
  if String.eqb (Geometry_Type g) "Point" then
    match json_Unmarshal (unmarshal_slice unmarshal_float64) raw with
    | Some coords =>
        if 2 <=? len coords then
          lon ← index coords 0; lat ← index coords 1;
          mret (Some (lon, lat))
        else mret (Some zero)
    | None => mret (Some zero)
    end
  else if String.eqb (Geometry_Type g) "LineString" then
    match json_Unmarshal (unmarshal_slice (unmarshal_slice unmarshal_float64)) raw with
    | Some coords =>
        if 0 <? len coords then
          c0 ← index coords 0;
          if 2 <=? len c0 then
            lon ← index c0 0; lat ← index c0 1;
            mret (Some (lon, lat))
          else mret (Some zero)
        else mret (Some zero)
    | None => mret (Some zero)
    end
  else if String.eqb (Geometry_Type g) "Polygon" then
    match json_Unmarshal
            (unmarshal_slice (unmarshal_slice (unmarshal_slice unmarshal_float64)))
            raw with
    | Some coords =>
        if 0 <? len coords then
          c0 ← index coords 0;
          if 0 <? len c0 then
            c00 ← index c0 0;
            if 2 <=? len c00 then
              lon ← index c00 0; lat ← index c00 1;
              mret (Some (lon, lat))
            else mret (Some zero)
          else mret (Some zero)
        else mret (Some zero)
    | None => mret (Some zero)
    end
  else if String.eqb (Geometry_Type g) "MultiPolygon" then
    match json_Unmarshal
            (unmarshal_slice
               (unmarshal_slice (unmarshal_slice (unmarshal_slice unmarshal_float64))))
            raw with
    | Some coords =>
        if 0 <? len coords then
          c0 ← index coords 0;
          if 0 <? len c0 then
            c00 ← index c0 0;
            if 0 <? len c00 then
              c000 ← index c00 0;
              if 2 <=? len c000 then
                lon ← index c000 0; lat ← index c000 1;
                mret (Some (lon, lat))
              else mret (Some zero)
            else mret (Some zero)
          else mret (Some zero)
        else mret (Some zero)
    | None => mret (Some zero)
    end
  else mret None.

(** The city fallback: [addr:city], else [addr:town], else
    [addr:village], else the string [""]. *)
Definition resolve_city (properties : gmap string json) : json :=
  let '(city, hasCity) := map_index properties "addr:city" in
  if negb hasCity then
    let '(town, hasTown) := map_index properties "addr:town" in
    if hasTown then town
    else
      let '(village, hasVillage) := map_index properties "addr:village" in
      if hasVillage then village else JStr ""
  else city.

(** [extractAddressData]: [Ret None] is [(nil, false)]. *)
Definition extractAddressData (feature : Feature) : exec (option AddressRecord) :=
  let properties := Properties feature in
  let '(street, hasStreet) := map_index properties "addr:street" in
  let houseNumber := fst (map_index properties "addr:housenumber") in
  let city := resolve_city properties in
  if negb hasStreet then mret None
  else
    c ← coordinates_switch (Feature_Geometry feature);
    match c with
    | None => mret None
    | Some (lon, lat) =>
        if both_zero lon lat then mret None
        else mret (Some {| Street := Sprintf_v street;
                           HouseNumber := Sprintf_v houseNumber;
                           City := Sprintf_v city;
                           Lon := lon;
                           Lat := lat |})
    end.

End WithFormatting.
End Extractor.

(** ** The documented representative vertex

    The specification's table, stated on the payload itself and without
    reference to the decoding done by the code. *)
Module Documented.

Definition is_number (j : json) : bool :=
  match j with
  | JNum _ => true
  | _ => false
  end.

(** A position: an array of at least two numbers. *)
Definition numeric_pair (j : json) : bool :=
  match j with
  | JArr elems => forallb is_number elems && (2 <=? len elems)
  | _ => false
  end.

(** Numeric pairs nested [depth] levels deep in non-empty arrays. *)
Fixpoint nested_pairs (depth : nat) (j : json) : bool :=
  match depth with
  | O => numeric_pair j
  | S d =>
      match j with
      | JArr elems => (0 <? len elems) && forallb (nested_pairs d) elems
      | _ => false
      end
  end.

(** The nesting depth of the payload of a geometry type. *)
Definition payload_depth (geometry_type : string) : option nat :=
  if String.eqb geometry_type "Point" then Some 0%nat
  else if String.eqb geometry_type "LineString" then Some 1%nat
  else if String.eqb geometry_type "Polygon" then Some 2%nat
  else if String.eqb geometry_type "MultiPolygon" then Some 3%nat
  else None.

Definition well_formed_payload (geometry_type : string) (payload : json) : bool :=
  match payload_depth geometry_type with
  | Some d => nested_pairs d payload
  | None => false
  end.

Definition the_point (j : json) : option (float * float) :=
  match j with
  | JArr (JNum lon :: JNum lat :: _) => Some (lon, lat)
  | _ => None
  end.

Definition first_of (j : json) : option json :=
  match j with
  | JArr (x :: _) => Some x
  | _ => None
  end.

(** Point: the point itself; LineString: the first vertex; Polygon: the
    first vertex of the outer (first) ring; MultiPolygon: the first
    vertex of the outer ring of the first polygon. *)
Definition representative_vertex (geometry_type : string) (payload : json)
  : option (float * float) :=
  if String.eqb geometry_type "Point" then the_point payload
  else if String.eqb geometry_type "LineString" then
    vertex ← first_of payload; the_point vertex
  else if String.eqb geometry_type "Polygon" then
    ring ← first_of payload; vertex ← first_of ring; the_point vertex
  else if String.eqb geometry_type "MultiPolygon" then
    polygon ← first_of payload; ring ← first_of polygon;
    vertex ← first_of ring; the_point vertex
  else None.

End Documented.

(** ** The persisted store

    The primary relation of [CREATE TABLE addresses]: an [INTEGER PRIMARY
    KEY AUTOINCREMENT] id, three text columns under [UNIQUE(street,
    house_number, city)] and two reals.  Rows are kept in insertion order. *)
Record Row : Type := mkRow {
    row_id : Z;
    street : string;
    house_number : string;
    city : string;
    longitude : float;
    latitude : float
  }.

(** The full-text table [address_fts]: its tokenizer argument and the rows
    copied into its index. *)
Record FtsTable : Type := mkFtsTable {
    fts_tokenize : string;
    fts_rows : list (Z * (string * string * string))
  }.

(** The database file: the rows of [addresses], the entry that
    AUTOINCREMENT keeps for the table in [sqlite_sequence] (the largest id
    ever given, [0] before the first), the names of the indices, and the
    full-text table once it is created. *)
Record Database : Type := mkDatabase {
    addresses : list Row;
    sqlite_sequence : Z;
    indices : list string;
    address_fts : option FtsTable
  }.

(** The relation as a transaction sees it: the rows and the entry of
    [sqlite_sequence]. *)
Record Table : Type := mkTable {
    rows : list Row;
    sequence : Z
  }.

Definition natural_key : Type := string * string * string.

Definition key_of_record (r : AddressRecord) : natural_key :=
  (Street r, HouseNumber r, City r).

Definition key_of_row (w : Row) : natural_key :=
  (street w, house_number w, city w).

(** The largest id in the table, [0] in an empty one. *)
Definition max_id (t : list Row) : Z :=
  fold_right (fun w m => Z.max (row_id w) m) 0 t.

(** The id that AUTOINCREMENT gives: one above the largest id in the
    table and above the largest id ever given. *)
Definition next_id (t : Table) : Z :=
  1 + Z.max (max_id (rows t)) (sequence t).

(** One value tuple of [INSERT OR IGNORE INTO addresses (street,
    house_number, city, longitude, latitude)].  The id is taken first and
    the uniqueness of the key checked after: a tuple whose key is already
    in the table is dropped and its id is used up; any other is appended
    under the id. *)
Definition insert_or_ignore (t : Table) (r : AddressRecord) : Table :=
  let id := next_id t in
  {| rows :=
       if bool_decide (key_of_record r ∈ key_of_row <$> rows t) then rows t
       else rows t ++ [ {| row_id := id;
                           street := Street r;
                           house_number := HouseNumber r;
                           city := City r;
                           longitude := Lon r;
                           latitude := Lat r |} ];
     sequence := id |}.

(** A multi-row insert statement: its tuples, in order. *)
Definition insert_rows (t : Table) (rs : list AddressRecord) : Table :=
  fold_left insert_or_ignore rs t.

Definition empty_table : Table := {| rows := []; sequence := 0 |}.

(** ** The store connection

    The transactions are those of [database/sql].  [committed] is the
    database as the statements and transactions that have returned
    without error leave it, and [tx] the relation as the open transaction
    sees it ([None] once the transaction is done).  [in_flight] tells
    that a statement has written to the file and its work is not
    complete: a statement of the open transaction was sent and the
    transaction is not committed, or a statement did not complete.
    [calls] counts the store calls issued.  Two fields that no store call
    reads keep the history: [pending] holds the tuples of the statements
    that the open transaction has run, and [flushed] the tuples of each
    committed transaction, oldest first. *)
Record Conn : Type := mkConn {
    committed : Database;
    tx : option Table;
    in_flight : bool;
    calls : nat;
    pending : list AddressRecord;
    flushed : list (list AddressRecord)
  }.

(** ** The database file when the process stops

    The parameters of the connection string of [sql.Open]. *)
Definition connection_parameters : string :=
  "_journal_mode=OFF&_cache_size=-2000000&_synchronous=0&_temp_store=MEMORY&_locking_mode=EXCLUSIVE&_busy_timeout=5000&_fts=5".

(** The parts of a text between the instances of a separator. *)
Fixpoint split_at (sep : ascii) (s : string) : list string :=
  match s with
  | EmptyString => [EmptyString]
  | String c r =>
      if Ascii.eqb c sep then EmptyString :: split_at sep r
      else
        match split_at sep r with
        | word :: words => String c word :: words
        | [] => [String c EmptyString]
        end
  end.

(** The value of a parameter of the connection string. *)
Definition parameter (name : string) : option string :=
  list_find (fun kv => bool_decide (head kv = Some name))
    (split_at "=" <$> split_at "&" connection_parameters)
  ≫= (fun found => found.2 !! 1%nat).

(** With a rollback journal, SQLite undoes what an unfinished statement
    or transaction has written when the file is next opened.  With
    [_journal_mode=OFF] it keeps none: there is nothing to undo the
    writes with, and the content of the file is not defined. *)
Definition rollback_journal : bool :=
  negb (bool_decide (parameter "_journal_mode" = Some "OFF")).

Inductive File : Type :=
  | Intact (d : Database)
  | Undefined.

(** The file that the process leaves when it stops with the connection
    as it is, the operating system going on ([_synchronous=0] waits for
    no write to reach the disk). *)
Definition left_on_disk (c : Conn) : File :=
  if rollback_journal || negb (in_flight c) then Intact (committed c) else Undefined.

Definition table_of (d : Database) : Table :=
  {| rows := addresses d; sequence := sqlite_sequence d |}.

Definition set_table (d : Database) (t : Table) : Database :=
  {| addresses := rows t; sqlite_sequence := sequence t;
     indices := indices d; address_fts := address_fts d |}.

Definition empty_database : Database :=
  {| addresses := []; sqlite_sequence := 0; indices := []; address_fts := None |}.

(** The argument of [tokenize=] in [createFTSTableSQL].  The statement is a
    raw string literal, so the backslash sequence reaches SQLite as the
    four characters written here. *)
Definition createFTSTable_tokenize : string :=
  "unicode61 remove_diacritics 0 tokenchars '\x2d'".

(** ** The streaming decoder

    [encoding/json]'s [Decoder] over the lexical elements of the input:
    white space is dropped and every literal is already read. *)
Inductive scalar : Type :=
  | SNull
  | SBool (b : bool)
  | SNum (f : float)
  | SHuge
  | SStr (s : string).

Inductive lexeme : Type :=
  | LBrace
  | RBrace
  | LBracket
  | RBracket
  | Colon
  | Comma
  | Lit (v : scalar).

Definition json_of_scalar (v : scalar) : json :=
  match v with
  | SNull => JNull
  | SBool b => JBool b
  | SNum f => JNum f
  | SHuge => JHuge
  | SStr s => JStr s
  end.

(** The text of a value, as lexical elements. *)
Fixpoint lex (j : json) : list lexeme :=
  match j with
  | JNull => [Lit SNull]
  | JBool b => [Lit (SBool b)]
  | JNum f => [Lit (SNum f)]
  | JHuge => [Lit SHuge]
  | JStr s => [Lit (SStr s)]
  | JArr elems =>
      LBracket ::
      (fix elements (l : list json) : list lexeme :=
         match l with
         | [] => [RBracket]
         | [x] => lex x ++ [RBracket]
         | x :: rest => lex x ++ Comma :: elements rest
         end) elems
  | JObj members =>
      LBrace ::
      (fix pairs (l : list (string * json)) : list lexeme :=
         match l with
         | [] => [RBrace]
         | [(k, v)] => Lit (SStr k) :: Colon :: lex v ++ [RBrace]
         | (k, v) :: rest => Lit (SStr k) :: Colon :: lex v ++ Comma :: pairs rest
         end) members
  end.

(** The scanner of [readValue]: one complete value at the front of the
    input and what follows it, or [None] for a syntax error or an input
    that ends inside the value. *)
Fixpoint scan_value (fuel : nat) (input : list lexeme) : option (json * list lexeme) :=
  match fuel with
  | O => None
  | S fuel =>
      match input with
      | Lit v :: rest => Some (json_of_scalar v, rest)
      | LBracket :: RBracket :: rest => Some (JArr [], rest)
      | LBracket :: rest =>
          '(elems, rest1) ← scan_elements fuel rest; Some (JArr elems, rest1)
      | LBrace :: RBrace :: rest => Some (JObj [], rest)
      | LBrace :: rest =>
          '(members, rest1) ← scan_members fuel rest; Some (JObj members, rest1)
      | _ => None
      end
  end
with scan_elements (fuel : nat) (input : list lexeme) : option (list json * list lexeme) :=
  match fuel with
  | O => None
  | S fuel =>
      '(v, rest) ← scan_value fuel input;
      match rest with
      | Comma :: rest1 =>
          '(vs, rest2) ← scan_elements fuel rest1; Some (v :: vs, rest2)
      | RBracket :: rest1 => Some ([v], rest1)
      | _ => None
      end
  end
with scan_members (fuel : nat) (input : list lexeme)
  : option (list (string * json) * list lexeme) :=
  match fuel with
  | O => None
  | S fuel =>
      match input with
      | Lit (SStr k) :: Colon :: rest =>
          '(v, rest1) ← scan_value fuel rest;
          match rest1 with
          | Comma :: rest2 =>
              '(ms, rest3) ← scan_members fuel rest2; Some ((k, v) :: ms, rest3)
          | RBrace :: rest2 => Some ([(k, v)], rest2)
          | _ => None
          end
      | _ => None
      end
  end.

(** Fuel for [scan_value]: every call either consumes an element or is
    followed by a call that does. *)
Definition scan_fuel (input : list lexeme) : nat := (2 * length input + 2)%nat.

Inductive tokenState : Type :=
  | tokenTopValue
  | tokenArrayStart
  | tokenArrayValue
  | tokenArrayComma
  | tokenObjectStart
  | tokenObjectKey
  | tokenObjectColon
  | tokenObjectValue
  | tokenObjectComma.

#[global] Instance tokenState_eq_dec : EqDecision tokenState.
Proof. solve_decision. Defined.

(** The decoder: the unread input, the state of the token stream, and the
    sticky error that [readValue] leaves behind. *)
Record Decoder : Type := mkDecoder {
    input : list lexeme;
    state : tokenState;
    tokenStack : list tokenState;
    err : bool
  }.

Definition NewDecoder (file : list lexeme) : Decoder :=
  {| input := file; state := tokenTopValue; tokenStack := []; err := false |}.

Inductive Token : Type :=
  | Delim (d : lexeme)
  | Value (v : json).

Definition tokenValueAllowed (s : tokenState) : bool :=
  match s with
  | tokenTopValue | tokenArrayStart | tokenArrayValue | tokenObjectValue => true
  | _ => false
  end.

Definition tokenValueEnd (s : tokenState) : tokenState :=
  match s with
  | tokenArrayStart | tokenArrayValue => tokenArrayComma
  | tokenObjectValue => tokenObjectComma
  | _ => s
  end.

(** [dec.More()]: the next element exists and closes nothing. *)
Definition More (dec : Decoder) : bool :=
  match input dec with
  | [] => false
  | RBracket :: _ | RBrace :: _ => false
  | _ => true
  end.

(** [tokenPrepareForDecode]: the pending comma or colon is consumed;
    [None] is its syntax error, which consumes nothing. *)
Definition tokenPrepareForDecode (dec : Decoder) : option Decoder :=
  match state dec with
  | tokenArrayComma =>
      match input dec with
      | Comma :: rest =>
          Some {| input := rest; state := tokenArrayValue;
                  tokenStack := tokenStack dec; err := err dec |}
      | _ => None
      end
  | tokenObjectColon =>
      match input dec with
      | Colon :: rest =>
          Some {| input := rest; state := tokenObjectValue;
                  tokenStack := tokenStack dec; err := err dec |}
      | _ => None
      end
  | _ => Some dec
  end.

(** [dec.Decode(&v)], with [target] the unmarshalling into the type of
    [v].  The result [None] is a non-nil error.  A value that does not
    suit the target is consumed all the same; a syntax error consumes
    nothing and stays in the decoder. *)
Definition Decode {A} (target : json -> option A) (dec : Decoder)
  : Decoder * option A :=
  if err dec then (dec, None)
  else
    match tokenPrepareForDecode dec with
    | None => (dec, None)
    | Some dec1 =>
        if negb (tokenValueAllowed (state dec1)) then (dec1, None)
        else
          match scan_value (scan_fuel (input dec1)) (input dec1) with
          | None =>
              ({| input := input dec1; state := state dec1;
                  tokenStack := tokenStack dec1; err := true |}, None)
          | Some (j, rest) =>
              ({| input := rest; state := tokenValueEnd (state dec1);
                  tokenStack := tokenStack dec1; err := false |}, target j)
          end
    end.

(** The conversion of a JSON value to [interface{}] fails on a number
    outside the [float64] range, wherever it occurs. *)
Fixpoint in_range (j : json) : bool :=
  match j with
  | JHuge => false
  | JArr elems => forallb in_range elems
  | JObj members => forallb (fun m => let '(_, v) := m in in_range v) members
  | _ => true
  end.

Definition unmarshal_any (j : json) : option json :=
  if in_range j then Some j else None.

Definition set_input (dec : Decoder) (rest : list lexeme) (s : tokenState) : Decoder :=
  {| input := rest; state := s; tokenStack := tokenStack dec; err := err dec |}.

(** [dec.Token()].  A colon or comma that the state expects is skipped and
    the loop goes round again; [None] is a non-nil error. *)
Fixpoint Token_from (inp : list lexeme) (dec : Decoder) : Decoder * option Token :=
  let s := state dec in
  match inp with
  | [] => (dec, None)
  | LBracket :: rest =>
      if tokenValueAllowed s then
        ({| input := rest; state := tokenArrayStart;
            tokenStack := s :: tokenStack dec; err := err dec |}, Some (Delim LBracket))
      else (dec, None)
  | RBracket :: rest =>
      if bool_decide (s = tokenArrayStart) || bool_decide (s = tokenArrayComma) then
        match tokenStack dec with
        | top :: stack =>
            ({| input := rest; state := tokenValueEnd top;
                tokenStack := stack; err := err dec |}, Some (Delim RBracket))
        | [] => (dec, None)
        end
      else (dec, None)
  | LBrace :: rest =>
      if tokenValueAllowed s then
        ({| input := rest; state := tokenObjectStart;
            tokenStack := s :: tokenStack dec; err := err dec |}, Some (Delim LBrace))
      else (dec, None)
  | RBrace :: rest =>
      if bool_decide (s = tokenObjectStart) || bool_decide (s = tokenObjectComma) then
        match tokenStack dec with
        | top :: stack =>
            ({| input := rest; state := tokenValueEnd top;
                tokenStack := stack; err := err dec |}, Some (Delim RBrace))
        | [] => (dec, None)
        end
      else (dec, None)
  | Colon :: rest =>
      if bool_decide (s = tokenObjectColon) then
        Token_from rest (set_input dec rest tokenObjectValue)
      else (dec, None)
  | Comma :: rest =>
      if bool_decide (s = tokenArrayComma) then
        Token_from rest (set_input dec rest tokenArrayValue)
      else if bool_decide (s = tokenObjectComma) then
        Token_from rest (set_input dec rest tokenObjectKey)
      else (dec, None)
  | Lit v :: rest =>
      let is_key :=
        match v with
        | SStr _ => bool_decide (s = tokenObjectStart) || bool_decide (s = tokenObjectKey)
        | _ => false
        end in
      if is_key then
        let '(dec1, x) := Decode unmarshal_any (set_input dec inp tokenTopValue) in
        match x with
        | Some k => (set_input dec1 (input dec1) tokenObjectColon, Some (Value k))
        | None => (set_input dec1 (input dec1) s, None)
        end
      else if tokenValueAllowed s then
        let '(dec1, x) := Decode unmarshal_any dec in
        (dec1, Value <$> x)
      else (dec, None)
  end.

Definition Token_ (dec : Decoder) : Decoder * option Token :=
  Token_from (input dec) dec.

(** ** Unmarshalling a [Feature]

    Members are taken in document order, a later member overwriting or
    merging into what an earlier one stored.  Member names match the field
    tags as [encoding/json] folds them: ASCII letters without regard to
    case, and the two characters above ASCII that fold to an ASCII
    letter, U+017F (the long s) to [s] and U+212A (the Kelvin sign) to
    [k]. *)
Definition lower (c : ascii) : ascii :=
  let n := N_of_ascii c in
  if ((65 <=? n) && (n <=? 90))%N then ascii_of_N (n + 32) else c.

Definition is_byte (c : ascii) (n : N) : bool := (N_of_ascii c =? n)%N.

(** The folded form of a member name, in lower case.  U+017F is the
    bytes C5 BF and U+212A the bytes E2 84 AA of the UTF-8 text. *)
Fixpoint fold_name (s : string) : string :=
  match s with
  | EmptyString => EmptyString
  | String c r =>
      match r with
      | String c1 r1 =>
          if is_byte c 197 && is_byte c1 191 then String "s" (fold_name r1)
          else
            match r1 with
            | String c2 r2 =>
                if is_byte c 226 && is_byte c1 132 && is_byte c2 170
                then String "k" (fold_name r2)
                else String (lower c) (fold_name r)
            | EmptyString => String (lower c) (fold_name r)
            end
      | EmptyString => String (lower c) EmptyString
      end
  end.

Definition field_is (tag key : string) : bool :=
  String.eqb (fold_name key) tag.

Definition unmarshal_string (j : json) (old : string) : option string :=
  match j with
  | JStr s => Some s
  | JNull => Some old
  | _ => None
  end.

Definition unmarshal_map (j : json) (old : gmap string json)
  : option (gmap string json) :=
  match j with
  | JObj members =>
      if in_range j then
        Some (fold_left (fun m kv => <[kv.1 := kv.2]> m) members old)
      else None
  | JNull => Some ∅
  | _ => None
  end.

Fixpoint unmarshal_fields {T} (field : T -> string * json -> option T)
  (members : list (string * json)) (v : T) : option T :=
  match members with
  | [] => Some v
  | m :: rest => v1 ← field v m; unmarshal_fields field rest v1
  end.

Definition unmarshal_struct {T} (field : T -> string * json -> option T)
  (j : json) (v : T) : option T :=
  match j with
  | JObj members => unmarshal_fields field members v
  | JNull => Some v
  | _ => None
  end.

Definition Geometry_field (g : Geometry) (m : string * json) : option Geometry :=
  let '(k, v) := m in
  if field_is "type" k then
    t ← unmarshal_string v (Geometry_Type g);
    Some {| Geometry_Type := t; Coordinates := Coordinates g |}
  else if field_is "coordinates" k then
    Some {| Geometry_Type := Geometry_Type g; Coordinates := Some v |}
  else Some g.

Definition Feature_field (f : Feature) (m : string * json) : option Feature :=
  let '(k, v) := m in
  if field_is "type" k then
    t ← unmarshal_string v (Feature_Type f);
    Some {| Feature_Type := t; Properties := Properties f;
            Feature_Geometry := Feature_Geometry f |}
  else if field_is "properties" k then
    p ← unmarshal_map v (Properties f);
    Some {| Feature_Type := Feature_Type f; Properties := p;
            Feature_Geometry := Feature_Geometry f |}
  else if field_is "geometry" k then
    g ← unmarshal_struct Geometry_field v (Feature_Geometry f);
    Some {| Feature_Type := Feature_Type f; Properties := Properties f;
            Feature_Geometry := g |}
  else Some f.

(** The zero value of [var feature Feature]. *)
Definition zero_Feature : Feature :=
  {| Feature_Type := ""; Properties := ∅;
     Feature_Geometry := {| Geometry_Type := ""; Coordinates := None |} |}.

Definition unmarshal_Feature (j : json) : option Feature :=
  unmarshal_struct Feature_field j zero_Feature.

(** ** The batch loader *)

(** The outcome of a store call: the connection after it, and whether the
    call returned an error. *)
Inductive res : Type :=
  | Done (c : Conn)
  | Failed (c : Conn).

Definition and_then (r : res) (k : Conn -> res) : res :=
  match r with
  | Done c => k c
  | Failed c => Failed c
  end.

Inductive status : Type :=
  | Success
  | OpenError
  | DecoderError
  | StoreError
  | Panicked
  | OutOfFuel.

Record Loader : Type := mkLoader {
    decoder : Decoder;
    conn : Conn;
    batch : list AddressRecord;
    totalCount : Z
  }.

Definition with_decoder (st : Loader) (d : Decoder) : Loader :=
  {| decoder := d; conn := conn st; batch := batch st; totalCount := totalCount st |}.

Definition with_conn (st : Loader) (c : Conn) : Loader :=
  {| decoder := decoder st; conn := c; batch := batch st; totalCount := totalCount st |}.

Definition maxRecordsPerBatch : Z := 500.

Module Pipeline.
Section WithEnvironment.

Variable formatFloat : float -> string.
Variable formatComposite : json -> string.

(** [timeUp n]: whether [time.Since(batchStartTime) >= maxBatchDuration]
    holds at the check that follows the [n]-th accepted record. *)
Variable timeUp : Z -> bool.

(** [fault n]: whether the store call number [n] does not complete: it
    returns an error for a reason outside the program (the disk, the file
    system), or the process is stopped when the call is due or while it
    runs. *)
Variable fault : nat -> bool.

(** A call that fails before it writes. *)
Definition counted (c : Conn) : Conn :=
  {| committed := committed c; tx := tx c; in_flight := in_flight c;
     calls := S (calls c); pending := pending c; flushed := flushed c |}.

(** A call that fails on the way, or during which the process is
    stopped: what it has written stays in the file. *)
Definition broken (c : Conn) : Conn :=
  {| committed := committed c; tx := tx c; in_flight := true;
     calls := S (calls c); pending := pending c; flushed := flushed c |}.

(** [db.Exec] of a statement outside the transaction.  While the
    transaction is open it holds the one connection of the pool, and that
    connection keeps its lock on the file ([_locking_mode=EXCLUSIVE]): the
    statement is sent on a second connection, which finds the file
    locked, and returns the error [database is locked] with nothing
    written. *)
Definition db_Exec (effect : Database -> Database) (c : Conn) : res :=
  match tx c with
  | Some _ => Failed (counted c)
  | None =>
      if fault (calls c) then Failed (broken c)
      else Done {| committed := effect (committed c); tx := None;
                   in_flight := in_flight c; calls := S (calls c);
                   pending := pending c; flushed := flushed c |}
  end.

(** [db.Begin]: the transaction is deferred and writes nothing. *)
Definition Begin (c : Conn) : res :=
  if fault (calls c) then Failed (counted c)
  else Done {| committed := committed c; tx := Some (table_of (committed c));
               in_flight := in_flight c; calls := S (calls c);
               pending := []; flushed := flushed c |}.

(** [tx.Exec] of one multi-row insert statement. *)
Definition tx_Exec (currentBatch : list AddressRecord) (c : Conn) : res :=
  match tx c with
  | Some t =>
      if fault (calls c) then Failed (broken c)
      else Done {| committed := committed c; tx := Some (insert_rows t currentBatch);
                   in_flight := true; calls := S (calls c);
                   pending := pending c ++ currentBatch; flushed := flushed c |}
  | None => Failed (counted c)
  end.

(** [tx.Commit] *)
Definition Commit (c : Conn) : res :=
  match tx c with
  | Some t =>
      if fault (calls c) then Failed (broken c)
      else Done {| committed := set_table (committed c) t; tx := None;
                   in_flight := false; calls := S (calls c); pending := [];
                   flushed := flushed c ++ [pending c] |}
  | None => Failed (counted c)
  end.

(** The loop of [bulkInsert], from index [i]. *)
Fixpoint bulkInsert_from (fuel : nat) (i : Z) (records : list AddressRecord)
  (c : Conn) : res :=
  match fuel with
  | O => Done c
  | S fuel =>
      if i <? len records then
        let end_ := i + maxRecordsPerBatch in
        let end_ := if len records <? end_ then len records else end_ in
        let currentBatch := take (Z.to_nat (end_ - i)) (drop (Z.to_nat i) records) in
        and_then (tx_Exec currentBatch c)
                 (bulkInsert_from fuel (i + maxRecordsPerBatch) records)
      else Done c
  end.

Definition bulkInsert (c : Conn) (records : list AddressRecord) : res :=
  if len records =? 0 then Done c
  else bulkInsert_from (S (length records)) 0 records c.

Section WithBatchSize.

Variable batchSize : Z.

(** The periodic commit: [bulkInsert], [tx.Commit], [db.Begin], and
    the batch emptied. *)
Definition periodic_commit (st : Loader) : status * Loader :=
  match and_then (and_then (bulkInsert (conn st) (batch st)) Commit) Begin with
  | Done c =>
      (Success, {| decoder := decoder st; conn := c; batch := [];
                   totalCount := totalCount st |})
  | Failed c => (StoreError, with_conn st c)
  end.

(** The body of [if ok] in the loop over the features. *)
Definition accumulate (st : Loader) (record : AddressRecord) : status * Loader :=
  let st1 := {| decoder := decoder st; conn := conn st;
                batch := batch st ++ [record];
                totalCount := totalCount st + 1 |} in
  if (batchSize <=? len (batch st1)) || timeUp (totalCount st1)
  then periodic_commit st1
  else (Success, st1).

(** [for decoder.More() { ... decoder.Decode(&feature) ... }].  The fuel
    bounds the iterations made before the process is stopped: [OutOfFuel]
    is a run stopped there, with the state it leaves. *)
Fixpoint features_loop (fuel : nat) (st : Loader) : status * Loader :=
  match fuel with
  | O => (OutOfFuel, st)
  | S fuel =>
      if More (decoder st) then
        let '(d, feature) := Decode unmarshal_Feature (decoder st) in
        let st := with_decoder st d in
        match feature with
        | None => features_loop fuel st
        | Some feature =>
            match Extractor.extractAddressData formatFloat formatComposite feature with
            | Panic => (Panicked, st)
            | Ret None => features_loop fuel st
            | Ret (Some record) =>
                match accumulate st record with
                | (Success, st1) => features_loop fuel st1
                | stop => stop
                end
            end
        end
      else (Success, st)
  end.

(** The last commit, of a batch that is not empty. *)
Definition last_commit (st : Loader) : status * Loader :=
  if 0 <? len (batch st) then
    match and_then (bulkInsert (conn st) (batch st)) Commit with
    | Done c => (Success, with_conn st c)
    | Failed c => (StoreError, with_conn st c)
    end
  else (Success, st).

Definition is_features (token : Token) : bool :=
  match token with
  | Value (JStr key) => String.eqb key "features"
  | _ => false
  end.

(** The outer [for decoder.More() { token, err := decoder.Token() ... }] *)
Fixpoint tokens_loop (fuel : nat) (st : Loader) : status * Loader :=
  match fuel with
  | O => (OutOfFuel, st)
  | S fuel =>
      if More (decoder st) then
        match Token_ (decoder st) with
        | (d, None) => (DecoderError, with_decoder st d)
        | (d, Some token) =>
            if is_features token then
              match Token_ d with
              | (d1, None) => (DecoderError, with_decoder st d1)
              | (d1, Some _) =>
                  match features_loop fuel (with_decoder st d1) with
                  | (Success, st1) =>
                      match last_commit st1 with
                      | (Success, st2) => tokens_loop fuel st2
                      | stop => stop
                      end
                  | stop => stop
                  end
              end
            else tokens_loop fuel (with_decoder st d)
        end
      else (Success, st)
  end.

End WithBatchSize.

Definition nothing (d : Database) : Database := d.

(** [CREATE TABLE addresses] *)
Definition create_table (d : Database) : Database := set_table d empty_table.

Definition create_index (name : string) (d : Database) : Database :=
  {| addresses := addresses d; sqlite_sequence := sqlite_sequence d;
     indices := indices d ++ [name]; address_fts := address_fts d |}.

Definition create_fts (d : Database) : Database :=
  {| addresses := addresses d; sqlite_sequence := sqlite_sequence d;
     indices := indices d;
     address_fts := Some {| fts_tokenize := createFTSTable_tokenize; fts_rows := [] |} |}.

(** [INSERT INTO address_fts(rowid, street, house_number, city) SELECT id,
    street, house_number, city FROM addresses] *)
Definition populate_fts (d : Database) : Database :=
  {| addresses := addresses d; sqlite_sequence := sqlite_sequence d;
     indices := indices d;
     address_fts :=
       (fun f => {| fts_tokenize := fts_tokenize f;
                    fts_rows := fts_rows f ++
                      ((fun w => (row_id w, (street w, house_number w, city w)))
                         <$> addresses d) |})
         <$> address_fts d |}.

Fixpoint db_Exec_all (effects : list (Database -> Database)) (c : Conn) : res :=
  match effects with
  | [] => Done c
  | e :: rest => and_then (db_Exec e c) (db_Exec_all rest)
  end.

(** [sql.Open] on the removed file, the version query, the eight
    pragmas and [CREATE TABLE addresses]. *)
Definition open_store : res :=
  db_Exec_all (replicate 9 nothing ++ [create_table])
    {| committed := empty_database; tx := None; in_flight := false; calls := 0;
       pending := []; flushed := [] |}.

(** The three indices, [ANALYZE], [PRAGMA optimize], [VACUUM], and the
    full-text table with its one bulk copy. *)
Definition build_indices (c : Conn) : res :=
  db_Exec_all
    [create_index "idx_city"; create_index "idx_street";
     create_index "idx_street_house"; nothing; nothing; nothing;
     create_fts; populate_fts] c.

(** [processGeoJSON] once [filtered.geojson] is open and the database
    file removed. *)
Definition process_file (fuel : nat) (file : list lexeme) : status * Loader :=
  let batchSize := 500000 in
  let loader c d := {| decoder := d; conn := c; batch := []; totalCount := 0 |} in
  match open_store with
  | Failed c => (StoreError, loader c (NewDecoder file))
  | Done c =>
      match Token_ (NewDecoder file) with
      | (d, None) => (DecoderError, loader c d)
      | (d, Some _) =>
          match Begin c with
          | Failed c1 => (StoreError, loader c1 d)
          | Done c1 =>
              match tokens_loop batchSize fuel (loader c1 d) with
              | (Success, st) =>
                  match build_indices (conn st) with
                  | Done c2 => (Success, with_conn st c2)
                  | Failed c2 => (StoreError, with_conn st c2)
                  end
              | stop => stop
              end
          end
      end
  end.

(** [processGeoJSON]: the exit status, the database as the statements
    and transactions that completed leave it, and the tuples of the
    transactions it committed.  [geojson] is the content of
    [filtered.geojson], if the file can be opened; [dbFile] is the
    database file found at the start.  [os.Remove], whose error the
    source ignores, is taken to delete it.  What the file holds when the
    run stops with a statement in flight is [left_on_disk]. *)
Definition processGeoJSON (fuel : nat) (geojson : option (list lexeme))
  (dbFile : option Database)
  : status * option Database * list (list AddressRecord) :=
  match geojson with
  | None => (OpenError, dbFile, [])
  | Some file =>
      let '(s, st) := process_file fuel file in
      (s, Some (committed (conn st)), flushed (conn st))
  end.

End WithEnvironment.
End Pipeline.

(** ** The full-text tokenizer

    FTS5's [unicode61] tokenizer as [createFTSTableSQL] configures it.
    Texts are UTF-8; the classification and case folding of the code
    points above ASCII are SQLite's tables. *)
Module Fts5.

(** The words of a [tokenize=] argument: separated by spaces, a word in
    single quotes standing for the text between the quotes. *)
Fixpoint words_from (s : string) (word : option string) (quoted : bool) : list string :=
  let close w := match w with Some x => [x] | None => [] end in
  match s with
  | EmptyString => close word
  | String c r =>
      let sofar := match word with Some x => x | None => EmptyString end in
      if quoted then
        if Ascii.eqb c "'" then words_from r (Some sofar) false
        else words_from r (Some (String.append sofar (String c EmptyString))) true
      else if Ascii.eqb c "'" then words_from r (Some sofar) true
      else if Ascii.eqb c " " then close word ++ words_from r None false
      else words_from r (Some (String.append sofar (String c EmptyString))) false
  end.

Definition words (s : string) : list string := words_from s None false.

(** The value that follows the option [name] among the words. *)
Fixpoint option_value (name : string) (ws : list string) : option string :=
  match ws with
  | w :: ((v :: _) as rest) =>
      if String.eqb w name then Some v else option_value name rest
  | _ => None
  end.

(** The code points of a UTF-8 text. *)
Fixpoint utf8_from (partial : option N) (s : string) : list N :=
  let flush := match partial with Some c => [c] | None => [] end in
  match s with
  | EmptyString => flush
  | String b r =>
      let n := N_of_ascii b in
      if (N.land n 192 =? 128)%N then
        match partial with
        | Some c => utf8_from (Some (c * 64 + N.land n 63)%N) r
        | None => n :: utf8_from None r
        end
      else if (n <? 128)%N then flush ++ n :: utf8_from None r
      else if (n <? 224)%N then flush ++ utf8_from (Some (N.land n 31)) r
      else if (n <? 240)%N then flush ++ utf8_from (Some (N.land n 15)) r
      else flush ++ utf8_from (Some (N.land n 7)) r
  end.

Definition utf8 (s : string) : list N := utf8_from None s.

Section Unicode61.

(** For a code point above ASCII: whether it is a letter, digit or
    private-use character, whether it is a combining mark, and its
    case-folded form with diacritics kept. *)
Variable unicode_isalnum : N -> bool.
Variable unicode_isdiacritic : N -> bool.
Variable unicode_fold : N -> N.

(** The code points of the [tokenchars] option. *)
Variable tokenchars : list N.

Definition ascii_isalnum (c : N) : bool :=
  ((48 <=? c) && (c <=? 57) || (65 <=? c) && (c <=? 90) || (97 <=? c) && (c <=? 122))%N.

Definition starts_token (c : N) : bool :=
  (if (c <? 128)%N then ascii_isalnum c else unicode_isalnum c)
  || bool_decide (c ∈ tokenchars).

Definition continues_token (c : N) : bool :=
  starts_token c || (negb (c <? 128)%N && unicode_isdiacritic c).

Definition folded (c : N) : list N :=
  if (c <? 128)%N then
    [if ((65 <=? c) && (c <=? 90))%N then (c + 32)%N else c]
  else if (unicode_fold c =? 0)%N then [] else [unicode_fold c].

(** The tokens of a text: the maximal runs of token characters,
    folded.  [token] is the run being read. *)
Fixpoint tokens_from (text : list N) (token : option (list N)) : list (list N) :=
  match text with
  | [] => match token with Some t => [t] | None => [] end
  | c :: rest =>
      match token with
      | None =>
          if starts_token c then tokens_from rest (Some (folded c))
          else tokens_from rest None
      | Some t =>
          if continues_token c then tokens_from rest (Some (t ++ folded c))
          else t :: tokens_from rest None
      end
  end.

Definition tokenize (text : string) : list (list N) :=
  tokens_from (utf8 text) None.

End Unicode61.

(** The tokenizer of [address_fts]: [tokenchars] as the statement gives
    it. *)
Definition address_fts_tokenchars : list N :=
  match option_value "tokenchars" (words createFTSTable_tokenize) with
  | Some v => utf8 v
  | None => []
  end.

Definition address_fts_tokenize (unicode_isalnum unicode_isdiacritic : N -> bool)
  (unicode_fold : N -> N) (text : string) : list (list N) :=
  tokenize unicode_isalnum unicode_isdiacritic unicode_fold address_fts_tokenchars text.

(** The auxiliary function [highlight()] on the text of a column, given
    the phrase instances of the query in it (offset and length in bytes,
    in ascending order): the text, with the opening marker before and the
    closing marker behind each instance.  [pos] is the offset in the
    column at which [text] starts. *)
Definition first_bytes (n : nat) (s : string) : string := String.substring 0 n s.

Definition from_byte (n : nat) (s : string) : string :=
  String.substring n (String.length s - n) s.

Fixpoint highlight_from (pos : nat) (text : string) (spans : list (nat * nat))
  (opening closing : string) : string :=
  match spans with
  | [] => text
  | (start, n) :: rest =>
      let tail := from_byte (start - pos) text in
      String.append (first_bytes (start - pos) text)
        (String.append opening
           (String.append (first_bytes n tail)
              (String.append closing
                 (highlight_from (start + n) (from_byte n tail) rest opening closing))))
  end.

Definition highlight (text : string) (spans : list (nat * nat))
  (opening closing : string) : string :=
  highlight_from 0 text spans opening closing.

End Fts5.

(** ** The search

    The statement of [searchAddresses] over the relations.  Which rows a
    query matches, their [rank] and the text [highlight] returns are
    computed by FTS5. *)
Record SearchResult (Rank : Type) : Type := mkSearchResult {
    res_street : string;
    res_houseNumber : string;
    res_city : string;
    res_lon : float;
    res_lat : float;
    streetMatch : string;
    houseMatch : string;
    cityMatch : string;
    rank : Rank
  }.
Arguments mkSearchResult {Rank}.
Arguments res_street {Rank}.
Arguments res_houseNumber {Rank}.
Arguments res_city {Rank}.
Arguments res_lon {Rank}.
Arguments res_lat {Rank}.
Arguments streetMatch {Rank}.
Arguments houseMatch {Rank}.
Arguments cityMatch {Rank}.
Arguments rank {Rank}.

Inductive line (Rank : Type) : Type :=
  | Suche (query : string)
  | Adresse (r : SearchResult Rank)
  | Match_ (r : SearchResult Rank)
  | KeineErgebnisse.
Arguments Suche {Rank}.
Arguments Adresse {Rank}.
Arguments Match_ {Rank}.
Arguments KeineErgebnisse {Rank}.

Module Search.
Section WithFts5.

(** The values of [rank] with their order. *)
Variable Rank : Type.
Variable rank_leb : Rank -> Rank -> bool.

(** [address_fts MATCH ?]: the rowids of the index entries that match,
    each with its rank, or [None] when FTS5 rejects the query. *)
Variable fts_match : FtsTable -> string -> option (list (Z * Rank)).

(** [highlight(address_fts, column, open, close)] on the text of a
    column of a matching row. *)
Variable highlight : FtsTable -> string -> nat -> string -> string -> string -> string.

(** [ORDER BY rank]: rows of equal rank keep their order. *)
Fixpoint insert_by_rank (r : SearchResult Rank) (l : list (SearchResult Rank))
  : list (SearchResult Rank) :=
  match l with
  | [] => [r]
  | x :: rest =>
    if rank_leb (rank r) (rank x) then r :: l
    else x :: insert_by_rank r rest
  end.

Definition order_by_rank (l : list (SearchResult Rank)) : list (SearchResult Rank) :=
  fold_right insert_by_rank [] l.

(** The select list, on a row [a] of [addresses] joined to an index entry
    of rank [rk]. *)
Definition select_row (f : FtsTable) (query : string) (a : Row) (rk : Rank)
  : SearchResult Rank :=
  {| res_street := street a;
     res_houseNumber := house_number a;
     res_city := city a;
     res_lon := longitude a;
     res_lat := latitude a;
     streetMatch := highlight f query 0 (street a) "<b>" "</b>";
     houseMatch := highlight f query 1 (house_number a) "<b>" "</b>";
     cityMatch := highlight f query 2 (city a) "<b>" "</b>";
     rank := rk |}.

(** [FROM address_fts JOIN addresses a ON address_fts.rowid = a.id WHERE
    address_fts MATCH ?] *)
Definition joined (f : FtsTable) (t : list Row) (query : string)
  (hits : list (Z * Rank)) : list (SearchResult Rank) :=
  '(rowid, rk) ← hits;
  a ← filter (fun a => row_id a = rowid) t;
  [select_row f query a rk].

(** One result is ranked no later than another. *)
Definition by_rank (a b : SearchResult Rank) : Prop :=
  rank_leb (rank a) (rank b) = true.

(** [db.Query] of the statement: the rows it yields, or [None] for an
    error. *)
Definition Query (db : Database) (query : string) : option (list (SearchResult Rank)) :=
  f ← address_fts db;
  hits ← fts_match f query;
  Some (take 5 (order_by_rank (joined f (addresses db) query hits))).

Definition queries : list string :=
  ["Berlin"; "Hauptstraße"; "München Schillerstraße"; "Frankfurt am Main"].

(** What the loop prints for one query. *)
Definition report (query : string) (rows : list (SearchResult Rank)) : list (line Rank) :=
  Suche query ::
  (rows ≫= (fun r => [Adresse r; Match_ r])) ++
  (if bool_decide (rows = []) then [KeineErgebnisse] else []).

Fixpoint search_each (db : Database) (qs : list string) : option (list (line Rank)) :=
  match qs with
  | [] => Some []
  | q :: rest =>
    rows ← Query db q;
    out ← search_each db rest;
    Some (report q rows ++ out)
  end.

(** [searchAddresses]: the lines printed, or [None] for an error. *)
Definition searchAddresses (dbFile : option Database) : option (list (line Rank)) :=
  search_each (default empty_database dbFile) queries.

End WithFts5.
End Search.

(** ** The names of the files

    [main] takes the URL of the OSM file from the [-url] flag and derives
    from it the name of the downloaded file and the name of the database
    file. *)
Definition defaultDataURL : string :=
  "https://download.geofabrik.de/europe/germany/mittelfranken-latest.osm.pbf".

(** [strings.LastIndex(s, substr)]: the index of the last instance of
    [substr] in [s], or [-1] when there is none. *)
Fixpoint LastIndex (s substr : string) : Z :=
  match s with
  | EmptyString => if String.eqb substr "" then 0 else -1
  | String _ rest =>
      let later := LastIndex rest substr in
      if 0 <=? later then 1 + later
      else if String.prefix substr s then 0 else -1
  end.

(** [s[i:j]] on a string, in bytes; out of range it panics. *)
Definition slice (s : string) (i j : Z) : exec string :=
  if (0 <=? i) && (i <=? j) && (j <=? Z.of_nat (String.length s))
  then Ret (String.substring (Z.to_nat i) (Z.to_nat (j - i)) s)
  else Panic.

(** How [main] goes on once the names are set: [log.Fatal] on an empty
    URL, or [run] under the two names. *)
Inductive start : Type :=
  | Fatal
  | Run (fileName dbFile : string).

(** [main] up to the call of [run].  [url] is the value of the [-url]
    flag, if it is given; the package variables [fileName] and [dbFile]
    are empty when [main] starts. *)
Definition main (url : option string) : exec start :=
  let fileName := "" in
  let dbFile := "" in
  let dataURL := default defaultDataURL url in
  if String.eqb dataURL "" then mret Fatal
  else
    fileName ←
      (if String.eqb fileName ""
       then slice dataURL (LastIndex dataURL "/" + 1) (Z.of_nat (String.length dataURL))
       else mret fileName);
    dbFile ←
      (if String.eqb dbFile ""
       then stem ← slice fileName 0 (LastIndex fileName "."); mret (String.append stem ".db")
       else mret dbFile);
    mret (Run fileName dbFile).

(** ** The steps before the import

    The files are the names on which [os.Stat] returns no error.  What
    the network, the file system and [osmium] answer is not the
    program's: the answers are parameters. *)
Inductive download_error : Type :=
  | GetError
  | StatusError (status : Z)
  | CreateError
  | CopyError.

(** What a run does outside the program. *)
Inductive event : Type :=
  | Requested (url : string)
  | Ran (name : string) (args : list string)
  | Converted
  | Searched.

Inductive run_error : Type :=
  | DownloadFailed (e : download_error)
  | FilterFailed
  | FilteredMissing
  | ExportFailed
  | ConvertFailed
  | SearchFailed.

Section Outside.

Variable fileName : string.
Variable dataURL : string.

(** The answer of [http.Get] (an error, or the status code of the
    response), and whether [os.Create] and [io.Copy] succeed. *)
Variable response : option Z.
Variable created : bool.
Variable copied : bool.

(** [os.IsNotExist] of the error of [os.Stat] on a name outside the
    files. *)
Variable IsNotExist : gset string -> string -> bool.

(** [cmd.Run()]: the names that exist after the command, and whether it
    returned an error. *)
Variable cmd_Run : string -> list string -> gset string -> gset string * bool.

(** [processGeoJSON] and [searchAddresses] as far as [run] looks at them:
    whether they return an error, and the names that exist after the
    conversion. *)
Variable convert : gset string -> gset string * bool.
Variable search : gset string -> bool.

(** [downloadOSMFile]: the names after the call, the URLs requested and
    the error returned. *)
Definition downloadOSMFile (files : gset string)
  : gset string * list string * option download_error :=
  if bool_decide (fileName ∈ files) then (files, [], None)
  else
    match response with
    | None => (files, [dataURL], Some GetError)
    | Some status =>
        if negb (status =? 200) then (files, [dataURL], Some (StatusError status))
        else if negb created then (files, [dataURL], Some CreateError)
        else
          let files := {[fileName]} ∪ files in
          if negb copied then (files, [dataURL], Some CopyError)
          else (files, [dataURL], None)
    end.

(** [filterOSMData]: the names after the call, the commands run and
    whether an error is returned. *)
Definition filterOSMData (files : gset string) : gset string * list event * bool :=
  let filteredFile := "filtered.osm.pbf" in
  if bool_decide (filteredFile ∈ files) then (files, [], false)
  else
    let args := ["tags-filter"; "-o"; filteredFile; fileName; "nwr/addr:street";
                 "-f"; "pbf"] in
    let '(files, failed) := cmd_Run "osmium" args files in
    (files, [Ran "osmium" args], failed).

(** [exportToGeoJSON] *)
Definition exportToGeoJSON (files : gset string) : gset string * list event * bool :=
  if bool_decide ("filtered.geojson" ∈ files) then (files, [], false)
  else
    let args := ["export"; "filtered.osm.pbf"; "-f"; "geojson";
                 "--output=filtered.geojson"] in
    let '(files, failed) := cmd_Run "osmium" args files in
    (files, [Ran "osmium" args], failed).

(** [run]: the names that exist after it, what it did outside, and the
    error it returns. *)
Definition run (files : gset string) : gset string * list event * option run_error :=
  let '(files, requests, e) := downloadOSMFile files in
  let done := Requested <$> requests in
  match e with
  | Some e => (files, done, Some (DownloadFailed e))
  | None =>
      let '(files, commands, failed) := filterOSMData files in
      let done := done ++ commands in
      if failed then (files, done, Some FilterFailed)
      else if negb (bool_decide ("filtered.osm.pbf" ∈ files))
              && IsNotExist files "filtered.osm.pbf"
      then (files, done, Some FilteredMissing)
      else
        let '(files, commands, failed) := exportToGeoJSON files in
        let done := done ++ commands in
        if failed then (files, done, Some ExportFailed)
        else
          let '(files, failed) := convert files in
          let done := done ++ [Converted] in
          if failed then (files, done, Some ConvertFailed)
          else
            let done := done ++ [Searched] in
            if search files then (files, done, Some SearchFailed)
            else (files, done, None)
  end.

End Outside.

(** ** The text of an insert statement *)

(** A value bound to a [?] of a statement. *)
Inductive sql_value : Type :=
  | SqlText (s : string)
  | SqlReal (f : float).

(** The loop of [bulkInsert] over [currentBatch], which builds the text
    and the arguments of one statement: [j] is the index of the record. *)
Fixpoint build_insert (j : Z) (currentBatch : list AddressRecord) (query : string)
  (args : list sql_value) : string * list sql_value :=
  match currentBatch with
  | [] => (query, args)
  | rec :: rest =>
      let query := if 0 <? j then String.append query "," else query in
      let query := String.append query "(?, ?, ?, ?, ?)" in
      let args := args ++ [SqlText (Street rec); SqlText (HouseNumber rec);
                           SqlText (City rec); SqlReal (Lon rec); SqlReal (Lat rec)] in
      build_insert (j + 1) rest query args
  end.

Definition insert_statement (currentBatch : list AddressRecord)
  : string * list sql_value :=
  build_insert 0 currentBatch
    "INSERT OR IGNORE INTO addresses (street, house_number, city, longitude, latitude) VALUES "
    [].

(** ** The first coordinate pair of a decoded payload

    What the guarded accesses of [extractAddressData] are to find: the
    first two numbers of the payload unmarshalled at the depth of the
    geometry type.  [None] when the payload does not unmarshal, is empty,
    or has no complete first pair. *)
Definition first_pair (g : Geometry) : option (float * float) :=
  let raw := Coordinates g in
  if String.eqb (Geometry_Type g) "Point" then
    match json_Unmarshal (unmarshal_slice unmarshal_float64) raw with
    | Some (lon :: lat :: _) => Some (lon, lat)
    | _ => None
    end
  else if String.eqb (Geometry_Type g) "LineString" then
    match json_Unmarshal (unmarshal_slice (unmarshal_slice unmarshal_float64)) raw with
    | Some ((lon :: lat :: _) :: _) => Some (lon, lat)
    | _ => None
    end
  else if String.eqb (Geometry_Type g) "Polygon" then
    match json_Unmarshal
            (unmarshal_slice (unmarshal_slice (unmarshal_slice unmarshal_float64)))
            raw with
    | Some (((lon :: lat :: _) :: _) :: _) => Some (lon, lat)
    | _ => None
    end
  else if String.eqb (Geometry_Type g) "MultiPolygon" then
    match json_Unmarshal
            (unmarshal_slice
               (unmarshal_slice (unmarshal_slice (unmarshal_slice unmarshal_float64))))
            raw with
    | Some ((((lon :: lat :: _) :: _) :: _) :: _) => Some (lon, lat)
    | _ => None
    end
  else None.

(** ** Decoders against the documentation

    A decoder [elem] meets the documentation at some depth when every
    payload well formed at that depth decodes to a value whose first
    pair is the documented point. *)
Definition meets {T} (d : nat) (elem : json -> option T)
  (point : json -> option (float * float)) (first : T -> option (float * float)) : Prop :=
  forall j, Documented.nested_pairs d j = true ->
    exists v lon lat, elem j = Some v /\ point j = Some (lon, lat)
                      /\ first v = Some (lon, lat).

Definition head_pair (coords : list float) : option (float * float) :=
  match coords with
  | lon :: lat :: _ => Some (lon, lat)
  | _ => None
  end.

(** ** The store an execution should leave

    [replay log]: the relation obtained from the empty one by the insert
    statements of the committed transactions [log], in order. *)
Definition replay (log : list (list AddressRecord)) : Table :=
  fold_left insert_rows log empty_table.

(** The number of rows with a given natural key. *)
Definition rows_with_key (k : natural_key) (t : list Row) : nat :=
  length (filter (fun w => key_of_row w = k) t).

(** The connection is consistent with its history: the committed relation
    is the replay of the committed transactions, the open transaction
    sees the committed relation extended by its own tuples, and no
    committed transaction holds more than [batchSize] tuples. *)
Definition conn_ok (batchSize : Z) (c : Conn) : Prop :=
  table_of (committed c) = replay (flushed c)
  /\ (forall t, tx c = Some t -> t = insert_rows (table_of (committed c)) (pending c))
  /\ Forall (fun b => len b <= batchSize) (flushed c).

(** The loader between two records: nothing is pending in the open
    transaction and the batch is below the maximum. *)
Definition loader_ok (batchSize : Z) (st : Loader) : Prop :=
  conn_ok batchSize (conn st)
  /\ pending (conn st) = []
  /\ len (batch st) < batchSize.

Definition conn_of (r : res) : Conn :=
  match r with
  | Done c => c
  | Failed c => c
  end.

(** A connection on which no transaction was ever begun. *)
Definition fresh (c : Conn) : Prop :=
  table_of (committed c) = empty_table /\ flushed c = [] /\ tx c = None /\ pending c = [].

(** ** Crash safety as the specification words it

    A run of the import stops before it completes, by the end of the
    process (its fuel) or by an error of the store, with the
    transactions it has committed.  Read of the file as it is when next
    opened, the sentence asks that the file then holds the rows of these
    transactions and nothing else. *)
Definition crash_safety_on_reopen : Prop :=
  forall formatFloat formatComposite timeUp fault fuel file s st,
    Pipeline.process_file formatFloat formatComposite timeUp fault fuel file = (s, st) ->
    s <> Success ->
    exists d,
      left_on_disk (conn st) = Intact d
      /\ addresses d = rows (replay (flushed (conn st))).

(** Read of the store that the program leaves when it is started again
    and runs to its end, the sentence asks that this store holds the rows
    of the transactions that the stopped run had committed. *)
Definition crash_safety_on_rerun : Prop :=
  forall formatFloat formatComposite timeUp fault fuel file dbFile s db log,
    Pipeline.processGeoJSON formatFloat formatComposite timeUp fault fuel (Some file) dbFile
    = (s, db, log) ->
    s <> Success ->
    forall timeUp' fault' fuel' db' log',
      Pipeline.processGeoJSON formatFloat formatComposite timeUp' fault' fuel' (Some file) db
      = (Success, Some db', log') ->
      addresses db' = rows (replay log).

Definition crash_safety_as_stated : Prop :=
  crash_safety_on_reopen \/ crash_safety_on_rerun.

(** ** Documents

    The lexical elements of the elements of an array and of the members
    of an object, with the closing bracket or brace; [lex] writes the
    same. *)
Fixpoint lex_elements (l : list json) : list lexeme :=
  match l with
  | [] => [RBracket]
  | [x] => lex x ++ [RBracket]
  | x :: rest => lex x ++ Comma :: lex_elements rest
  end.

Fixpoint lex_members (l : list (string * json)) : list lexeme :=
  match l with
  | [] => [RBrace]
  | [(k, v)] => Lit (SStr k) :: Colon :: lex v ++ [RBrace]
  | (k, v) :: rest => Lit (SStr k) :: Colon :: lex v ++ Comma :: lex_members rest
  end.

(** What follows a member of an object of which the members [l] remain. *)
Definition member_tail (l : list (string * json)) : list lexeme :=
  match l with
  | [] => [RBrace]
  | _ => Comma :: lex_members l
  end.

(** An element that starts a value. *)
Definition opens (l : lexeme) : bool :=
  match l with
  | Lit _ | LBracket | LBrace => true
  | _ => false
  end.

(** The decoder inside an array of which the elements [l] are still to be
    read, before the first element of the array or after an element. *)
Definition at_elements (first : bool) (l : list json) (rest : list lexeme)
    (stack : list tokenState) : Decoder :=
  {| input := if first then lex_elements l ++ rest
              else match l with
                   | [] => RBracket :: rest
                   | _ => Comma :: lex_elements l ++ rest
                   end;
     state := if first then tokenArrayStart else tokenArrayComma;
     tokenStack := stack;
     err := false |}.

(** The decoder inside the top-level object of which the members [l] are
    still to be read. *)
Definition at_members (first : bool) (l : list (string * json)) : Decoder :=
  {| input := if first then lex_members l
              else match l with
                   | [] => [RBrace]
                   | _ => Comma :: lex_members l
                   end;
     state := if first then tokenObjectStart else tokenObjectComma;
     tokenStack := [tokenTopValue];
     err := false |}.

(** A member that the scan for the [features] key passes over as two
    tokens: its key is not ["features"], and its value is a scalar in
    range other than the string ["features"]. *)
Definition plain_member (m : string * json) : bool :=
  negb (String.eqb m.1 "features")
  && match m.2 with
     | JNull | JBool _ | JNum _ => true
     | JStr s => negb (String.eqb s "features")
     | _ => false
     end.

(** The record of a feature given as JSON text, if it decodes and the
    extractor accepts it. *)
Definition extract_json (formatFloat : float -> string) (formatComposite : json -> string)
    (j : json) : option AddressRecord :=
  match unmarshal_Feature j with
  | Some feature =>
      match Extractor.extractAddressData formatFloat formatComposite feature with
      | Ret (Some r) => Some r
      | _ => None
      end
  | None => None
  end.

Definition records_of (formatFloat : float -> string) (formatComposite : json -> string)
    (features : list json) : list AddressRecord :=
  omap (extract_json formatFloat formatComposite) features.

(** The records the loader holds, committed or in the batch. *)
Definition held (st : Loader) : list AddressRecord :=
  concat (flushed (conn st)) ++ batch st.

(** The batch that the loop over the features is left with after the
    accepted records [records], when it starts from [batch] with [count]
    records counted and no store call fails: a record that fills the
    batch, or at whose check the time is up, is committed with the batch
    and leaves it empty. *)
Fixpoint batch_after (timeUp : Z -> bool) (batchSize count : Z)
  (batch records : list AddressRecord) : list AddressRecord :=
  match records with
  | [] => batch
  | record :: rest =>
      if (batchSize <=? len (batch ++ [record])) || timeUp (count + 1)
      then batch_after timeUp batchSize (count + 1) [] rest
      else batch_after timeUp batchSize (count + 1) (batch ++ [record]) rest
  end.

(** The batch left at the end of the features of a whole import. *)
Definition last_batch (timeUp : Z -> bool) (records : list AddressRecord)
  : list AddressRecord :=
  batch_after timeUp 500000 0 [] records.

(** How an import of accepted records ends on a store that fails no
    call of its own accord.  With a batch left, the last commit closes
    the transaction and the indices are built.  With none (no record was
    accepted, or a periodic commit took the last one) the transaction
    begun last stays open, and the first statement of the index build
    finds the file locked. *)
Definition import_status (timeUp : Z -> bool) (records : list AddressRecord) : status :=
  match last_batch timeUp records with
  | [] => StoreError
  | _ => Success
  end.

(** A row with its id moved up by one when it is above [n]. *)
Definition bump (n : Z) (w : Row) : Row :=
  {| row_id := if n <? row_id w then row_id w + 1 else row_id w;
     street := street w; house_number := house_number w; city := city w;
     longitude := longitude w; latitude := latitude w |}.

(** [shifted n u u']: the table [u] is the table [u'] after one more id
    was used up when [n] were: the same rows, those with an id above [n]
    one higher. *)
Definition shifted (n : Z) (u u' : Table) : Prop :=
  rows u = bump n <$> rows u'
  /\ sequence u = sequence u' + 1
  /\ max_id (rows u') <= sequence u'
  /\ max_id (rows u) <= sequence u
  /\ n <= sequence u'.

(** ** The store calls of the loops

    What the loops do to the connection, one step at a time: a flush (the
    insert statements of a batch that is not empty, then [tx.Commit]) or a
    [db.Begin], each failed or not. *)
Inductive store_step (fault : nat -> bool) : Conn -> Conn -> Prop :=
  | flush_step (c : Conn) (records : list AddressRecord) :
      records <> [] ->
      store_step fault c
        (conn_of (and_then (Pipeline.bulkInsert fault c records) (Pipeline.Commit fault)))
  | begin_step (c : Conn) :
      store_step fault c (conn_of (Pipeline.Begin fault c)).

(** The entries of the full-text index for the rows of the relation. *)
Definition mirror (t : list Row) : list (Z * (string * string * string)) :=
  (fun w => (row_id w, (street w, house_number w, city w))) <$> t.

(** What the index build leaves over the rows [t] of an import that
    ends with status [s], on a store that fails no call of its own
    accord: the three indices and the full-text table, or nothing. *)
Definition schema_after (s : status) (t : list Row)
  : list string * option FtsTable :=
  match s with
  | Success =>
      (["idx_city"; "idx_street"; "idx_street_house"],
       Some {| fts_tokenize := createFTSTable_tokenize; fts_rows := mirror t |})
  | _ => ([], None)
  end.

(** ** Highlighted text

    [wrapped opening closing pos text spans out]: [out] is [text] with
    its parts at [spans] put between the markers.  A span is the offset
    of a part in the text of the column and its length, in bytes; [text]
    is what is left of the column from offset [pos] on, and the spans
    come in ascending order, each behind the one before. *)
Inductive wrapped (opening closing : string)
  : nat -> string -> list (nat * nat) -> string -> Prop :=
  | wrapped_end (pos : nat) (text : string) :
      wrapped opening closing pos text [] text
  | wrapped_span (pos : nat) (before matched after : string) (start n : nat)
      (spans : list (nat * nat)) (out : string) :
      (pos <= start)%nat ->
      String.length before = (start - pos)%nat ->
      String.length matched = n ->
      wrapped opening closing (start + n) after spans out ->
      wrapped opening closing pos
        (String.append before (String.append matched after))
        ((start, n) :: spans)
        (String.append before
           (String.append opening
              (String.append matched (String.append closing out)))).

(** Instances in ascending order, none reaching into the next, all within
    the [n] bytes of a text that starts at offset [pos]. *)
Fixpoint instances_within (pos n : nat) (spans : list (nat * nat)) : Prop :=
  match spans with
  | [] => True
  | (start, k) :: rest =>
      (pos <= start)%nat /\ (start + k <= pos + n)%nat
      /\ instances_within (start + k) (pos + n - (start + k)) rest
  end.

(** The loader between two records, as far as the count goes: nothing is
    pending, and every record counted is in a committed transaction or
    in the batch. *)
Definition count_ok (st : Loader) : Prop :=
  pending (conn st) = []
  /\ totalCount st = len (concat (flushed (conn st))) + len (batch st).

(** ** Statements and their batches *)

(** The batches of at most [size] consecutive records. *)
Fixpoint chunks (fuel size : nat) (records : list AddressRecord)
  : list (list AddressRecord) :=
  match fuel with
  | O => []
  | S fuel =>
      match records with
      | [] => []
      | _ => take size records :: chunks fuel size (drop size records)
      end
  end.

(** [tx.Exec] of one statement after the other, up to the first error. *)
Fixpoint Exec_each (fault : nat -> bool) (batches : list (list AddressRecord)) (c : Conn)
  : res :=
  match batches with
  | [] => Done c
  | b :: rest => and_then (Pipeline.tx_Exec fault b c) (Exec_each fault rest)
  end.

(** The number of [?] in the text of a statement. *)
Fixpoint placeholders (query : string) : nat :=
  match query with
  | EmptyString => O
  | String c rest => ((if Ascii.eqb c "?" then 1 else 0) + placeholders rest)%nat
  end.

(** The five values of a record, in the order of the columns. *)
Definition arguments (r : AddressRecord) : list sql_value :=
  [SqlText (Street r); SqlText (HouseNumber r); SqlText (City r);
   SqlReal (Lon r); SqlReal (Lat r)].

(** The tuples that a list of arguments binds, five values a tuple. *)
Fixpoint tuples (args : list sql_value) : option (list AddressRecord) :=
  match args with
  | [] => Some []
  | SqlText s :: SqlText h :: SqlText c :: SqlReal lon :: SqlReal lat :: rest =>
      rs ← tuples rest;
      Some ({| Street := s; HouseNumber := h; City := c; Lon := lon; Lat := lat |} :: rs)
  | _ => None
  end.

(** ** Bytes and events *)

(** Whether a byte occurs in a string. *)
Fixpoint has_byte (c : ascii) (s : string) : bool :=
  match s with
  | EmptyString => false
  | String x rest => Ascii.eqb x c || has_byte c rest
  end.

Definition is_command (e : event) : bool :=
  match e with
  | Ran _ _ => true
  | _ => false
  end.

(** ** Fixtures

    The features and documents of the specification's scenarios. *)
Module Fixtures.

Definition numbers (x y : float) : json := JArr [JNum x; JNum y].

Definition feature_of (properties : list (string * json)) (geometry_type : string)
  (payload : json) : Feature :=
  {| Feature_Type := "Feature";
     Properties := list_to_map properties;
     Feature_Geometry := {| Geometry_Type := geometry_type;
                            Coordinates := Some payload |} |}.

(** A Point with a street and a city and no house number. *)
Definition street_only : Feature :=
  feature_of [("addr:street", JStr "Hauptstraße"); ("addr:city", JStr "Berlin")]
    "Point" (numbers 13 52).

(** The polygon of the specification: outer ring [[2,3],[4,5],[2,3]]. *)
Definition ring_payload : json :=
  JArr [JArr [numbers 2 3; numbers 4 5; numbers 2 3]].

Definition polygon : Feature :=
  feature_of [("addr:street", JStr "Ringstraße")] "Polygon" ring_payload.

(** A Point on the equator and the prime meridian. *)
Definition null_island : Feature :=
  feature_of [("addr:street", JStr "Hauptstraße"); ("addr:housenumber", JStr "1")]
    "Point" (numbers 0 0).

(** A LineString whose first position has one number only. *)
Definition short_line : Feature :=
  feature_of [("addr:street", JStr "Hauptstraße")] "LineString"
    (JArr [JArr [JNum 13]; numbers 13 52]).

Definition no_format_float (f : float) : string := "".
Definition no_format_composite (j : json) : string := "".

(** The text of a Point feature. *)
Definition point_json (properties : list (string * json)) (lon lat : float) : json :=
  JObj [("type", JStr "Feature");
        ("properties", JObj properties);
        ("geometry", JObj [("type", JStr "Point"); ("coordinates", numbers lon lat)])].

(** The three features of the round-trip scenario, and a second copy of
    the first under other coordinates. *)
Definition feature_A : json :=
  point_json [("addr:street", JStr "Hauptstraße"); ("addr:housenumber", JStr "1");
              ("addr:city", JStr "Berlin")] 13 52.

Definition feature_B : json :=
  point_json [("addr:street", JStr "Hauptstraße"); ("addr:housenumber", JStr "2");
              ("addr:city", JStr "Berlin")] 13.5 52.5.

Definition feature_C : json :=
  point_json [("addr:city", JStr "Berlin")] 14 53.

Definition feature_A_again : json :=
  point_json [("addr:street", JStr "Hauptstraße"); ("addr:housenumber", JStr "1");
              ("addr:city", JStr "Berlin")] 13.25 52.25.

Definition record_A : AddressRecord :=
  {| Street := "Hauptstraße"; HouseNumber := "1"; City := "Berlin"; Lon := 13; Lat := 52 |}.

Definition record_B : AddressRecord :=
  {| Street := "Hauptstraße"; HouseNumber := "2"; City := "Berlin";
     Lon := 13.5; Lat := 52.5 |}.

Definition record_A_again : AddressRecord :=
  {| Street := "Hauptstraße"; HouseNumber := "1"; City := "Berlin";
     Lon := 13.25; Lat := 52.25 |}.

Definition row_A : Row :=
  {| row_id := 1; street := "Hauptstraße"; house_number := "1"; city := "Berlin";
     longitude := 13; latitude := 52 |}.

Definition row_B : Row :=
  {| row_id := 2; street := "Hauptstraße"; house_number := "2"; city := "Berlin";
     longitude := 13.5; latitude := 52.5 |}.

(** A feature collection as [osmium export] writes it. *)
Definition collection (features : list json) : list lexeme :=
  lex (JObj [("type", JStr "FeatureCollection"); ("features", JArr features)]).

Definition never (n : Z) : bool := false.
Definition no_fault (n : nat) : bool := false.

(** The time ceiling has passed when the first record is checked. *)
Definition after_first (n : Z) : bool := n =? 1.

(** The sixteenth store call fails: with one periodic commit behind, it is
    the [tx.Commit] of the last batch. *)
Definition last_commit_fails (n : nat) : bool := Nat.eqb n 15.

(** A collection with a [bbox] member before [features]. *)
Definition collection_with_bbox : list lexeme :=
  lex (JObj [("type", JStr "FeatureCollection");
             ("bbox", JArr [JNum 13; JNum 52; JNum 14; JNum 53]);
             ("features", JArr [feature_A; feature_B])]).

(** A collection with a member whose value is the string ["features"]. *)
Definition collection_named_features : list lexeme :=
  lex (JObj [("name", JStr "features"); ("features", JArr [feature_A; feature_B])]).

(** A stand-in for FTS5 on integer ranks: a row matches when its street is
    the query, the newest row ranking first, and the matching text is
    wrapped whole. *)
Definition match_street (f : FtsTable) (query : string) : option (list (Z * Z)) :=
  Some (omap (fun '(rowid, (st, _, _)) =>
                if String.eqb st query then Some (rowid, - rowid) else None)
             (fts_rows f)).

Definition wrap_whole (f : FtsTable) (query : string) (column : nat)
    (text opening closing : string) : string :=
  if String.eqb text query then String.append opening (String.append text closing)
  else text.

(** The instances that [wrap_whole] marks: the whole text of a column
    that is the query, and nothing else. *)
Definition whole_text (f : FtsTable) (query : string) (column : nat) (text : string)
  : list (nat * nat) :=
  if String.eqb text query then [(0%nat, String.length text)] else [].

(** FTS5's [highlight] on these instances. *)
Definition highlight_whole (f : FtsTable) (query : string) (column : nat)
    (text opening closing : string) : string :=
  Fts5.highlight text (whole_text f query column text) opening closing.

Definition loaded : Database :=
  {| addresses := [row_A; row_B];
     sqlite_sequence := 2;
     indices := ["idx_city"; "idx_street"; "idx_street_house"];
     address_fts :=
       Some {| fts_tokenize := createFTSTable_tokenize;
               fts_rows := [(1, ("Hauptstraße", "1", "Berlin"));
                            (2, ("Hauptstraße", "2", "Berlin"))] |} |}.

End Fixtures.

(** ** Further scenarios *)
Module Scenarios.

Definition type_member : list (string * json) :=
  [("type", JStr "FeatureCollection")].

(** A Point with a street, a city that is [null], a town and a village. *)
Definition town_and_village : Feature :=
  Fixtures.feature_of
    [("addr:street", JStr "Hauptstraße"); ("addr:city", JNull);
     ("addr:town", JStr "Fürth"); ("addr:village", JStr "Poppenreuth")]
    "Point" (Fixtures.numbers 11 49.5).

(** The loader at the start of the features array of a file that ends
    inside its first feature, after [{"type"]. *)
Definition cut_off : Loader :=
  {| decoder := {| input := [LBrace; Lit (SStr "type")];
                   state := tokenArrayStart;
                   tokenStack := [tokenObjectValue; tokenTopValue];
                   err := false |};
     conn := {| committed := empty_database; tx := Some empty_table;
                in_flight := false; calls := 11; pending := []; flushed := [] |};
     batch := [];
     totalCount := 0 |}.

(** The two filtered files of an earlier run. *)
Definition cached : gset string := {["filtered.osm.pbf"]} ∪ {["filtered.geojson"]}.

(** An outside in which a name that is not found does not exist, every
    command fails, the conversion and the search return no error. *)
Definition gone (files : gset string) (name : string) : bool := true.
Definition refuses (name : string) (args : list string) (files : gset string)
  : gset string * bool := (files, true).
Definition converts (files : gset string) : gset string * bool := (files, false).
Definition searches (files : gset string) : bool := false.

End Scenarios.

(** * Properties *)

(** ** Slices *)

Lemma len_nil {A} : len (@nil A) = 0.
Proof. reflexivity. Qed.

Lemma len_cons {A} (x : A) (l : list A) : len (x :: l) = 1 + len l.
Proof. unfold len. simpl length. lia. Qed.

Lemma len_nonneg {A} (l : list A) : 0 <= len l.
Proof. unfold len. lia. Qed.

Lemma len_app {A} (l k : list A) : len (l ++ k) = len l + len k.
Proof. unfold len. rewrite length_app. lia. Qed.

Lemma guard_pair {A} (x y : A) (l : list A) : (2 <=? len (x :: y :: l)) = true.
Proof. rewrite !len_cons. pose proof (len_nonneg l). apply Z.leb_le. lia. Qed.

Lemma guard_pair_single {A} (x : A) : (2 <=? len [x]) = false.
Proof. reflexivity. Qed.

Lemma guard_first {A} (x : A) (l : list A) : (0 <? len (x :: l)) = true.
Proof. rewrite len_cons. pose proof (len_nonneg l). apply Z.ltb_lt. lia. Qed.

(** ** The extractor *)
Section ExtractorProperties.

Variable formatFloat : float -> string.
Variable formatComposite : json -> string.

Local Abbreviation coordinates_switch := Extractor.coordinates_switch.
Local Abbreviation extractAddressData :=
  (Extractor.extractAddressData formatFloat formatComposite).
Local Abbreviation Sprintf_v := (Extractor.Sprintf_v formatFloat formatComposite).

Ltac guards :=
  simpl;
  repeat (first [ rewrite guard_pair | rewrite guard_pair_single
                | rewrite guard_first | rewrite len_nil ]; simpl).

(** The guarded accesses find the first pair when there is one and leave
    the coordinate at zero when there is none; they never panic. *)
Lemma coordinates_switch_first_pair (g : Geometry) :
  Documented.payload_depth (Geometry_Type g) <> None ->
  coordinates_switch g = Ret (Some (default (0%float, 0%float) (first_pair g))).
Proof.
  unfold Documented.payload_depth, coordinates_switch, first_pair.
  intros Hknown.
  destruct (String.eqb (Geometry_Type g) "Point").
  { destruct (json_Unmarshal _ _) as [[|lon [|lat r]]|]; guards; reflexivity. }
  destruct (String.eqb (Geometry_Type g) "LineString").
  { destruct (json_Unmarshal _ _) as [[|[|lon [|lat r]] cs]|]; guards; reflexivity. }
  destruct (String.eqb (Geometry_Type g) "Polygon").
  { destruct (json_Unmarshal _ _) as [[|[|[|lon [|lat r]] c0] cs]|];
      guards; reflexivity. }
  destruct (String.eqb (Geometry_Type g) "MultiPolygon").
  { destruct (json_Unmarshal _ _) as [[|[|[|[|lon [|lat r]] c00] c0] cs]|];
      guards; reflexivity. }
  contradiction.
Qed.

Lemma coordinates_switch_unknown (g : Geometry) :
  Documented.payload_depth (Geometry_Type g) = None ->
  coordinates_switch g = Ret None.
Proof.
  unfold Documented.payload_depth, coordinates_switch.
  repeat (destruct (String.eqb _ _); [discriminate|]).
  reflexivity.
Qed.

Lemma coordinates_switch_returns (g : Geometry) :
  exists c, coordinates_switch g = Ret c.
Proof.
  destruct (Documented.payload_depth (Geometry_Type g)) eqn:E.
  - eexists. apply coordinates_switch_first_pair. congruence.
  - eexists. apply coordinates_switch_unknown. exact E.
Qed.

(** [extractAddressData] in terms of the coordinate the switch leaves. *)
Lemma extractAddressData_unfold (feature : Feature) c :
  coordinates_switch (Feature_Geometry feature) = Ret c ->
  extractAddressData feature =
    Ret (match Properties feature !! "addr:street", c with
         | Some street, Some (lon, lat) =>
             if both_zero lon lat then None
             else Some {| Street := Sprintf_v street;
                          HouseNumber :=
                            Sprintf_v (fst (map_index (Properties feature)
                                                      "addr:housenumber"));
                          City := Sprintf_v (Extractor.resolve_city (Properties feature));
                          Lon := lon;
                          Lat := lat |}
         | _, _ => None
         end).
Proof.
  intros Hc. unfold Extractor.extractAddressData, map_index at 1.
  destruct (Properties feature !! "addr:street") as [street|]; simpl; [|reflexivity].
  rewrite Hc. simpl.
  destruct c as [[lon lat]|]; [|reflexivity].
  destruct (both_zero lon lat); reflexivity.
Qed.

(** *** Well-formed payloads decode to the documented vertex *)

Lemma numbers_unmarshal (elems : list json) :
  forallb Documented.is_number elems = true ->
  is_Some (mapM unmarshal_float64 elems).
Proof.
  intros H. apply mapM_is_Some_2, Forall_forall.
  intros j Hj. rewrite forallb_forall in H.
  specialize (H j (proj1 (list_elem_of_In _ _) Hj)).
  destruct j; try discriminate. simpl. eauto.
Qed.

Lemma meets_pair :
  meets 0 (unmarshal_slice unmarshal_float64) Documented.the_point head_pair.
Proof.
  intros j Hj. destruct j as [| | | | |elems|]; try discriminate.
  simpl in Hj. apply andb_prop in Hj as [Hnum Hlen].
  destruct (numbers_unmarshal elems Hnum) as [coords Hcoords].
  destruct elems as [|a [|b rest]]; try discriminate.
  destruct a; try discriminate. destruct b; try discriminate.
  simpl in Hcoords |- *.
  destruct (mapM unmarshal_float64 rest) as [k|]; [|discriminate].
  simpl. eauto 10.
Qed.

Lemma meets_nested {T} d (elem : json -> option T) point first :
  meets d elem point first ->
  meets (S d) (unmarshal_slice elem)
    (fun j => x ← Documented.first_of j; point x)
    (fun l => x ← head l; first x).
Proof.
  intros Hmeets j Hj. destruct j as [| | | | |elems|]; try discriminate.
  simpl in Hj. apply andb_prop in Hj as [Hpos Hall].
  destruct elems as [|x rest]; [discriminate|].
  simpl in Hall. apply andb_prop in Hall as [Hx Hrest].
  destruct (Hmeets x Hx) as (v & lon & lat & Hv & Hpoint & Hfirst).
  assert (is_Some (mapM elem rest)) as [vs Hvs].
  { apply mapM_is_Some_2, Forall_forall. intros y Hy.
    rewrite forallb_forall in Hrest.
    destruct (Hmeets y (Hrest y (proj1 (list_elem_of_In _ _) Hy)))
      as (w & ? & ? & Hw & _).
    simpl. rewrite Hw. eauto. }
  exists (v :: vs), lon, lat. simpl. rewrite Hv, Hvs. simpl. auto.
Qed.

Lemma first_pair_documented (g : Geometry) (payload : json) :
  Coordinates g = Some payload ->
  Documented.well_formed_payload (Geometry_Type g) payload = true ->
  exists lon lat,
    Documented.representative_vertex (Geometry_Type g) payload = Some (lon, lat)
    /\ first_pair g = Some (lon, lat).
Proof.
  unfold Documented.well_formed_payload, Documented.payload_depth,
    Documented.representative_vertex, first_pair.
  intros -> Hwf. simpl.
  pose proof meets_pair as M0.
  pose proof (meets_nested _ _ _ _ M0) as M1.
  pose proof (meets_nested _ _ _ _ M1) as M2.
  pose proof (meets_nested _ _ _ _ M2) as M3.
  destruct (String.eqb (Geometry_Type g) "Point").
  { destruct (M0 _ Hwf) as (v & lon & lat & -> & -> & Hf).
    exists lon, lat. split; [reflexivity|].
    destruct v as [|? [|? ?]]; simpl in Hf; congruence. }
  destruct (String.eqb (Geometry_Type g) "LineString").
  { destruct (M1 _ Hwf) as (v & lon & lat & -> & -> & Hf).
    exists lon, lat. split; [reflexivity|].
    destruct v as [|[|? [|? ?]] ?]; simpl in Hf; congruence. }
  destruct (String.eqb (Geometry_Type g) "Polygon").
  { destruct (M2 _ Hwf) as (v & lon & lat & -> & -> & Hf).
    exists lon, lat. split; [reflexivity|].
    destruct v as [|[|[|? [|? ?]] ?] ?]; simpl in Hf; congruence. }
  destruct (String.eqb (Geometry_Type g) "MultiPolygon").
  { destruct (M3 _ Hwf) as (v & lon & lat & -> & -> & Hf).
    exists lon, lat. split; [reflexivity|].
    destruct v as [|[|[|[|? [|? ?]] ?] ?] ?]; simpl in Hf; congruence. }
  discriminate.
Qed.

(** C5.  For a feature with a street and a well-formed payload of one of
    the four geometry types, the coordinate [extractAddressData] takes is
    the documented representative vertex: the point itself, the first
    vertex of a LineString, the first vertex of the outer ring of a
    Polygon, the first vertex of the outer ring of the first polygon of
    a MultiPolygon.  The record returned carries it as [(Lon, Lat)]; a
    vertex that is zero in both parts is the case of the zero check,
    where no record is returned.  A feature of any other geometry type
    is excluded. *)
Theorem representative_vertex_extracted (feature : Feature) :
  let g := Feature_Geometry feature in
  (forall payload,
      is_Some (Properties feature !! "addr:street") ->
      Coordinates g = Some payload ->
      Documented.well_formed_payload (Geometry_Type g) payload = true ->
      exists lon lat,
        Documented.representative_vertex (Geometry_Type g) payload = Some (lon, lat)
        /\ coordinates_switch g = Ret (Some (lon, lat))
        /\ (if both_zero lon lat
            then extractAddressData feature = Ret None
            else exists r, extractAddressData feature = Ret (Some r)
                           /\ Lon r = lon /\ Lat r = lat))
  /\ (Documented.payload_depth (Geometry_Type g) = None ->
      extractAddressData feature = Ret None).
Proof.
  intros g. split.
  - intros payload [street Hstreet] Hraw Hwf.
    destruct (first_pair_documented g payload Hraw Hwf) as (lon & lat & Hdoc & Hfirst).
    assert (Hsw : coordinates_switch g = Ret (Some (lon, lat))).
    { rewrite coordinates_switch_first_pair, Hfirst; [reflexivity|].
      unfold Documented.well_formed_payload in Hwf.
      destruct (Documented.payload_depth (Geometry_Type g)); congruence. }
    exists lon, lat. split; [exact Hdoc|]. split; [exact Hsw|].
    rewrite (extractAddressData_unfold feature _ Hsw), Hstreet.
    destruct (both_zero lon lat); [reflexivity|].
    eexists. split; [reflexivity|]. split; reflexivity.
  - intros Hunknown.
    rewrite (extractAddressData_unfold feature None).
    + destruct (Properties feature !! "addr:street"); reflexivity.
    + apply coordinates_switch_unknown. exact Hunknown.
Qed.

(** C6.  A feature whose representative coordinate is zero in both
    parts is excluded, whatever its properties: with or without a street,
    [(nil, false)] is returned.  The coordinate is the one the switch
    leaves, or the documented vertex of a well-formed payload, which is
    the same. *)
Theorem zero_coordinate_excluded (feature : Feature) (lon lat : float) :
  let g := Feature_Geometry feature in
  coordinates_switch g = Ret (Some (lon, lat))
  \/ (exists payload,
         Coordinates g = Some payload
         /\ Documented.well_formed_payload (Geometry_Type g) payload = true
         /\ Documented.representative_vertex (Geometry_Type g) payload = Some (lon, lat)) ->
  both_zero lon lat = true ->
  extractAddressData feature = Ret None.
Proof.
  intros g Hcoord Hzero.
  assert (Hsw : coordinates_switch g = Ret (Some (lon, lat))).
  { destruct Hcoord as [Hsw|(payload & Hraw & Hwf & Hdoc)]; [exact Hsw|].
    destruct (first_pair_documented g payload Hraw Hwf) as (lon' & lat' & Hdoc' & Hfirst).
    rewrite Hdoc in Hdoc'. injection Hdoc' as <- <-.
    rewrite coordinates_switch_first_pair, Hfirst; [reflexivity|].
    unfold Documented.well_formed_payload in Hwf.
    destruct (Documented.payload_depth (Geometry_Type g)); congruence. }
  rewrite (extractAddressData_unfold feature _ Hsw), Hzero.
  destruct (Properties feature !! "addr:street"); reflexivity.
Qed.

(** C10.  On a feature of one of the four geometry types
    [extractAddressData] returns, whatever the payload: no access is out
    of range.  The coordinate the switch leaves is the first pair of the
    decoded payload, and zero when the payload does not parse, is empty
    or has no complete first pair; the feature is then excluded by the
    zero check. *)
Theorem extractAddressData_total (feature : Feature) :
  let g := Feature_Geometry feature in
  Documented.payload_depth (Geometry_Type g) <> None ->
  coordinates_switch g = Ret (Some (default (0%float, 0%float) (first_pair g)))
  /\ (exists r, extractAddressData feature = Ret r)
  /\ (first_pair g = None -> extractAddressData feature = Ret None).
Proof.
  intros g Hknown.
  pose proof (coordinates_switch_first_pair g Hknown) as Hsw.
  split; [exact Hsw|]. split.
  - eexists. apply (extractAddressData_unfold feature _ Hsw).
  - intros Hnone. rewrite Hnone in Hsw. simpl in Hsw.
    rewrite (extractAddressData_unfold feature _ Hsw).
    destruct (Properties feature !! "addr:street"); reflexivity.
Qed.

End ExtractorProperties.

(** C2.  A Point feature with a street and no house number is not
    excluded, and the house number of its record is the text ["<nil>"]:
    the missing property is the nil interface value, which [%v] prints
    so. *)
Theorem house_number_absent_prints_nil formatFloat formatComposite :
  Extractor.extractAddressData formatFloat formatComposite Fixtures.street_only
  = Ret (Some {| Street := "Hauptstraße";
                 HouseNumber := "<nil>";
                 City := "Berlin";
                 Lon := 13;
                 Lat := 52 |}).
Proof. vm_compute. reflexivity. Qed.

(** The same for every feature: a record made from a feature without the
    house-number property has the house number ["<nil>"]. *)
Lemma house_number_absent formatFloat formatComposite (feature : Feature) r :
  Properties feature !! "addr:housenumber" = None ->
  Extractor.extractAddressData formatFloat formatComposite feature = Ret (Some r) ->
  HouseNumber r = "<nil>".
Proof.
  intros Hnone Hr.
  destruct (coordinates_switch_returns (Feature_Geometry feature)) as [c Hc].
  rewrite (extractAddressData_unfold _ _ feature c Hc) in Hr.
  destruct (Properties feature !! "addr:street"); [|discriminate].
  destruct c as [[lon lat]|]; [|discriminate].
  destruct (both_zero lon lat); [discriminate|].
  injection Hr as <-. simpl. unfold map_index. rewrite Hnone. reflexivity.
Qed.

Lemma representative_vertex_extracted_witness :
  let g := Feature_Geometry Fixtures.polygon in
  is_Some (Properties Fixtures.polygon !! "addr:street")
  /\ Coordinates g = Some Fixtures.ring_payload
  /\ Documented.well_formed_payload (Geometry_Type g) Fixtures.ring_payload = true
  /\ exists lon lat,
       Documented.representative_vertex (Geometry_Type g) Fixtures.ring_payload
       = Some (lon, lat)
       /\ Extractor.coordinates_switch g = Ret (Some (lon, lat))
       /\ (if both_zero lon lat
           then Extractor.extractAddressData Fixtures.no_format_float
                  Fixtures.no_format_composite Fixtures.polygon = Ret None
           else exists r,
               Extractor.extractAddressData Fixtures.no_format_float
                 Fixtures.no_format_composite Fixtures.polygon = Ret (Some r)
               /\ Lon r = lon /\ Lat r = lat).
Proof.
  assert (H1 : is_Some (Properties Fixtures.polygon !! "addr:street")).
  { exists (JStr "Ringstraße"). vm_compute. reflexivity. }
  assert (H2 : Coordinates (Feature_Geometry Fixtures.polygon) = Some Fixtures.ring_payload).
  { reflexivity. }
  assert (H3 : Documented.well_formed_payload
                 (Geometry_Type (Feature_Geometry Fixtures.polygon))
                 Fixtures.ring_payload = true).
  { vm_compute. reflexivity. }
  refine (conj H1 (conj H2 (conj H3 _))).
  exact (proj1 (representative_vertex_extracted Fixtures.no_format_float
                  Fixtures.no_format_composite Fixtures.polygon)
               Fixtures.ring_payload H1 H2 H3).
Defined.

Lemma zero_coordinate_excluded_witness :
  let g := Feature_Geometry Fixtures.null_island in
  (Extractor.coordinates_switch g = Ret (Some (0%float, 0%float))
   \/ (exists payload,
          Coordinates g = Some payload
          /\ Documented.well_formed_payload (Geometry_Type g) payload = true
          /\ Documented.representative_vertex (Geometry_Type g) payload
             = Some (0%float, 0%float)))
  /\ both_zero 0 0 = true
  /\ Extractor.extractAddressData Fixtures.no_format_float Fixtures.no_format_composite
       Fixtures.null_island = Ret None.
Proof.
  intros g.
  assert (H1 : Extractor.coordinates_switch g = Ret (Some (0%float, 0%float))
               \/ (exists payload,
                      Coordinates g = Some payload
                      /\ Documented.well_formed_payload (Geometry_Type g) payload = true
                      /\ Documented.representative_vertex (Geometry_Type g) payload
                         = Some (0%float, 0%float))).
  { right. exists (Fixtures.numbers 0 0).
    split; [reflexivity|]. split; vm_compute; reflexivity. }
  assert (H2 : both_zero 0 0 = true).
  { vm_compute. reflexivity. }
  refine (conj H1 (conj H2 _)).
  exact (zero_coordinate_excluded Fixtures.no_format_float Fixtures.no_format_composite
           Fixtures.null_island 0%float 0%float H1 H2).
Defined.

Lemma extractAddressData_total_witness :
  let g := Feature_Geometry Fixtures.short_line in
  Documented.payload_depth (Geometry_Type g) <> None
  /\ Extractor.coordinates_switch g = Ret (Some (0%float, 0%float))
  /\ Extractor.extractAddressData Fixtures.no_format_float Fixtures.no_format_composite
       Fixtures.short_line = Ret None.
Proof.
  assert (H1 : Documented.payload_depth
                 (Geometry_Type (Feature_Geometry Fixtures.short_line)) <> None).
  { vm_compute. discriminate. }
  pose proof (extractAddressData_total Fixtures.no_format_float
                Fixtures.no_format_composite Fixtures.short_line H1) as (Hsw & _ & Hnone).
  refine (conj H1 (conj Hsw _)).
  apply Hnone. vm_compute. reflexivity.
Defined.

(** ** The relation under insert-or-ignore *)

Lemma insert_rows_app t rs1 rs2 :
  insert_rows t (rs1 ++ rs2) = insert_rows (insert_rows t rs1) rs2.
Proof. apply fold_left_app. Qed.

Lemma replay_snoc log b : replay (log ++ [b]) = insert_rows (replay log) b.
Proof. unfold replay. rewrite fold_left_app. reflexivity. Qed.

Lemma insert_or_ignore_keys t r :
  NoDup (key_of_row <$> rows t) ->
  NoDup (key_of_row <$> rows (insert_or_ignore t r))
  /\ key_of_record r ∈ key_of_row <$> rows (insert_or_ignore t r)
  /\ (forall k, k ∈ key_of_row <$> rows t -> k ∈ key_of_row <$> rows (insert_or_ignore t r)).
Proof.
  intros Hnd. unfold insert_or_ignore. cbn [rows].
  case_bool_decide as Hin.
  - auto.
  - rewrite fmap_app. simpl. change (street _, _, _) with (key_of_record r).
    split; [|split].
    + apply NoDup_app. split; [exact Hnd|]. split.
      * intros k Hk Hk'. apply list_elem_of_singleton in Hk'. subst. contradiction.
      * apply NoDup_singleton.
    + apply elem_of_app. right. apply list_elem_of_singleton. reflexivity.
    + intros k Hk. apply elem_of_app. left. exact Hk.
Qed.

Lemma insert_rows_keys rs : forall t,
  NoDup (key_of_row <$> rows t) ->
  NoDup (key_of_row <$> rows (insert_rows t rs))
  /\ (forall r, r ∈ rs -> key_of_record r ∈ key_of_row <$> rows (insert_rows t rs))
  /\ (forall k, k ∈ key_of_row <$> rows t -> k ∈ key_of_row <$> rows (insert_rows t rs)).
Proof.
  induction rs as [|r rs IH]; intros t Hnd; simpl.
  - split; [exact Hnd|]. split; [|auto]. intros r Hr. inversion Hr.
  - destruct (insert_or_ignore_keys t r Hnd) as (Hnd1 & Hr1 & Hold1).
    destruct (IH _ Hnd1) as (Hnd2 & Hrs2 & Hold2).
    split; [exact Hnd2|]. split.
    + intros r' Hr'. apply elem_of_cons in Hr' as [->|Hr']; auto.
    + auto.
Qed.

Lemma replay_keys log :
  NoDup (key_of_row <$> rows (replay log))
  /\ (forall r, r ∈ concat log -> key_of_record r ∈ key_of_row <$> rows (replay log)).
Proof.
  induction log as [|b log IH] using rev_ind.
  - split; [constructor|]. intros r Hr. inversion Hr.
  - destruct IH as [Hnd Hin]. rewrite replay_snoc.
    destruct (insert_rows_keys b _ Hnd) as (Hnd' & Hb & Hold).
    split; [exact Hnd'|].
    intros r Hr. rewrite concat_app in Hr. simpl in Hr. rewrite app_nil_r in Hr.
    apply elem_of_app in Hr as [Hr|Hr]; auto.
Qed.

Lemma rows_with_key_none k (t : list Row) :
  k ∉ key_of_row <$> t -> rows_with_key k t = 0%nat.
Proof.
  unfold rows_with_key.
  induction t as [|w t IH]; intros Hnot; [reflexivity|].
  rewrite filter_cons. simpl in Hnot. apply not_elem_of_cons in Hnot as [Hne Hnot].
  case_decide as Hk; [congruence|auto].
Qed.

Lemma rows_with_key_one k (t : list Row) :
  NoDup (key_of_row <$> t) -> k ∈ key_of_row <$> t -> rows_with_key k t = 1%nat.
Proof.
  induction t as [|w t IH]; intros Hnd Hin; simpl in *.
  - inversion Hin.
  - apply NoDup_cons in Hnd as [Hw Hnd].
    unfold rows_with_key in *. rewrite filter_cons. case_decide as Hk.
    + subst k. simpl. f_equal. apply rows_with_key_none. exact Hw.
    + apply elem_of_cons in Hin as [->|Hin]; [contradiction|]. auto.
Qed.

(** ** The loader keeps the store consistent with its history *)
Section LoaderProperties.

Variable formatFloat : float -> string.
Variable formatComposite : json -> string.
Variable timeUp : Z -> bool.
Variable fault : nat -> bool.

Local Abbreviation tx_Exec := (Pipeline.tx_Exec fault).
Local Abbreviation Commit := (Pipeline.Commit fault).
Local Abbreviation Begin := (Pipeline.Begin fault).
Local Abbreviation db_Exec := (Pipeline.db_Exec fault).
Local Abbreviation db_Exec_all := (Pipeline.db_Exec_all fault).
Local Abbreviation bulkInsert_from := (Pipeline.bulkInsert_from fault).
Local Abbreviation bulkInsert := (Pipeline.bulkInsert fault).

Lemma and_then_conn (P : Conn -> Prop) r k :
  P (conn_of r) -> (forall c, P c -> P (conn_of (k c))) -> P (conn_of (and_then r k)).
Proof. destruct r; simpl; auto. Qed.

Lemma and_then_done r k c :
  and_then r k = Done c -> exists c0, r = Done c0 /\ k c0 = Done c.
Proof. destruct r; simpl; [eauto|discriminate]. Qed.

(** What a successful insert statement does to the transaction. *)
Lemma tx_Exec_done records c c' :
  tx_Exec records c = Done c' ->
  committed c' = committed c /\ flushed c' = flushed c
  /\ tx c' = (fun t => insert_rows t records) <$> tx c
  /\ is_Some (tx c)
  /\ pending c' = pending c ++ records.
Proof.
  unfold Pipeline.tx_Exec. destruct (tx c) as [t|] eqn:Ht; [|discriminate].
  destruct (fault (calls c)); [discriminate|].
  intros [= <-]. simpl. eauto 10.
Qed.

(** A statement, failed or not, leaves the file and the history alone and
    the transaction consistent with its tuples. *)
Lemma tx_Exec_keeps records c :
  let c' := conn_of (tx_Exec records c) in
  committed c' = committed c /\ flushed c' = flushed c
  /\ ((forall t, tx c = Some t -> t = insert_rows (table_of (committed c)) (pending c)) ->
      forall t, tx c' = Some t -> t = insert_rows (table_of (committed c')) (pending c')).
Proof.
  unfold Pipeline.tx_Exec.
  destruct (tx c) as [t|] eqn:Ht; simpl; [|split; [|split]; auto; congruence].
  destruct (fault (calls c)); simpl; [rewrite Ht; auto|].
  split; [reflexivity|]. split; [reflexivity|].
  intros H t' [= <-]. rewrite insert_rows_app, <- (H t eq_refl). reflexivity.
Qed.

Lemma conn_ok_tx_Exec batchSize records c :
  conn_ok batchSize c -> conn_ok batchSize (conn_of (tx_Exec records c)).
Proof.
  intros (Hrep & Htx & Hlen).
  destruct (tx_Exec_keeps records c) as (Hc & Hf & Ht).
  unfold conn_ok. rewrite Hc, Hf. split; [exact Hrep|]. split; [|exact Hlen].
  intros t Hsome. rewrite <- Hc. apply (Ht Htx t Hsome).
Qed.

Lemma conn_ok_bulkInsert_from batchSize records fuel : forall i c,
  conn_ok batchSize c -> conn_ok batchSize (conn_of (bulkInsert_from fuel i records c)).
Proof.
  induction fuel as [|fuel IH]; intros i c Hok; simpl; [exact Hok|].
  destruct (i <? len records); [|exact Hok].
  apply and_then_conn.
  - apply conn_ok_tx_Exec. exact Hok.
  - intros c1 Hc1. apply IH. exact Hc1.
Qed.

Lemma conn_ok_bulkInsert batchSize records c :
  conn_ok batchSize c -> conn_ok batchSize (conn_of (bulkInsert c records)).
Proof.
  intros Hok. unfold Pipeline.bulkInsert.
  destruct (len records =? 0); [exact Hok|].
  apply conn_ok_bulkInsert_from. exact Hok.
Qed.

(** The statements of a successful [bulkInsert] carry the records from
    index [i] on, each once and in order. *)
Lemma bulkInsert_from_done records fuel : forall i c c',
  0 <= i ->
  len records - i <= maxRecordsPerBatch * Z.of_nat fuel ->
  bulkInsert_from fuel i records c = Done c' ->
  pending c' = pending c ++ drop (Z.to_nat i) records
  /\ tx c' = (fun t => insert_rows t (drop (Z.to_nat i) records)) <$> tx c.
Proof.
  unfold maxRecordsPerBatch.
  induction fuel as [|fuel IH]; intros i c c' Hi Hfuel; simpl.
  - intros [= <-]. rewrite drop_ge, app_nil_r; [|unfold len in Hfuel; lia].
    split; [reflexivity|]. destruct (tx c); reflexivity.
  - destruct (Z.ltb_spec i (len records)) as [Hlt|Hge].
    + intros Hdone. apply and_then_done in Hdone as (c1 & Hexec & Hrest).
      apply tx_Exec_done in Hexec as (_ & _ & Ht1 & _ & Hp1).
      unfold maxRecordsPerBatch in *.
      apply IH in Hrest as [Hp Ht]; [|lia|lia].
      rewrite Hp, Hp1, Ht, Ht1, <- app_assoc.
      set (chunk := take _ _).
      assert (Hsplit : chunk ++ drop (Z.to_nat (i + 500)) records
                       = drop (Z.to_nat i) records).
      { subst chunk.
        destruct (Z.ltb_spec (len records) (i + 500)) as [Hshort|Hlong].
        - rewrite take_ge; [|rewrite length_drop; unfold len in *; lia].
          rewrite (drop_ge _ (Z.to_nat (i + 500))); [|unfold len in *; lia].
          apply app_nil_r.
        - replace (Z.to_nat (i + 500))
            with (Z.to_nat i + Z.to_nat (i + 500 - i))%nat by lia.
          rewrite <- drop_drop. apply take_drop. }
      rewrite Hsplit. split; [reflexivity|].
      destruct (tx c) as [t|]; simpl; [|reflexivity].
      rewrite <- insert_rows_app, Hsplit. reflexivity.
    + intros [= <-]. rewrite drop_ge, app_nil_r; [|unfold len in Hge; lia].
      split; [reflexivity|]. destruct (tx c); reflexivity.
Qed.

Lemma bulkInsert_done records c c' :
  bulkInsert c records = Done c' ->
  pending c' = pending c ++ records
  /\ tx c' = (fun t => insert_rows t records) <$> tx c.
Proof.
  unfold Pipeline.bulkInsert.
  destruct (Z.eqb_spec (len records) 0) as [Hz|Hnz].
  - intros [= <-]. destruct records; [|discriminate]. rewrite app_nil_r.
    split; [reflexivity|]. destruct (tx c); reflexivity.
  - intros Hdone. apply bulkInsert_from_done in Hdone; [exact Hdone|lia|].
    unfold maxRecordsPerBatch, len. lia.
Qed.

(** Failed or not, [bulkInsert] leaves the file and the history alone. *)
Lemma bulkInsert_from_keeps records fuel : forall i c,
  committed (conn_of (bulkInsert_from fuel i records c)) = committed c
  /\ flushed (conn_of (bulkInsert_from fuel i records c)) = flushed c.
Proof.
  induction fuel as [|fuel IH]; intros i c; simpl; [auto|].
  destruct (i <? len records); [|auto].
  destruct (tx_Exec_keeps
              (take (Z.to_nat ((if len records <? i + maxRecordsPerBatch
                                then len records else i + maxRecordsPerBatch) - i))
                    (drop (Z.to_nat i) records)) c) as (Hc & Hf & _).
  destruct (tx_Exec _ c) as [c1|c1]; simpl in *.
  - destruct (IH (i + maxRecordsPerBatch) c1) as [Hc1 Hf1].
    rewrite Hc1, Hf1. auto.
  - auto.
Qed.

Lemma bulkInsert_keeps records c :
  committed (conn_of (bulkInsert c records)) = committed c
  /\ flushed (conn_of (bulkInsert c records)) = flushed c.
Proof.
  unfold Pipeline.bulkInsert. destruct (len records =? 0); [auto|].
  apply bulkInsert_from_keeps.
Qed.

Lemma conn_ok_counted batchSize c :
  conn_ok batchSize c -> conn_ok batchSize (Pipeline.counted c).
Proof. intros H. exact H. Qed.

Lemma conn_ok_broken batchSize c :
  conn_ok batchSize c -> conn_ok batchSize (Pipeline.broken c).
Proof. intros H. exact H. Qed.

Lemma table_of_set_table d t : table_of (set_table d t) = t.
Proof. destruct t. reflexivity. Qed.

Lemma conn_ok_Commit batchSize c :
  conn_ok batchSize c -> len (pending c) <= batchSize ->
  conn_ok batchSize (conn_of (Commit c))
  /\ forall c', Commit c = Done c' -> pending c' = [].
Proof.
  intros Hok Hp. unfold Pipeline.Commit.
  destruct (tx c) as [t|] eqn:Ht; simpl.
  2: { split; [apply conn_ok_counted; exact Hok|discriminate]. }
  destruct (fault (calls c)); simpl.
  { split; [apply conn_ok_broken; exact Hok|discriminate]. }
  destruct Hok as (Hrep & Htx & Hlen).
  split.
  - split; [|split]; simpl.
    + rewrite table_of_set_table, replay_snoc, <- Hrep. apply Htx. exact Ht.
    + discriminate.
    + apply Forall_app. split; [exact Hlen|]. constructor; [exact Hp|constructor].
  - intros c' [= <-]. reflexivity.
Qed.

Lemma conn_ok_Begin batchSize c :
  conn_ok batchSize c ->
  conn_ok batchSize (conn_of (Begin c))
  /\ forall c', Begin c = Done c' -> pending c' = [].
Proof.
  intros Hok. unfold Pipeline.Begin.
  destruct (fault (calls c)); simpl.
  { split; [apply conn_ok_counted; exact Hok|discriminate]. }
  destruct Hok as (Hrep & Htx & Hlen).
  split.
  - split; [exact Hrep|]. split; [|exact Hlen]. simpl. intros t [= <-]. reflexivity.
  - intros c' [= <-]. reflexivity.
Qed.

Lemma conn_ok_db_Exec batchSize effect c :
  (forall d, table_of (effect d) = table_of d) ->
  conn_ok batchSize c -> conn_ok batchSize (conn_of (db_Exec effect c)).
Proof.
  intros Heff Hok. unfold Pipeline.db_Exec.
  destruct (tx c) as [t|] eqn:Ht; simpl; [exact Hok|].
  destruct (fault (calls c)); simpl; [exact Hok|].
  destruct Hok as (Hrep & Htx & Hlen).
  split; [|split]; simpl; rewrite ?Heff; auto. discriminate.
Qed.

Lemma conn_ok_db_Exec_all batchSize effects : forall c,
  Forall (fun effect => forall d, table_of (effect d) = table_of d) effects ->
  conn_ok batchSize c -> conn_ok batchSize (conn_of (db_Exec_all effects c)).
Proof.
  induction effects as [|e effects IH]; intros c Heff Hok; simpl; [exact Hok|].
  apply Forall_cons in Heff as [He Heff].
  apply and_then_conn.
  - apply conn_ok_db_Exec; assumption.
  - intros c1 Hc1. apply IH; assumption.
Qed.

(** [bulkInsert] followed by [tx.Commit] either commits the whole batch
    as one transaction or leaves the file and the history as they were. *)
Lemma insert_and_commit_result c records :
  match and_then (bulkInsert c records) Commit with
  | Done c' =>
      flushed c' = flushed c ++ [pending c ++ records]
      /\ Some (table_of (committed c')) = (fun t => insert_rows t records) <$> tx c
      /\ pending c' = [] /\ tx c' = None /\ in_flight c' = false
  | Failed c' => flushed c' = flushed c /\ committed c' = committed c
  end.
Proof.
  destruct (bulkInsert_keeps records c) as [Hc Hf].
  destruct (bulkInsert c records) as [c1|c1] eqn:Hbulk; simpl in *; [|auto].
  apply bulkInsert_done in Hbulk as [Hp Ht].
  unfold Pipeline.Commit. rewrite Ht. destruct (tx c) as [t|]; simpl; [|auto].
  destruct (fault (calls c1)); simpl; [auto|].
  rewrite Hf, Hp, table_of_set_table. auto 6.
Qed.

(** *** The loops *)

Variable batchSize : Z.
Hypothesis batchSize_positive : 1 <= batchSize.

Local Abbreviation periodic_commit := (Pipeline.periodic_commit fault).
Local Abbreviation accumulate := (Pipeline.accumulate timeUp fault batchSize).
Local Abbreviation last_commit := (Pipeline.last_commit fault).
Local Abbreviation features_loop :=
  (Pipeline.features_loop formatFloat formatComposite timeUp fault batchSize).
Local Abbreviation tokens_loop :=
  (Pipeline.tokens_loop formatFloat formatComposite timeUp fault batchSize).

(** [bulkInsert] followed by [tx.Commit], on a transaction with nothing
    pending: the batch becomes the newest committed transaction, or the
    file and the history stay as they were. *)
Lemma insert_and_commit c records :
  conn_ok batchSize c -> pending c = [] -> len records <= batchSize ->
  conn_ok batchSize (conn_of (and_then (bulkInsert c records) Commit))
  /\ forall c', and_then (bulkInsert c records) Commit = Done c' -> pending c' = [].
Proof.
  intros Hok Hp Hlen.
  pose proof (conn_ok_bulkInsert batchSize records c Hok) as Hok1.
  destruct (bulkInsert c records) as [c1|c1] eqn:Hbulk; simpl in *.
  - apply bulkInsert_done in Hbulk as [Hbulk _]. rewrite Hp in Hbulk. simpl in Hbulk.
    apply conn_ok_Commit; [exact Hok1|]. rewrite Hbulk. exact Hlen.
  - split; [exact Hok1|discriminate].
Qed.

Lemma periodic_commit_ok st s st' :
  conn_ok batchSize (conn st) -> pending (conn st) = [] ->
  len (batch st) <= batchSize ->
  periodic_commit st = (s, st') ->
  conn_ok batchSize (conn st') /\ (s = Success -> loader_ok batchSize st').
Proof.
  intros Hok Hp Hlen. unfold Pipeline.periodic_commit.
  destruct (insert_and_commit (conn st) (batch st) Hok Hp Hlen) as [Hok2 Hp2].
  destruct (and_then (bulkInsert (conn st) (batch st)) Commit) as [c2|c2]; simpl in *.
  - destruct (conn_ok_Begin batchSize c2 Hok2) as [Hok3 Hp3].
    destruct (Begin c2) as [c3|c3]; simpl in *; intros [= <- <-]; simpl.
    + split; [exact Hok3|]. intros _. split; [exact Hok3|]. simpl.
      split; [apply Hp3; reflexivity|]. rewrite len_nil. lia.
    + split; [exact Hok3|discriminate].
  - intros [= <- <-]. simpl. split; [exact Hok2|discriminate].
Qed.

Lemma accumulate_ok st record s st' :
  loader_ok batchSize st ->
  accumulate st record = (s, st') ->
  conn_ok batchSize (conn st') /\ (s = Success -> loader_ok batchSize st').
Proof.
  intros (Hok & Hp & Hlen). unfold Pipeline.accumulate. simpl.
  assert (Hlen1 : len (batch st ++ [record]) <= batchSize).
  { rewrite len_app, len_cons, len_nil. lia. }
  destruct (Z.leb_spec batchSize (len (batch st ++ [record]))) as [Hfull|Hroom]; simpl.
  - apply periodic_commit_ok; assumption.
  - destruct (timeUp (totalCount st + 1)).
    + apply periodic_commit_ok; assumption.
    + intros [= <- <-]. simpl. split; [exact Hok|]. intros _.
      split; [exact Hok|]. split; [exact Hp|exact Hroom].
Qed.

Lemma loader_ok_with_decoder st d :
  loader_ok batchSize st -> loader_ok batchSize (with_decoder st d).
Proof. intros H. exact H. Qed.

Lemma features_loop_ok fuel : forall st s st',
  loader_ok batchSize st ->
  features_loop fuel st = (s, st') ->
  conn_ok batchSize (conn st')
  /\ (s = Success -> loader_ok batchSize st' /\ More (decoder st') = false).
Proof.
  induction fuel as [|fuel IH]; intros st s st' Hok; simpl.
  - intros [= <- <-]. split; [apply Hok|discriminate].
  - destruct (More (decoder st)) eqn:Hmore.
    + destruct (Decode unmarshal_Feature (decoder st)) as [d feature].
      pose proof (loader_ok_with_decoder st d Hok) as Hok1.
      destruct feature as [feature|]; [|apply IH; exact Hok1].
      destruct (Extractor.extractAddressData _ _ feature) as [[record|]|].
      * destruct (accumulate (with_decoder st d) record) as [s1 st1] eqn:Hacc.
        destruct (accumulate_ok _ _ _ _ Hok1 Hacc) as [Hc1 Hl1].
        destruct s1; try (intros [= <- <-]; split; [exact Hc1|discriminate]).
        apply IH. apply Hl1. reflexivity.
      * apply IH. exact Hok1.
      * intros [= <- <-]. split; [apply Hok1|discriminate].
    + intros [= <- <-]. split; [apply Hok|]. intros _. split; [exact Hok|exact Hmore].
Qed.

Lemma last_commit_ok st s st' :
  loader_ok batchSize st ->
  last_commit st = (s, st') ->
  conn_ok batchSize (conn st')
  /\ decoder st' = decoder st
  /\ (s = Success -> loader_ok batchSize st').
Proof.
  intros (Hok & Hp & Hlen). unfold Pipeline.last_commit.
  destruct (0 <? len (batch st)).
  - destruct (insert_and_commit (conn st) (batch st) Hok Hp ltac:(lia)) as [Hok2 Hp2].
    destruct (and_then (bulkInsert (conn st) (batch st)) Commit) as [c2|c2];
      simpl in *; intros [= <- <-]; simpl.
    + split; [exact Hok2|]. split; [reflexivity|]. intros _.
      split; [exact Hok2|]. split; [apply Hp2; reflexivity|exact Hlen].
    + split; [exact Hok2|]. split; [reflexivity|discriminate].
  - intros [= <- <-]. split; [exact Hok|]. split; [reflexivity|].
    intros _. split; [exact Hok|]. split; assumption.
Qed.

Lemma tokens_loop_ok fuel : forall st s st',
  loader_ok batchSize st ->
  tokens_loop fuel st = (s, st') ->
  conn_ok batchSize (conn st').
Proof.
  induction fuel as [|fuel IH]; intros st s st' Hok; simpl.
  - intros [= <- <-]. apply Hok.
  - destruct (More (decoder st)); [|intros [= <- <-]; apply Hok].
    destruct (Token_ (decoder st)) as [d [token|]];
      [|intros [= <- <-]; apply Hok].
    destruct (Pipeline.is_features token).
    + destruct (Token_ d) as [d1 [open|]]; [|intros [= <- <-]; apply Hok].
      destruct (features_loop fuel (with_decoder st d1)) as [s1 st1] eqn:Hloop.
      destruct (features_loop_ok fuel _ _ _ (loader_ok_with_decoder st d1 Hok) Hloop)
        as [Hc1 Hl1].
      destruct s1; try (intros [= <- <-]; exact Hc1).
      destruct (last_commit st1) as [s2 st2] eqn:Hlast.
      destruct (last_commit_ok _ _ _ (proj1 (Hl1 eq_refl)) Hlast) as (Hc2 & _ & Hl2).
      destruct s2; try (intros [= <- <-]; exact Hc2).
      apply IH. apply Hl2. reflexivity.
    + apply IH. apply loader_ok_with_decoder. exact Hok.
Qed.

End LoaderProperties.

(** ** The pipeline *)
Section PipelineProperties.

Variable formatFloat : float -> string.
Variable formatComposite : json -> string.
Variable timeUp : Z -> bool.
Variable fault : nat -> bool.

Local Abbreviation process_file :=
  (Pipeline.process_file formatFloat formatComposite timeUp fault).
Local Abbreviation processGeoJSON :=
  (Pipeline.processGeoJSON formatFloat formatComposite timeUp fault).

Lemma fresh_conn_ok batchSize c : fresh c -> conn_ok batchSize c.
Proof.
  intros (Ha & Hf & Ht & Hp). unfold conn_ok. rewrite Ha, Hf, Ht.
  split; [reflexivity|]. split; [discriminate|constructor].
Qed.

Lemma fresh_db_Exec_all effects : forall c,
  Forall (fun effect => forall d, table_of d = empty_table ->
                                  table_of (effect d) = empty_table) effects ->
  fresh c -> fresh (conn_of (Pipeline.db_Exec_all fault effects c)).
Proof.
  induction effects as [|e effects IH]; intros c Heff Hc; simpl; [exact Hc|].
  apply Forall_cons in Heff as [He Heff].
  apply and_then_conn.
  - unfold Pipeline.db_Exec. destruct (tx c); simpl; [exact Hc|].
    destruct (fault (calls c)); simpl; [exact Hc|].
    destruct Hc as (Ha & Hf & Ht & Hp). repeat split; simpl; auto.
  - intros c1 Hc1. apply IH; assumption.
Qed.

Lemma open_store_fresh : fresh (conn_of (Pipeline.open_store fault)).
Proof.
  apply fresh_db_Exec_all.
  - repeat constructor; intros d Hd; exact Hd.
  - repeat split.
Qed.

Lemma build_indices_ok batchSize c :
  conn_ok batchSize c -> conn_ok batchSize (conn_of (Pipeline.build_indices fault c)).
Proof.
  apply conn_ok_db_Exec_all.
  repeat constructor; intros d; reflexivity.
Qed.

(** Wherever [processGeoJSON] stops, the connection is consistent with
    its history, for the batch size of the source. *)
Lemma process_file_ok fuel file :
  conn_ok 500000 (conn (snd (process_file fuel file))).
Proof.
  unfold Pipeline.process_file.
  pose proof (fresh_conn_ok 500000 _ open_store_fresh) as Hopen.
  destruct (Pipeline.open_store fault) as [c|c]; simpl in Hopen; [|exact Hopen].
  destruct (Token_ (NewDecoder file)) as [d [brace|]]; [|exact Hopen].
  destruct (conn_ok_Begin fault 500000 c Hopen) as [Hbegin Hpending].
  destruct (Pipeline.Begin fault c) as [c1|c1]; simpl in Hbegin; [|exact Hbegin].
  set (st0 := {| decoder := d; conn := c1; batch := []; totalCount := 0 |}).
  assert (Hst0 : loader_ok 500000 st0).
  { split; [exact Hbegin|]. split; [apply Hpending; reflexivity|]. reflexivity. }
  destruct (Pipeline.tokens_loop _ _ _ _ _ fuel st0) as [s st] eqn:Hloop.
  pose proof (tokens_loop_ok formatFloat formatComposite timeUp fault 500000
                ltac:(lia) fuel st0 s st Hst0 Hloop) as Hst.
  destruct s; try exact Hst.
  pose proof (build_indices_ok 500000 _ Hst) as Hidx.
  destruct (Pipeline.build_indices fault (conn st)); exact Hidx.
Qed.

Lemma processGeoJSON_ok fuel file dbFile s db log :
  processGeoJSON fuel (Some file) dbFile = (s, db, log) ->
  exists d, db = Some d /\ table_of d = replay log
            /\ Forall (fun b => len b <= 500000) log.
Proof.
  unfold Pipeline.processGeoJSON.
  pose proof (process_file_ok fuel file) as (Hrep & _ & Hlen).
  destruct (process_file fuel file) as [s0 st]. simpl in *.
  intros [= <- <- <-]. eauto.
Qed.

End PipelineProperties.

(** ** A store without faults returns no error *)
Section FaultFree.

Variable formatFloat : float -> string.
Variable formatComposite : json -> string.
Variable timeUp : Z -> bool.
Variable fault : nat -> bool.
Hypothesis fault_free : forall n, fault n = false.
Variable batchSize : Z.

Lemma tx_Exec_runs rows c :
  is_Some (tx c) ->
  exists c', Pipeline.tx_Exec fault rows c = Done c' /\ is_Some (tx c').
Proof.
  intros [t Ht]. unfold Pipeline.tx_Exec. rewrite fault_free, Ht.
  eexists. split; [reflexivity|]. simpl. eauto.
Qed.

Lemma bulkInsert_from_runs records fuel : forall i c,
  is_Some (tx c) ->
  exists c', Pipeline.bulkInsert_from fault fuel i records c = Done c' /\ is_Some (tx c').
Proof.
  induction fuel as [|fuel IH]; intros i c Ht; simpl; [eauto|].
  destruct (i <? len records); [|eauto].
  destruct (tx_Exec_runs
              (take (Z.to_nat ((if len records <? i + maxRecordsPerBatch
                                then len records else i + maxRecordsPerBatch) - i))
                    (drop (Z.to_nat i) records)) c Ht) as (c1 & -> & Ht1).
  simpl. apply IH. exact Ht1.
Qed.

Lemma insert_and_commit_runs records c :
  is_Some (tx c) ->
  exists c', and_then (Pipeline.bulkInsert fault c records) (Pipeline.Commit fault) = Done c'.
Proof.
  intros Ht.
  assert (exists c1, Pipeline.bulkInsert fault c records = Done c1 /\ is_Some (tx c1))
    as (c1 & -> & [t1 Ht1]).
  { unfold Pipeline.bulkInsert. destruct (len records =? 0); [eauto|].
    apply bulkInsert_from_runs. exact Ht. }
  simpl. unfold Pipeline.Commit. rewrite fault_free, Ht1. eauto.
Qed.

Lemma periodic_commit_runs st :
  is_Some (tx (conn st)) ->
  exists st', Pipeline.periodic_commit fault st = (Success, st')
              /\ is_Some (tx (conn st')) /\ decoder st' = decoder st.
Proof.
  intros Ht. unfold Pipeline.periodic_commit.
  destruct (insert_and_commit_runs (batch st) (conn st) Ht) as [c2 ->].
  simpl. unfold Pipeline.Begin. rewrite fault_free.
  eexists. split; [reflexivity|]. simpl. eauto.
Qed.

Lemma accumulate_runs st record :
  is_Some (tx (conn st)) ->
  exists st', Pipeline.accumulate timeUp fault batchSize st record = (Success, st')
              /\ is_Some (tx (conn st')) /\ decoder st' = decoder st.
Proof.
  intros Ht. unfold Pipeline.accumulate.
  destruct (_ || _).
  - apply (periodic_commit_runs
             {| decoder := decoder st; conn := conn st;
                batch := batch st ++ [record]; totalCount := totalCount st + 1 |}).
    exact Ht.
  - eexists. split; [reflexivity|]. simpl. auto.
Qed.

Lemma features_loop_runs fuel : forall st s st',
  is_Some (tx (conn st)) ->
  Pipeline.features_loop formatFloat formatComposite timeUp fault batchSize fuel st
  = (s, st') ->
  s <> StoreError
  /\ (s = Success -> is_Some (tx (conn st')) /\ More (decoder st') = false).
Proof.
  induction fuel as [|fuel IH]; intros st s st' Ht; simpl.
  - intros [= <- <-]. split; discriminate.
  - destruct (More (decoder st)) eqn:Hmore.
    + destruct (Decode unmarshal_Feature (decoder st)) as [d feature].
      destruct feature as [feature|]; [|apply IH; exact Ht].
      destruct (Extractor.extractAddressData _ _ feature) as [[record|]|].
      * destruct (accumulate_runs (with_decoder st d) record Ht) as (st1 & -> & Ht1 & _).
        apply IH. exact Ht1.
      * apply IH. exact Ht.
      * intros [= <- <-]. split; discriminate.
    + intros [= <- <-]. split; [discriminate|]. auto.
Qed.

Lemma last_commit_runs st :
  is_Some (tx (conn st)) ->
  exists st', Pipeline.last_commit fault st = (Success, st')
              /\ decoder st' = decoder st.
Proof.
  intros Ht. unfold Pipeline.last_commit.
  destruct (0 <? len (batch st)); [|eauto].
  destruct (insert_and_commit_runs (batch st) (conn st) Ht) as [c2 ->].
  eexists. split; reflexivity.
Qed.

Lemma tokens_loop_stops fuel st :
  More (decoder st) = false ->
  fst (Pipeline.tokens_loop formatFloat formatComposite timeUp fault batchSize fuel st)
  <> StoreError.
Proof.
  intros Hmore. destruct fuel; simpl; [discriminate|].
  rewrite Hmore. discriminate.
Qed.

Lemma tokens_loop_runs fuel : forall st,
  is_Some (tx (conn st)) ->
  fst (Pipeline.tokens_loop formatFloat formatComposite timeUp fault batchSize fuel st)
  <> StoreError.
Proof.
  induction fuel as [|fuel IH]; intros st Ht; simpl; [discriminate|].
  destruct (More (decoder st)); [|discriminate].
  destruct (Token_ (decoder st)) as [d [token|]]; [|discriminate].
  destruct (Pipeline.is_features token); [|apply IH; exact Ht].
  destruct (Token_ d) as [d1 [open|]]; [|discriminate].
  destruct (Pipeline.features_loop _ _ _ _ _ fuel (with_decoder st d1))
    as [s1 st1] eqn:Hloop.
  destruct (features_loop_runs fuel (with_decoder st d1) _ _ Ht Hloop) as [Hs1 Hst1].
  destruct s1; simpl; try discriminate; [|contradiction].
  destruct (Hst1 eq_refl) as [Ht1 Hmore].
  destruct (last_commit_runs st1 Ht1) as (st2 & -> & Hdec).
  apply tokens_loop_stops. rewrite Hdec. exact Hmore.
Qed.

End FaultFree.

Section FaultFreeRun.

Variable formatFloat : float -> string.
Variable formatComposite : json -> string.
Variable timeUp : Z -> bool.
Variable fault : nat -> bool.
Hypothesis fault_free : forall n, fault n = false.

Lemma db_Exec_all_runs effects : forall c,
  tx c = None ->
  exists c', Pipeline.db_Exec_all fault effects c = Done c'
             /\ tx c' = None /\ flushed c' = flushed c
             /\ in_flight c' = in_flight c.
Proof.
  induction effects as [|e effects IH]; intros c Ht; simpl; [eauto|].
  unfold Pipeline.db_Exec at 1. rewrite Ht, fault_free. simpl.
  destruct (IH {| committed := e (committed c); tx := None; in_flight := in_flight c;
                  calls := S (calls c); pending := pending c; flushed := flushed c |}
              eq_refl) as (c' & -> & Ht' & Hf & Hw).
  eauto.
Qed.

End FaultFreeRun.


(** ** The decoder on a document *)

Lemma lex_JArr l : lex (JArr l) = LBracket :: lex_elements l.
Proof. reflexivity. Qed.
Lemma lex_JObj l : lex (JObj l) = LBrace :: lex_members l.
Proof. reflexivity. Qed.

(** Induction on a JSON value, with the property available for every
    element of an array and every value of an object. *)
Lemma json_induction (P : json -> Prop) :
  P JNull ->
  (forall b, P (JBool b)) ->
  (forall f, P (JNum f)) ->
  P JHuge ->
  (forall s, P (JStr s)) ->
  (forall l, Forall P l -> P (JArr l)) ->
  (forall l, Forall (fun m => P m.2) l -> P (JObj l)) ->
  forall j, P j.
Proof.
  intros HNull HBool HNum HHuge HStr HArr HObj.
  fix IH 1. intros [| b | f | | s | elems | members].
  - exact HNull.
  - apply HBool.
  - apply HNum.
  - exact HHuge.
  - apply HStr.
  - apply HArr. induction elems as [|x l IHl]; constructor; [apply IH|exact IHl].
  - apply HObj. induction members as [|[k x] l IHl]; constructor; [apply IH|exact IHl].
Qed.


Lemma lex_opens j : exists h t, lex j = h :: t /\ opens h = true.
Proof. destruct j; simpl; eauto. Qed.

Lemma lex_length j : (1 <= length (lex j))%nat.
Proof. destruct (lex_opens j) as (h & t & -> & _). simpl. lia. Qed.

Lemma scan_value_lex j : forall n rest,
  (length (lex j) <= n)%nat -> scan_value n (lex j ++ rest) = Some (j, rest).
Proof.
  induction j as [| | | | |l IH|l IH] using json_induction; intros n rest Hn;
    try (destruct n; [simpl in Hn; lia|reflexivity]).
  - rewrite lex_JArr in *. destruct n as [|n]; [simpl in Hn; lia|].
    assert (Helems : forall m rest, l <> [] -> (length (lex_elements l) <= m)%nat ->
               scan_elements m (lex_elements l ++ rest) = Some (l, rest)).
    { clear n Hn rest. induction l as [|x l IHl]; intros m rest Hne Hm; [congruence|].
      apply Forall_cons in IH as [Hx IH].
      destruct l as [|y l].
      - simpl in *. rewrite length_app in Hm. simpl in Hm.
        destruct m as [|m]; [lia|]. simpl.
        rewrite <- app_assoc. simpl.
        assert (Hq : (length (lex x) <= m)%nat) by (clear -Hm; lia).
        rewrite (Hx m _ Hq). simpl. reflexivity.
      - change (lex_elements (x :: y :: l)) with (lex x ++ Comma :: lex_elements (y :: l)) in *.
        specialize (IHl IH).
        remember (lex_elements (y :: l)) as tail eqn:Htail.
        rewrite length_app in Hm. cbn [length] in Hm.
        destruct m as [|m]; [lia|]. cbn [scan_elements].
        rewrite <- app_assoc. cbn [app]. rewrite Hx by lia. cbn.
        rewrite IHl by (congruence || lia). reflexivity. }
    destruct l as [|x l]; [reflexivity|].
    cbn [length] in Hn.
    specialize (Helems n rest ltac:(congruence) ltac:(lia)).
    assert (exists h t, lex_elements (x :: l) = h :: t /\ opens h = true)
      as (h & t & Hl & Ho).
    { destruct (lex_opens x) as (h & t & Hh & Hopen).
      destruct l; simpl; rewrite Hh; simpl; eauto. }
    rewrite Hl in *. cbn [app scan_value] in *.
    destruct h; try discriminate; rewrite Helems; reflexivity.
  - rewrite lex_JObj in *. destruct n as [|n]; [simpl in Hn; lia|].
    assert (Hmembers : forall m rest, l <> [] -> (length (lex_members l) <= m)%nat ->
               scan_members m (lex_members l ++ rest) = Some (l, rest)).
    { clear n Hn rest. induction l as [|[k x] l IHl]; intros m rest Hne Hm; [congruence|].
      apply Forall_cons in IH as [Hx IH]. cbn [snd] in Hx.
      destruct l as [|y l].
      - cbn [lex_members] in *. cbn [length] in Hm. rewrite length_app in Hm.
        destruct m as [|m]; [lia|]. cbn [scan_members app].
        rewrite <- app_assoc. cbn [app]. rewrite Hx by lia. reflexivity.
      - change (lex_members ((k, x) :: y :: l))
          with (Lit (SStr k) :: Colon :: lex x ++ Comma :: lex_members (y :: l)) in *.
        specialize (IHl IH).
        remember (lex_members (y :: l)) as tail eqn:Htail.
        cbn [length] in Hm. rewrite length_app in Hm. cbn [length] in Hm.
        destruct m as [|m]; [lia|]. cbn [scan_members app].
        rewrite <- app_assoc. cbn [app]. rewrite Hx by lia. cbn.
        rewrite IHl by (congruence || lia). reflexivity. }
    destruct l as [|[k x] l]; [reflexivity|].
    cbn [length] in Hn.
    specialize (Hmembers n rest ltac:(congruence) ltac:(lia)).
    assert (exists t, lex_members ((k, x) :: l) = Lit (SStr k) :: t) as (t & Hl).
    { destruct l; simpl; eauto. }
    rewrite Hl in *. cbn [app scan_value] in *.
    rewrite Hmembers. reflexivity.
Qed.

Lemma lex_elements_cons x l :
  lex_elements (x :: l)
  = lex x ++ match l with [] => [RBracket] | _ => Comma :: lex_elements l end.
Proof. destruct l; reflexivity. Qed.

Lemma More_opens h t s k e :
  opens h = true -> More {| input := h :: t; state := s; tokenStack := k; err := e |} = true.
Proof. destruct h; simpl; intros H; first [reflexivity|discriminate]. Qed.

Lemma More_at_elements first l rest stack :
  More (at_elements first l rest stack) = match l with [] => false | _ => true end.
Proof.
  destruct l as [|x l]; [destruct first; reflexivity|].
  destruct first; [|reflexivity].
  unfold More, at_elements. cbn [input]. rewrite lex_elements_cons.
  destruct (lex_opens x) as (h & t & -> & Ho).
  destruct h; simpl in *; first [reflexivity|discriminate].
Qed.

Lemma Decode_element {A} (target : json -> option A) first x l rest stack :
  Decode target (at_elements first (x :: l) rest stack)
  = (at_elements false l rest stack, target x).
Proof.
  unfold Decode, at_elements. cbn [err].
  assert (Hscan : forall tail,
             scan_value (scan_fuel (lex_elements (x :: l) ++ tail))
               (lex_elements (x :: l) ++ tail)
             = Some (x, match l with
                        | [] => RBracket :: tail
                        | _ => Comma :: lex_elements l ++ tail
                        end)).
  { intros tail. rewrite lex_elements_cons, <- app_assoc.
    rewrite scan_value_lex.
    - destruct l; reflexivity.
    - unfold scan_fuel. rewrite length_app. lia. }
  destruct first; unfold tokenPrepareForDecode; cbn [state input tokenStack err];
    cbn [tokenValueAllowed negb]; rewrite Hscan; reflexivity.
Qed.

Lemma scan_value_Lit v rest :
  scan_value (scan_fuel (Lit v :: rest)) (Lit v :: rest) = Some (json_of_scalar v, rest).
Proof.
  unfold scan_fuel. replace (2 * length (Lit v :: rest) + 2)%nat
    with (S (2 * length (Lit v :: rest) + 1)) by lia.
  reflexivity.
Qed.

Lemma lex_members_cons k v l :
  lex_members ((k, v) :: l) = Lit (SStr k) :: Colon :: lex v ++ member_tail l.
Proof. destruct l; reflexivity. Qed.

Lemma Decode_Lit {A} (target : json -> option A) v rest s stack :
  tokenValueAllowed s = true ->
  Decode target {| input := Lit v :: rest; state := s; tokenStack := stack; err := false |}
  = ({| input := rest; state := tokenValueEnd s; tokenStack := stack; err := false |},
     target (json_of_scalar v)).
Proof.
  intros Hs. unfold Decode. cbn [err].
  assert (Hprep : tokenPrepareForDecode
                    {| input := Lit v :: rest; state := s; tokenStack := stack; err := false |}
                  = Some {| input := Lit v :: rest; state := s; tokenStack := stack;
                            err := false |}).
  { destruct s; try discriminate; reflexivity. }
  rewrite Hprep. cbn [state input tokenStack]. rewrite Hs. cbn [negb].
  rewrite scan_value_Lit. reflexivity.
Qed.

Lemma More_at_members first k v l : More (at_members first ((k, v) :: l)) = true.
Proof.
  unfold More, at_members. cbn [input].
  destruct first; [rewrite lex_members_cons|]; reflexivity.
Qed.

(** The key of the next member, as a token. *)
Lemma Token_key first k v l :
  Token_ (at_members first ((k, v) :: l))
  = ({| input := Colon :: lex v ++ member_tail l; state := tokenObjectColon;
        tokenStack := [tokenTopValue]; err := false |},
     Some (Value (JStr k))).
Proof.
  unfold Token_, at_members. cbn [input].
  destruct first; rewrite lex_members_cons; cbn [Token_from state];
    cbn [decide bool_decide orb]; unfold set_input; cbn [state tokenStack err input];
    rewrite Decode_Lit by reflexivity; reflexivity.
Qed.

(** The scalar value of a member, as a token. *)
Lemma Token_scalar v tail :
  unmarshal_any (json_of_scalar v) = Some (json_of_scalar v) ->
  Token_ {| input := Colon :: Lit v :: tail; state := tokenObjectColon;
            tokenStack := [tokenTopValue]; err := false |}
  = ({| input := tail; state := tokenObjectComma;
        tokenStack := [tokenTopValue]; err := false |},
     Some (Value (json_of_scalar v))).
Proof.
  intros Hany. unfold Token_. cbn [input Token_from state].
  unfold set_input. cbn [state tokenStack err input tokenValueAllowed].
  assert (Hkey : match v with
                 | SStr _ => bool_decide (tokenObjectValue = tokenObjectStart)
                             || bool_decide (tokenObjectValue = tokenObjectKey)
                 | _ => false
                 end = false) by (destruct v; reflexivity).
  rewrite Hkey, Decode_Lit by reflexivity. rewrite Hany. reflexivity.
Qed.

(** The bracket that opens the array of a member, as a token. *)
Lemma Token_open tail :
  Token_ {| input := Colon :: LBracket :: tail; state := tokenObjectColon;
            tokenStack := [tokenTopValue]; err := false |}
  = ({| input := tail; state := tokenArrayStart;
        tokenStack := [tokenObjectValue; tokenTopValue]; err := false |},
     Some (Delim LBracket)).
Proof. reflexivity. Qed.

Lemma plain_member_scalar k j :
  plain_member (k, j) = true ->
  String.eqb k "features" = false
  /\ exists v, lex j = [Lit v] /\ json_of_scalar v = j
               /\ unmarshal_any j = Some j
               /\ Pipeline.is_features (Value j) = false.
Proof.
  unfold plain_member. cbn [fst snd]. intros H. apply andb_prop in H as [Hk Hv].
  apply negb_true_iff in Hk. split; [exact Hk|].
  destruct j as [|b|f| |s|l|l]; try discriminate.
  - exists SNull. auto.
  - exists (SBool b). auto.
  - exists (SNum f). auto.
  - exists (SStr s). apply negb_true_iff in Hv. simpl. rewrite Hv. auto.
Qed.


(** ** The pipeline on a feature collection *)

Lemma replay_concat log : replay log = insert_rows empty_table (concat log).
Proof.
  induction log as [|b log IH] using rev_ind; [reflexivity|].
  rewrite replay_snoc, IH, concat_app, insert_rows_app. simpl.
  rewrite app_nil_r. reflexivity.
Qed.

Lemma batch_after_app timeUp batchSize l1 : forall count batch l2,
  batch_after timeUp batchSize count batch (l1 ++ l2)
  = batch_after timeUp batchSize (count + len l1)
      (batch_after timeUp batchSize count batch l1) l2.
Proof.
  induction l1 as [|r l1 IH]; intros count batch l2; simpl.
  - rewrite len_nil, Z.add_0_r. reflexivity.
  - rewrite len_cons. destruct (_ || _); rewrite IH; f_equal; lia.
Qed.

Section Complete.

Variable formatFloat : float -> string.
Variable formatComposite : json -> string.
Variable timeUp : Z -> bool.
Variable fault : nat -> bool.
Hypothesis fault_free : forall n, fault n = false.
Variable batchSize : Z.

Lemma periodic_commit_held st :
  is_Some (tx (conn st)) -> pending (conn st) = [] ->
  exists st', Pipeline.periodic_commit fault st = (Success, st')
              /\ is_Some (tx (conn st')) /\ decoder st' = decoder st
              /\ pending (conn st') = [] /\ held st' = held st
              /\ batch st' = [] /\ totalCount st' = totalCount st
              /\ in_flight (conn st') = false.
Proof.
  intros Ht Hp. unfold Pipeline.periodic_commit.
  pose proof (insert_and_commit_result fault (conn st) (batch st)) as Hres.
  destruct (insert_and_commit_runs fault fault_free (batch st) (conn st) Ht) as [c2 Hc2].
  rewrite Hc2 in *. destruct Hres as (Hf & _ & _ & _ & Hw).
  simpl. unfold Pipeline.Begin. rewrite fault_free.
  eexists. split; [reflexivity|]. simpl.
  split; [eauto|]. split; [reflexivity|]. split; [reflexivity|].
  split; [|auto].
  unfold held. simpl. rewrite Hf, Hp, concat_app. simpl.
  rewrite !app_nil_r. reflexivity.
Qed.

Lemma accumulate_held st record :
  is_Some (tx (conn st)) -> pending (conn st) = [] ->
  exists st', Pipeline.accumulate timeUp fault batchSize st record = (Success, st')
              /\ is_Some (tx (conn st')) /\ decoder st' = decoder st
              /\ pending (conn st') = [] /\ held st' = held st ++ [record]
              /\ batch st'
                 = batch_after timeUp batchSize (totalCount st) (batch st) [record]
              /\ totalCount st' = totalCount st + 1
              /\ (in_flight (conn st) = false -> in_flight (conn st') = false).
Proof.
  intros Ht Hp. unfold Pipeline.accumulate.
  set (st1 := {| decoder := decoder st; conn := conn st;
                 batch := batch st ++ [record]; totalCount := totalCount st + 1 |}).
  assert (Hheld : held st1 = held st ++ [record]).
  { unfold held. simpl. apply app_assoc. }
  cbn [batch_after]. change (batch st1) with (batch st ++ [record]).
  change (totalCount st1) with (totalCount st + 1).
  destruct (_ || _).
  - destruct (periodic_commit_held st1 Ht Hp)
      as (st' & Hrun & Ht' & Hd & Hp' & Hh & Hb & Hn & Hw).
    exists st'. rewrite Hh, Hheld. auto 10.
  - exists st1. auto 10.
Qed.

Lemma extractAddressData_returns feature :
  exists r, Extractor.extractAddressData formatFloat formatComposite feature = Ret r.
Proof.
  destruct (coordinates_switch_returns (Feature_Geometry feature)) as [c Hc].
  eexists. apply (extractAddressData_unfold _ _ feature c Hc).
Qed.

Lemma records_of_cons x l :
  records_of formatFloat formatComposite (x :: l)
  = match extract_json formatFloat formatComposite x with
    | Some r => r :: records_of formatFloat formatComposite l
    | None => records_of formatFloat formatComposite l
    end.
Proof. reflexivity. Qed.

Lemma features_loop_collection l : forall first st rest stack n,
  decoder st = at_elements first l rest stack ->
  is_Some (tx (conn st)) -> pending (conn st) = [] ->
  exists st',
    Pipeline.features_loop formatFloat formatComposite timeUp fault batchSize
      (length l + 1 + n) st = (Success, st')
    /\ More (decoder st') = false
    /\ is_Some (tx (conn st')) /\ pending (conn st') = []
    /\ held st' = held st ++ records_of formatFloat formatComposite l
    /\ batch st'
       = batch_after timeUp batchSize (totalCount st) (batch st)
           (records_of formatFloat formatComposite l)
    /\ totalCount st'
       = totalCount st + len (records_of formatFloat formatComposite l)
    /\ (in_flight (conn st) = false -> in_flight (conn st') = false).
Proof.
  induction l as [|x l IH]; intros first st rest stack n Hdec Ht Hp.
  - exists st. cbn [length Nat.add Pipeline.features_loop].
    rewrite Hdec, More_at_elements.
    split; [reflexivity|]. split; [reflexivity|].
    unfold records_of. simpl. rewrite app_nil_r, Z.add_0_r. auto 10.
  - cbn [length Nat.add Pipeline.features_loop].
    rewrite Hdec, More_at_elements, Decode_element.
    rewrite records_of_cons. unfold extract_json.
    destruct (unmarshal_Feature x) as [feature|].
    + destruct (extractAddressData_returns feature) as [[record|] ->].
      * destruct (accumulate_held (with_decoder st (at_elements false l rest stack))
                    record Ht Hp)
          as (st1 & -> & Ht1 & Hd1 & Hp1 & Hh1 & Hb1 & Hn1 & Hw1).
        destruct (IH false st1 rest stack n Hd1 Ht1 Hp1)
          as (st' & Hrun & Hmore & Ht' & Hp' & Hh' & Hb' & Hn' & Hw').
        exists st'. split; [exact Hrun|]. split; [exact Hmore|].
        split; [exact Ht'|]. split; [exact Hp'|].
        cbn [with_decoder held conn batch totalCount] in *.
        split; [rewrite Hh', Hh1, <- app_assoc; reflexivity|].
        split; [rewrite Hb', Hb1, Hn1;
                apply (eq_sym (batch_after_app timeUp batchSize [record] _ _ _))|].
        split; [rewrite Hn', Hn1, len_cons; lia|auto].
      * apply (IH false (with_decoder st (at_elements false l rest stack)) rest stack n);
          auto.
    + apply (IH false (with_decoder st (at_elements false l rest stack)) rest stack n);
        auto.
Qed.

Lemma last_commit_held st :
  is_Some (tx (conn st)) -> pending (conn st) = [] ->
  exists st', Pipeline.last_commit fault st = (Success, st')
              /\ decoder st' = decoder st
              /\ concat (flushed (conn st')) = held st
              /\ totalCount st' = totalCount st
              /\ (in_flight (conn st) = false -> in_flight (conn st') = false)
              /\ match batch st with
                 | [] => is_Some (tx (conn st'))
                 | _ => tx (conn st') = None
                 end.
Proof.
  intros Ht Hp. unfold Pipeline.last_commit.
  destruct (Z.ltb_spec 0 (len (batch st))) as [Hpos|Hzero].
  - pose proof (insert_and_commit_result fault (conn st) (batch st)) as Hres.
    destruct (insert_and_commit_runs fault fault_free (batch st) (conn st) Ht) as [c2 Hc2].
    rewrite Hc2 in *. destruct Hres as (Hf & _ & _ & Htx & Hw).
    eexists. split; [reflexivity|]. split; [reflexivity|]. simpl.
    split; [rewrite Hf, Hp, concat_app; simpl; rewrite app_nil_r; reflexivity|].
    split; [reflexivity|]. split; [auto|].
    destruct (batch st); [discriminate|exact Htx].
  - exists st. split; [reflexivity|]. split; [reflexivity|].
    unfold held. destruct (batch st) as [|r l].
    + rewrite app_nil_r. auto.
    + rewrite len_cons in Hzero. pose proof (len_nonneg l). lia.
Qed.

Lemma tokens_loop_collection before : forall first st features after n,
  forallb plain_member before = true ->
  decoder st = at_members first (before ++ ("features", JArr features) :: after) ->
  is_Some (tx (conn st)) -> pending (conn st) = [] ->
  exists st',
    Pipeline.tokens_loop formatFloat formatComposite timeUp fault batchSize
      (2 * length before + length features + 2 + n) st = (Success, st')
    /\ concat (flushed (conn st'))
       = held st ++ records_of formatFloat formatComposite features
    /\ totalCount st'
       = totalCount st + len (records_of formatFloat formatComposite features)
    /\ (in_flight (conn st) = false -> in_flight (conn st') = false)
    /\ match batch_after timeUp batchSize (totalCount st) (batch st)
               (records_of formatFloat formatComposite features) with
       | [] => is_Some (tx (conn st'))
       | _ => tx (conn st') = None
       end.
Proof.
  induction before as [|[k v] before IH]; intros first st features after n Hplain Hdec Ht Hp.
  - cbn [app length Nat.mul Nat.add] in *.
    replace (length features + 2 + n)%nat with (S (length features + 1 + n)) by lia.
    cbn [Pipeline.tokens_loop].
    assert (Hmore : More (decoder st) = true).
    { rewrite Hdec. apply More_at_members. }
    rewrite Hmore, Hdec, Token_key. cbn [Pipeline.is_features String.eqb].
    replace (String.eqb "features" "features") with true by reflexivity.
    rewrite lex_JArr. cbn [app]. rewrite Token_open.
    destruct (features_loop_collection features true
                (with_decoder st
                   {| input := lex_elements features ++ member_tail after;
                      state := tokenArrayStart;
                      tokenStack := [tokenObjectValue; tokenTopValue];
                      err := false |})
                (member_tail after) [tokenObjectValue; tokenTopValue] n
                eq_refl Ht Hp)
      as (st1 & -> & Hmore1 & Ht1 & Hp1 & Hh1 & Hb1 & Hn1 & Hw1).
    destruct (last_commit_held st1 Ht1 Hp1) as (st2 & -> & Hd2 & Hf2 & Hn2 & Hw2 & Htx2).
    exists st2. split.
    + replace (length features + 1 + n)%nat with (S (length features + n)) by lia.
      cbn [Pipeline.tokens_loop]. rewrite Hd2, Hmore1. reflexivity.
    + cbn [with_decoder held conn batch totalCount] in *.
      split; [rewrite Hf2, Hh1; reflexivity|].
      split; [rewrite Hn2, Hn1; reflexivity|].
      split; [auto|]. rewrite <- Hb1. exact Htx2.
  - cbn [forallb] in Hplain. apply andb_prop in Hplain as [Hkv Hplain].
    apply plain_member_scalar in Hkv as (Hk & s & Hlex & Hs & Hany & Hnot).
    cbn [app length] in *.
    replace (2 * S (length before) + length features + 2 + n)%nat
      with (S (S (2 * length before + length features + 2 + n))) by lia.
    cbn [Pipeline.tokens_loop].
    assert (Hmore : More (decoder st) = true).
    { rewrite Hdec. apply More_at_members. }
    rewrite Hmore, Hdec, Token_key. cbn [Pipeline.is_features]. rewrite Hk.
    cbn [with_decoder decoder More input]. rewrite Hlex. cbn [app].
    rewrite <- Hs in Hany, Hnot. rewrite (Token_scalar s _ Hany), Hnot.
    match goal with
    | |- context [Pipeline.tokens_loop _ _ _ _ _ _ ?s] => set (st1 := s)
    end.
    change (held st) with (held st1). change (totalCount st) with (totalCount st1).
    change (batch st) with (batch st1). change (conn st) with (conn st1).
    apply (IH false st1 features after n); try assumption.
    subst st1. cbn [with_decoder decoder]. unfold at_members, member_tail.
    destruct (before ++ ("features", JArr features) :: after) eqn:E; [|reflexivity].
    destruct before; discriminate.
Qed.

End Complete.

(** A statement outside the transaction fails while the transaction is
    open, whatever the store does, and changes nothing. *)
Lemma db_Exec_all_locked fault e effects c :
  is_Some (tx c) ->
  Pipeline.db_Exec_all fault (e :: effects) c = Failed (Pipeline.counted c).
Proof. intros [t Ht]. simpl. unfold Pipeline.db_Exec. rewrite Ht. reflexivity. Qed.

Section CollectionRun.

Variable formatFloat : float -> string.
Variable formatComposite : json -> string.
Variable timeUp : Z -> bool.
Variable fault : nat -> bool.
Hypothesis fault_free : forall n, fault n = false.

(** On a store that fails no call of its own accord, the import of a
    collection whose members before [features] are plain commits the
    records of the features, all and in order.  It returns without error
    when a batch is left for the last commit, and with the error of the
    locked file when the last transaction stays open. *)
Lemma collection_run before features after n :
  forallb plain_member before = true ->
  exists st,
    Pipeline.process_file formatFloat formatComposite timeUp fault
      (2 * length before + length features + 2 + n)
      (lex (JObj (before ++ ("features", JArr features) :: after)))
    = (import_status timeUp (records_of formatFloat formatComposite features), st)
    /\ concat (flushed (conn st)) = records_of formatFloat formatComposite features
    /\ totalCount st = len (records_of formatFloat formatComposite features)
    /\ in_flight (conn st) = false
    /\ match last_batch timeUp (records_of formatFloat formatComposite features) with
       | [] => is_Some (tx (conn st))
       | _ => tx (conn st) = None
       end.
Proof.
  intros Hplain.
  set (fuel := (2 * length before + length features + 2 + n)%nat).
  unfold Pipeline.process_file.
  pose proof (open_store_fresh fault) as Hfresh.
  unfold Pipeline.open_store in *.
  match type of Hfresh with
  | fresh (conn_of (Pipeline.db_Exec_all fault ?effects ?c0)) =>
      destruct (db_Exec_all_runs fault fault_free effects c0 eq_refl)
        as (c & Hc & _ & _ & Hw)
  end.
  rewrite Hc in *. simpl in Hfresh, Hw. destruct Hfresh as (Ha & Hf & _ & _).
  rewrite lex_JObj.
  change (Token_ (NewDecoder (LBrace :: lex_members
                                (before ++ ("features", JArr features) :: after))))
    with (at_members true (before ++ ("features", JArr features) :: after),
          Some (Delim LBrace)).
  unfold Pipeline.Begin. rewrite fault_free.
  match goal with
  | |- context [Pipeline.tokens_loop _ _ _ _ _ fuel ?st0] =>
      destruct (tokens_loop_collection formatFloat formatComposite timeUp fault
                  fault_free 500000 before true st0 features after n Hplain eq_refl
                  ltac:(simpl; eauto) eq_refl)
        as (st & Hloop & Hheld & Hcount & Hflight & Htx)
  end.
  fold fuel in Hloop. rewrite Hloop.
  unfold held in Hheld. cbn [conn batch totalCount flushed in_flight] in *.
  rewrite Hf in Hheld. simpl in Hheld, Hcount.
  unfold import_status, last_batch.
  destruct (batch_after timeUp 500000 0 [] (records_of formatFloat formatComposite features))
    as [|r l].
  - unfold Pipeline.build_indices. rewrite db_Exec_all_locked by exact Htx.
    eexists. split; [reflexivity|]. simpl. auto.
  - unfold Pipeline.build_indices.
    match goal with
    | |- context [Pipeline.db_Exec_all fault ?effects ?c0] =>
        destruct (db_Exec_all_runs fault fault_free effects c0 Htx)
          as (c2 & -> & Ht2 & Hf2 & Hw2)
    end.
    eexists. split; [reflexivity|]. simpl. rewrite Hf2, Hw2. auto.
Qed.

Lemma collection_loaded before features after n dbFile :
  forallb plain_member before = true ->
  exists db log,
    Pipeline.processGeoJSON formatFloat formatComposite timeUp fault
      (2 * length before + length features + 2 + n)
      (Some (lex (JObj (before ++ ("features", JArr features) :: after)))) dbFile
    = (import_status timeUp (records_of formatFloat formatComposite features),
       Some db, log)
    /\ concat log = records_of formatFloat formatComposite features
    /\ table_of db
       = insert_rows empty_table (records_of formatFloat formatComposite features).
Proof.
  intros Hplain.
  destruct (collection_run before features after n Hplain) as (st & Hrun & Hlog & _).
  pose proof (process_file_ok formatFloat formatComposite timeUp fault
                (2 * length before + length features + 2 + n)
                (lex (JObj (before ++ ("features", JArr features) :: after))))
    as (Hrep & _ & _).
  unfold Pipeline.processGeoJSON. rewrite Hrun in *. simpl in Hrep.
  exists (committed (conn st)), (flushed (conn st)).
  split; [reflexivity|]. split; [exact Hlog|].
  rewrite Hrep, replay_concat, Hlog. reflexivity.
Qed.

End CollectionRun.

(** ** How an import ends *)

Lemma batch_after_length timeUp batchSize rs : forall count batch,
  len (batch_after timeUp batchSize count batch rs) <= len batch + len rs.
Proof.
  induction rs as [|r rs IH]; intros count batch; simpl.
  - rewrite len_nil. lia.
  - rewrite len_cons. destruct (_ || _).
    + specialize (IH (count + 1) []). rewrite len_nil in IH.
      pose proof (len_nonneg batch). lia.
    + specialize (IH (count + 1) (batch ++ [r])).
      rewrite len_app, len_cons, len_nil in IH. lia.
Qed.

Lemma last_batch_snoc timeUp rs r :
  last_batch timeUp (rs ++ [r])
  = if (500000 <=? len (batch_after timeUp 500000 0 [] rs ++ [r]))
       || timeUp (len rs + 1)
    then [] else batch_after timeUp 500000 0 [] rs ++ [r].
Proof. unfold last_batch. rewrite batch_after_app. simpl. reflexivity. Qed.

(** No record, or a periodic commit at the last one: the import ends on
    the locked file. *)
Lemma import_status_failure timeUp records :
  records = [] \/ timeUp (len records) = true ->
  import_status timeUp records = StoreError.
Proof.
  intros [->|Hup]; [reflexivity|].
  induction records as [|r rs _] using rev_ind; [reflexivity|].
  unfold import_status. rewrite last_batch_snoc.
  rewrite len_app, len_cons, len_nil, Z.add_0_r in Hup.
  rewrite Hup, orb_true_r. reflexivity.
Qed.

(** Fewer records than a batch and no periodic commit at the last one:
    the import ends without error. *)
Lemma import_status_success timeUp records :
  records <> [] -> len records < 500000 -> timeUp (len records) = false ->
  import_status timeUp records = Success.
Proof.
  intros Hne Hsmall Hup.
  induction records as [|r rs _] using rev_ind; [contradiction|].
  unfold import_status. rewrite last_batch_snoc.
  rewrite len_app, len_cons, len_nil, Z.add_0_r in Hup, Hsmall.
  rewrite Hup, orb_false_r.
  pose proof (batch_after_length timeUp 500000 rs 0 []) as Hlen.
  change (len (@nil AddressRecord)) with 0 in Hlen.
  destruct (Z.leb_spec 500000 (len (batch_after timeUp 500000 0 [] rs ++ [r])))
    as [Hfull|_].
  - rewrite len_app in Hfull. change (len [r]) with 1 in Hfull. lia.
  - destruct (batch_after timeUp 500000 0 [] rs); reflexivity.
Qed.

(** ** Member names and ids, on examples *)

(** A member name matches a field in any case of its letters, and with
    the long s (U+017F) for an [s]; no other character above ASCII
    matches a letter of the four tags. *)
Example member_names_fold :
  field_is "properties" "Propertieſ" = true
  /\ field_is "type" "TYPE" = true
  /\ field_is "coordinates" "coordinateſ" = true
  /\ field_is "geometry" "géometry" = false.
Proof. repeat split; vm_compute; reflexivity. Qed.

(** A feature whose properties stand under such a name is decoded with
    them. *)
Example long_s_properties :
  extract_json Fixtures.no_format_float Fixtures.no_format_composite
    (JObj [("type", JStr "Feature");
           ("propertieſ", JObj [("addr:street", JStr "Hauptstraße");
                                ("addr:housenumber", JStr "1");
                                ("addr:city", JStr "Berlin")]);
           ("geometry", JObj [("type", JStr "Point");
                              ("coordinates", Fixtures.numbers 13 52)])])
  = Some Fixtures.record_A.
Proof. vm_compute. reflexivity. Qed.

(** The tuple that the insert ignores uses up the id 2: the row that
    follows has the id 3. *)
Example ignored_tuple_uses_id :
  insert_rows empty_table
    [Fixtures.record_A; Fixtures.record_A_again; Fixtures.record_B]
  = {| rows := [Fixtures.row_A;
                {| row_id := 3; street := "Hauptstraße"; house_number := "2";
                   city := "Berlin"; longitude := 13.5; latitude := 52.5 |}];
       sequence := 3 |}.
Proof. vm_compute. reflexivity. Qed.

(** ** The claims on the pipeline *)

(** C8.  No committed transaction of [processGeoJSON] holds more than
    500000 records, whatever the input, the clock and the faults of the
    store, and wherever the run stops. *)
Theorem committed_transactions_bounded formatFloat formatComposite timeUp fault
  fuel geojson dbFile :
  Forall (fun b => len b <= 500000)
    (Pipeline.processGeoJSON formatFloat formatComposite timeUp fault fuel geojson dbFile).2.
Proof.
  destruct geojson as [file|]; [|constructor].
  destruct (Pipeline.processGeoJSON _ _ _ _ fuel (Some file) dbFile) as [[s db] log] eqn:Hrun.
  apply processGeoJSON_ok in Hrun as (d & _ & _ & Hlen). exact Hlen.
Qed.

(** In every run, stopped anywhere and with whatever faults: a record of
    a committed transaction has exactly one row with its (street, house
    number, city), however many records share the triple. *)
Lemma committed_keys_unique formatFloat formatComposite timeUp fault
  fuel file dbFile s db log r :
  Pipeline.processGeoJSON formatFloat formatComposite timeUp fault fuel (Some file) dbFile
  = (s, Some db, log) ->
  r ∈ concat log ->
  rows_with_key (key_of_record r) (addresses db) = 1%nat.
Proof.
  intros Hrun Hr.
  apply processGeoJSON_ok in Hrun as (d & [= <-] & Hrep & _).
  destruct (replay_keys log) as [Hnd Hin].
  change (addresses db) with (rows (table_of db)).
  rewrite Hrep. apply rows_with_key_one; auto.
Qed.



(** C4.  The scan for the [features] key takes every token of the
    document, at any depth and keys and values alike, and ends at the
    first closing bracket or brace.  A collection with a [bbox] array
    before [features] is read to the end of that array; in a collection
    with a member whose value is the string ["features"], that value is
    taken for the key, the real key for the opening bracket and the
    whole array of features for one feature.  In both, on a store that
    fails no call of its own accord, nothing is imported: no transaction
    is committed, the relation stays empty, and the run ends with the
    error of the index build, which finds the transaction still open. *)
Theorem features_key_scan formatFloat formatComposite timeUp n dbFile :
  Pipeline.processGeoJSON formatFloat formatComposite timeUp Fixtures.no_fault
    (9 + n) (Some Fixtures.collection_with_bbox) dbFile
  = (StoreError, Some empty_database, [])
  /\ Pipeline.processGeoJSON formatFloat formatComposite timeUp Fixtures.no_fault
       (5 + n) (Some Fixtures.collection_named_features) dbFile
     = (StoreError, Some empty_database, []).
Proof. split; vm_compute; reflexivity. Qed.

(** The same two features in a collection without such members are
    imported. *)
Example plain_collection_imported formatFloat formatComposite n dbFile :
  Pipeline.processGeoJSON formatFloat formatComposite Fixtures.never Fixtures.no_fault
    (6 + n) (Some (Fixtures.collection [Fixtures.feature_A; Fixtures.feature_B])) dbFile
  = (Success, Some Fixtures.loaded, [[Fixtures.record_A; Fixtures.record_B]]).
Proof. vm_compute. reflexivity. Qed.

(** ** The tokenizer of the full-text table *)

(** C3.  The [tokenchars] option of [address_fts] is made of the four
    characters backslash, [x], [2] and [d]; the hyphen is not among them.
    Whatever the Unicode tables, ["Haupt-Straße"] is indexed as more than
    one token, the first of which is ["haupt"]. *)
Theorem hyphen_separates_tokens unicode_isalnum unicode_isdiacritic unicode_fold :
  Fts5.address_fts_tokenchars = [92; 120; 50; 100]%N
  /\ exists rest,
       Fts5.address_fts_tokenize unicode_isalnum unicode_isdiacritic unicode_fold
         "Haupt-Straße" = Fts5.utf8 "haupt" :: rest
       /\ rest <> [].
Proof.
  split; [vm_compute; reflexivity|].
  unfold Fts5.address_fts_tokenize, Fts5.tokenize.
  replace (Fts5.utf8 "Haupt-Straße")
    with [72; 97; 117; 112; 116; 45; 83; 116; 114; 97; 223; 101]%N
    by (vm_compute; reflexivity).
  replace Fts5.address_fts_tokenchars with [92; 120; 50; 100]%N
    by (vm_compute; reflexivity).
  replace (Fts5.utf8 "haupt") with [104; 97; 117; 112; 116]%N
    by (vm_compute; reflexivity).
  cbn.
  replace (Fts5.continues_token unicode_isalnum unicode_isdiacritic
             [92; 120; 50; 100]%N 45) with false by (vm_compute; reflexivity).
  eexists. split; [reflexivity|].
  destruct (Fts5.continues_token _ _ _ 223); discriminate.
Qed.

(** With the hyphen itself as the token character, and [ß] a letter that
    folds to itself, the same text is one token. *)
Example hyphen_as_token_character unicode_isalnum unicode_isdiacritic unicode_fold :
  unicode_isalnum 223%N = true ->
  unicode_fold 223%N = 223%N ->
  Fts5.tokenize unicode_isalnum unicode_isdiacritic unicode_fold [45%N] "Haupt-Straße"
  = [Fts5.utf8 "haupt-straße"].
Proof.
  intros Halnum Hfold. unfold Fts5.tokenize.
  replace (Fts5.utf8 "Haupt-Straße")
    with [72; 97; 117; 112; 116; 45; 83; 116; 114; 97; 223; 101]%N
    by (vm_compute; reflexivity).
  replace (Fts5.utf8 "haupt-straße")
    with [104; 97; 117; 112; 116; 45; 115; 116; 114; 97; 223; 101]%N
    by (vm_compute; reflexivity).
  cbn.
  replace (Fts5.continues_token unicode_isalnum unicode_isdiacritic [45%N] 45)
    with true by (vm_compute; reflexivity).
  unfold Fts5.continues_token, Fts5.starts_token. cbn.
  rewrite Halnum, Hfold. reflexivity.
Qed.

(** ** The search *)

Lemma substring_all b : String.substring 0 (String.length b) b = b.
Proof. induction b as [|y b IH]; simpl; [reflexivity|]. rewrite IH. reflexivity. Qed.

Lemma first_bytes_length n : forall s,
  (n <= String.length s)%nat -> String.length (Fts5.first_bytes n s) = n.
Proof.
  unfold Fts5.first_bytes.
  induction n as [|n IH]; intros [|c s] Hn; simpl in *; try reflexivity; try lia.
  - f_equal. apply IH. lia.
Qed.

Lemma from_byte_length n : forall s,
  (n <= String.length s)%nat ->
  String.length (Fts5.from_byte n s) = (String.length s - n)%nat.
Proof.
  unfold Fts5.from_byte.
  induction n as [|n IH]; intros s Hn.
  - rewrite Nat.sub_0_r, substring_all. reflexivity.
  - destruct s as [|c s]; simpl in *; [lia|]. apply IH. lia.
Qed.

(** A text is its first bytes and what follows them. *)
Lemma first_bytes_from_byte n : forall s,
  (n <= String.length s)%nat ->
  String.append (Fts5.first_bytes n s) (Fts5.from_byte n s) = s.
Proof.
  unfold Fts5.first_bytes, Fts5.from_byte.
  induction n as [|n IH]; intros s Hn.
  - rewrite Nat.sub_0_r, substring_all. destruct s; reflexivity.
  - destruct s as [|c s]; [simpl in Hn; lia|].
    change (String c (String.append (String.substring 0 n s)
                        (String.substring n (String.length s - n) s)) = String c s).
    f_equal. apply IH. simpl in Hn. lia.
Qed.

(** FTS5's [highlight] returns the text with its instances wrapped. *)
Lemma highlight_from_wrapped opening closing spans : forall pos text,
  instances_within pos (String.length text) spans ->
  wrapped opening closing pos text spans
    (Fts5.highlight_from pos text spans opening closing).
Proof.
  induction spans as [|[start n] spans IH]; intros pos text Hin; [constructor|].
  destruct Hin as (Hpos & Hend & Hrest).
  cbn [Fts5.highlight_from]. cbv zeta.
  assert (Hd : (start - pos <= String.length text)%nat) by lia.
  pose proof (from_byte_length (start - pos) text Hd) as Htail.
  assert (Hn : (n <= String.length (Fts5.from_byte (start - pos) text))%nat) by lia.
  pose proof (wrapped_span opening closing pos
                (Fts5.first_bytes (start - pos) text)
                (Fts5.first_bytes n (Fts5.from_byte (start - pos) text))
                (Fts5.from_byte n (Fts5.from_byte (start - pos) text))
                start n spans
                (Fts5.highlight_from (start + n)
                   (Fts5.from_byte n (Fts5.from_byte (start - pos) text))
                   spans opening closing)
                Hpos (first_bytes_length _ _ Hd) (first_bytes_length _ _ Hn)) as H.
  rewrite (first_bytes_from_byte n _ Hn), (first_bytes_from_byte _ text Hd) in H.
  apply H. apply IH.
  rewrite (from_byte_length n _ Hn), Htail.
  replace (String.length text - (start - pos) - n)%nat
    with (pos + String.length text - (start + n))%nat by lia.
  exact Hrest.
Qed.

Section SearchProperties.

Variable Rank : Type.
Variable rank_leb : Rank -> Rank -> bool.
Variable fts_match : FtsTable -> string -> option (list (Z * Rank)).
Variable highlight : FtsTable -> string -> nat -> string -> string -> string -> string.

(** The phrase instances of a query in the text of a column, as FTS5
    finds them in a row that matches: offset and length, in bytes. *)
Variable instances : FtsTable -> string -> nat -> string -> list (nat * nat).

Hypothesis rank_total : forall a b, rank_leb a b = true \/ rank_leb b a = true.
Hypothesis rank_trans :
  forall a b c, rank_leb a b = true -> rank_leb b c = true -> rank_leb a c = true.

(** FTS5's [highlight]: the text of the column with each instance
    between the two markers given, as [Fts5.highlight] returns it on
    instances that lie within the text. *)
Hypothesis highlight_wraps :
  forall f query column text opening closing,
    wrapped opening closing 0 text (instances f query column text)
      (highlight f query column text opening closing).

Local Abbreviation by_rank := (Search.by_rank Rank rank_leb).
Local Abbreviation insert_by_rank := (Search.insert_by_rank Rank rank_leb).
Local Abbreviation order_by_rank := (Search.order_by_rank Rank rank_leb).

Lemma insert_by_rank_perm r l : insert_by_rank r l ≡ₚ r :: l.
Proof.
  induction l as [|x l IH]; simpl; [reflexivity|].
  destruct (rank_leb (rank r) (rank x)); [reflexivity|].
  rewrite IH. apply Permutation_swap.
Qed.

Lemma order_by_rank_perm l : order_by_rank l ≡ₚ l.
Proof.
  induction l as [|x l IH]; simpl; [reflexivity|].
  rewrite insert_by_rank_perm, IH. reflexivity.
Qed.

Lemma insert_by_rank_sorted r l :
  StronglySorted by_rank l -> StronglySorted by_rank (insert_by_rank r l).
Proof.
  induction l as [|x l IH]; intros Hl; simpl.
  - repeat constructor.
  - apply StronglySorted_cons in Hl as [Hx Hl].
    destruct (rank_leb (rank r) (rank x)) eqn:Hrx.
    + constructor; [constructor; assumption|].
      constructor; [exact Hrx|].
      eapply Forall_impl; [exact Hx|].
      intros y Hy. exact (rank_trans _ _ _ Hrx Hy).
    + constructor; [apply IH; exact Hl|].
      rewrite insert_by_rank_perm. constructor; [|exact Hx].
      destruct (rank_total (rank x) (rank r)) as [H|H]; [exact H|congruence].
Qed.

Lemma order_by_rank_sorted l : StronglySorted by_rank (order_by_rank l).
Proof.
  induction l as [|x l IH]; simpl; [constructor|].
  apply insert_by_rank_sorted. exact IH.
Qed.

Lemma joined_rows f t query hits r :
  r ∈ Search.joined Rank highlight f t query hits ->
  exists a rk, a ∈ t /\ (row_id a, rk) ∈ hits
               /\ r = Search.select_row Rank highlight f query a rk.
Proof.
  unfold Search.joined. intros Hr.
  apply list_elem_of_bind in Hr as ([rowid rk] & Hr & Hhit).
  apply list_elem_of_bind in Hr as (a & Hr & Ha).
  apply list_elem_of_singleton in Hr.
  apply list_elem_of_filter in Ha as [Hid Ha].
  exists a, rk. rewrite Hid. auto.
Qed.

(** Every pair of a matching index entry and the row of [addresses] with
    its id gives a row of the join. *)
Lemma joined_complete f t query hits a rk :
  a ∈ t -> (row_id a, rk) ∈ hits ->
  Search.select_row Rank highlight f query a rk
  ∈ Search.joined Rank highlight f t query hits.
Proof.
  intros Ha Hhit. unfold Search.joined.
  apply list_elem_of_bind. exists (row_id a, rk). split; [|exact Hhit].
  apply list_elem_of_bind. exists a. split; [apply list_elem_of_here|].
  apply list_elem_of_filter. auto.
Qed.


End SearchProperties.

(** On the whole text of a column, FTS5's [highlight] meets what is
    asked of it. *)
Lemma highlight_whole_wraps f query column text opening closing :
  wrapped opening closing 0 text (Fixtures.whole_text f query column text)
    (Fixtures.highlight_whole f query column text opening closing).
Proof.
  unfold Fixtures.highlight_whole, Fts5.highlight. apply highlight_from_wrapped.
  unfold Fixtures.whole_text.
  destruct (String.eqb text query); cbn [instances_within]; [|exact I].
  repeat split; lia.
Qed.


(** The demonstration prints that nothing was found, and returns no
    error, when no query matches. *)
Lemma search_each_nothing_found Rank rank_leb fts_match highlight db f qs :
  address_fts db = Some f ->
  (forall q, q ∈ qs -> fts_match f q = Some []) ->
  Search.search_each Rank rank_leb fts_match highlight db qs
  = Some (qs ≫= fun q => [Suche q; KeineErgebnisse]).
Proof.
  intros Hf. induction qs as [|q qs IH]; intros Hq; [reflexivity|].
  cbn [Search.search_each]. unfold Search.Query at 1. rewrite Hf. cbn [mbind option_bind].
  rewrite (Hq q) by apply list_elem_of_here. cbn [mbind option_bind].
  rewrite IH by (intros q' Hq'; apply Hq; apply list_elem_of_further; exact Hq').
  reflexivity.
Qed.

Lemma searchAddresses_nothing_found Rank rank_leb fts_match highlight db f :
  address_fts db = Some f ->
  (forall q, q ∈ Search.queries -> fts_match f q = Some []) ->
  Search.searchAddresses Rank rank_leb fts_match highlight (Some db)
  = Some (Search.queries ≫= fun q => [Suche q; KeineErgebnisse]).
Proof. apply search_each_nothing_found. Qed.

(** The round trip of the specification: of the features A, B and C (no
    street) the relation holds A and B; a query for the street returns
    both, ranked, and a query for an absent text returns nothing. *)
Example round_trip :
  Pipeline.processGeoJSON Fixtures.no_format_float Fixtures.no_format_composite
    Fixtures.never Fixtures.no_fault 7
    (Some (Fixtures.collection
             [Fixtures.feature_A; Fixtures.feature_B; Fixtures.feature_C])) None
  = (Success, Some Fixtures.loaded, [[Fixtures.record_A; Fixtures.record_B]])
  /\ (length <$> Search.Query Z Z.leb Fixtures.match_street Fixtures.wrap_whole
                   Fixtures.loaded "Hauptstraße") = Some 2%nat
  /\ Search.Query Z Z.leb Fixtures.match_street Fixtures.wrap_whole
       Fixtures.loaded "Nirgendwo" = Some [].
Proof. repeat split; vm_compute; reflexivity. Qed.

(** * Further properties *)

(** ** The names of the files *)

Lemma LastIndex_absent c s :
  has_byte c s = false -> LastIndex s (String c "") = -1.
Proof.
  induction s as [|x s IH]; simpl; [reflexivity|].
  intros H. apply orb_false_elim in H as [Hx Hs]. rewrite (IH Hs). simpl.
  destruct (ascii_dec c x) as [->|_]; [|reflexivity].
  rewrite Ascii.eqb_refl in Hx. discriminate.
Qed.

Lemma LastIndex_last c a b :
  has_byte c b = false ->
  LastIndex (String.append a (String c b)) (String c "") = Z.of_nat (String.length a).
Proof.
  intros Hb. induction a as [|x a IH]; simpl.
  - rewrite (LastIndex_absent c b Hb). simpl.
    destruct (ascii_dec c c) as [_|Hne]; [|congruence].
    destruct b; reflexivity.
  - rewrite IH. destruct (Z.leb_spec 0 (Z.of_nat (String.length a))); lia.
Qed.

Lemma substring_after a c b :
  String.substring (S (String.length a)) (String.length b) (String.append a (String c b))
  = b.
Proof. induction a as [|x a IH]; simpl; [apply substring_all|exact IH]. Qed.

Lemma substring_take a b :
  String.substring 0 (String.length a) (String.append a b) = a.
Proof.
  induction a as [|x a IH]; simpl; [destruct b; reflexivity|]. rewrite IH. reflexivity.
Qed.

Lemma length_append a b :
  String.length (String.append a b) = (String.length a + String.length b)%nat.
Proof. induction a as [|x a IH]; simpl; [reflexivity|]. rewrite IH. reflexivity. Qed.

Lemma has_byte_append c a b :
  has_byte c (String.append a b) = has_byte c a || has_byte c b.
Proof.
  induction a as [|x a IH]; simpl; [reflexivity|]. rewrite IH, orb_assoc. reflexivity.
Qed.

(** The part of a string behind the last instance of a byte. *)
Lemma slice_from_last c a b :
  has_byte c b = false ->
  let s := String.append a (String c b) in
  slice s (LastIndex s (String c "") + 1) (Z.of_nat (String.length s)) = Ret b.
Proof.
  intros Hb s. unfold slice, s. rewrite LastIndex_last by exact Hb.
  rewrite length_append. cbn [String.length].
  replace ((0 <=? _) && _ && _) with true
    by (symmetry; rewrite !andb_true_iff, !Z.leb_le; lia).
  replace (Z.to_nat (Z.of_nat (String.length a) + 1)) with (S (String.length a)) by lia.
  replace (Z.to_nat _) with (String.length b) by lia.
  rewrite substring_after. reflexivity.
Qed.

(** The part of a string before the last instance of a byte. *)
Lemma slice_to_last c a b :
  has_byte c b = false ->
  let s := String.append a (String c b) in
  slice s 0 (LastIndex s (String c "")) = Ret a.
Proof.
  intros Hb s. unfold slice, s. rewrite LastIndex_last by exact Hb.
  rewrite length_append. simpl.
  replace ((0 <=? _) && _) with true
    by (symmetry; rewrite !andb_true_iff, !Z.leb_le; lia).
  f_equal. rewrite Z.sub_0_r, Nat2Z.id. simpl. apply substring_take.
Qed.

(** X1.  For a URL whose last path segment is [stem.ext], with no dot
    in [ext], [main] names the downloaded file [stem.ext] and the
    database file [stem.db]: the segment behind the last slash, and the
    segment with what follows its last dot replaced by [db]. *)
Theorem main_names (dir stem ext : string) :
  has_byte "/" stem = false ->
  has_byte "/" ext = false ->
  has_byte "." ext = false ->
  let fileName := String.append stem (String "." ext) in
  main (Some (String.append dir (String "/" fileName)))
  = Ret (Run fileName (String.append stem ".db")).
Proof.
  intros Hstem Hext Hdot fileName. unfold main. cbn [default from_option id].
  assert (Hfile : has_byte "/" fileName = false).
  { unfold fileName. rewrite has_byte_append. simpl. rewrite Hstem, Hext. reflexivity. }
  destruct (String.eqb_spec (String.append dir (String "/" fileName)) "") as [E|_].
  { destruct dir; discriminate. }
  cbn [String.eqb].
  rewrite (slice_from_last "/" dir fileName Hfile).
  cbn [mbind exec_bind]. subst fileName.
  rewrite (slice_to_last "." stem ext Hdot). reflexivity.
Qed.

(** X2.  For a URL whose last path segment has no dot (the URL ends in
    a slash, for one), [main] panics: [strings.LastIndex] returns [-1]
    and the slice [fileName[:-1]] is out of range. *)
Theorem main_panics_without_extension (dir name : string) :
  has_byte "/" name = false ->
  has_byte "." name = false ->
  main (Some (String.append dir (String "/" name))) = Panic.
Proof.
  intros Hslash Hdot. unfold main. cbn [default from_option id].
  destruct (String.eqb_spec (String.append dir (String "/" name)) "") as [E|_].
  { destruct dir; discriminate. }
  cbn [String.eqb].
  rewrite (slice_from_last "/" dir name Hslash).
  cbn [mbind exec_bind]. unfold slice.
  rewrite (LastIndex_absent "." name Hdot). reflexivity.
Qed.

(** Without the flag the names are those of the default URL. *)
Lemma main_names_witness :
  has_byte "/" "mittelfranken-latest.osm" = false
  /\ has_byte "/" "pbf" = false
  /\ has_byte "." "pbf" = false
  /\ main None = Ret (Run "mittelfranken-latest.osm.pbf" "mittelfranken-latest.osm.db").
Proof.
  refine (conj eq_refl (conj eq_refl (conj eq_refl _))).
  exact (main_names "https://download.geofabrik.de/europe/germany"
           "mittelfranken-latest.osm" "pbf" eq_refl eq_refl eq_refl).
Defined.

Lemma main_panics_without_extension_witness :
  has_byte "/" "" = false
  /\ has_byte "." "" = false
  /\ main (Some "https://download.geofabrik.de/europe/germany/") = Panic.
Proof.
  refine (conj eq_refl (conj eq_refl _)).
  exact (main_panics_without_extension "https://download.geofabrik.de/europe/germany" ""
           eq_refl eq_refl).
Defined.

(** ** The steps before the import *)

(** X3.  The filtered files are kept under fixed names.  When
    [filtered.osm.pbf] and [filtered.geojson] exist, a run runs no
    command, whatever the URL and whatever the download brings: unless
    the download fails, it goes on to convert the GeoJSON file that was
    there. *)
Theorem filtered_files_are_reused fileName dataURL response created copied
  IsNotExist cmd_Run convert search (files : gset string) :
  "filtered.osm.pbf" ∈ files ->
  "filtered.geojson" ∈ files ->
  let '(_, done, e) :=
    run fileName dataURL response created copied IsNotExist cmd_Run convert search
      files in
  filter (fun ev => is_command ev = true) done = []
  /\ ((exists d, e = Some (DownloadFailed d)) \/ Converted ∈ done).
Proof.
  intros Hpbf Hjson. unfold run, downloadOSMFile, filterOSMData, exportToGeoJSON.
  assert (Hkeep : forall extra : gset string,
             bool_decide ("filtered.osm.pbf" ∈ extra ∪ files) = true
             /\ bool_decide ("filtered.geojson" ∈ extra ∪ files) = true).
  { intros extra. split; apply bool_decide_eq_true_2; set_solver. }
  case_bool_decide as Hin; simpl.
  - rewrite (bool_decide_eq_true_2 _ Hpbf). simpl.
    rewrite (bool_decide_eq_true_2 _ Hpbf), (bool_decide_eq_true_2 _ Hjson). simpl.
    destruct (convert files) as [files' [|]]; simpl;
      [|destruct (search files')]; (split; [reflexivity|right; repeat constructor]).
  - destruct response as [status|]; simpl; [|split; [reflexivity|eauto]].
    destruct (negb (status =? 200)); simpl; [split; [reflexivity|eauto]|].
    destruct (negb created); simpl; [split; [reflexivity|eauto]|].
    destruct (Hkeep {[fileName]}) as [Hp Hj].
    destruct (negb copied); simpl; [split; [reflexivity|eauto]|].
    rewrite Hp. simpl. rewrite Hp, Hj. simpl.
    destruct (convert _) as [files' [|]]; simpl;
      [|destruct (search files')]; (split; [reflexivity|right; repeat constructor]).
Qed.

Lemma filtered_files_are_reused_witness :
  "filtered.osm.pbf" ∈ Scenarios.cached
  /\ "filtered.geojson" ∈ Scenarios.cached
  /\ let '(_, done, e) :=
       run "berlin-latest.osm.pbf" "https://download.geofabrik.de/europe/germany/berlin-latest.osm.pbf"
         (Some 200) true true Scenarios.gone Scenarios.refuses Scenarios.converts
         Scenarios.searches Scenarios.cached in
     filter (fun ev => is_command ev = true) done = []
     /\ ((exists d, e = Some (DownloadFailed d)) \/ Converted ∈ done).
Proof.
  assert (H1 : "filtered.osm.pbf" ∈ Scenarios.cached).
  { apply elem_of_union. left. apply elem_of_singleton. reflexivity. }
  assert (H2 : "filtered.geojson" ∈ Scenarios.cached).
  { apply elem_of_union. right. apply elem_of_singleton. reflexivity. }
  refine (conj H1 (conj H2 _)).
  exact (filtered_files_are_reused "berlin-latest.osm.pbf"
           "https://download.geofabrik.de/europe/germany/berlin-latest.osm.pbf"
           (Some 200) true true Scenarios.gone Scenarios.refuses Scenarios.converts
           Scenarios.searches Scenarios.cached H1 H2).
Defined.

(** X4.  A download that fails leaves the names as they were, unless it
    fails in [io.Copy]: the file then exists, with what was copied, and
    every later call of [downloadOSMFile] takes it for the download and
    requests nothing. *)
Theorem partial_download_is_kept fileName dataURL response created copied
  (files files' : gset string) requests e :
  downloadOSMFile fileName dataURL response created copied files
  = (files', requests, Some e) ->
  (e <> CopyError -> files' = files)
  /\ (e = CopyError ->
      forall dataURL' response' created' copied',
        downloadOSMFile fileName dataURL' response' created' copied' files'
        = (files', [], None)).
Proof.
  unfold downloadOSMFile.
  case_bool_decide as Hin; [discriminate|].
  destruct response as [status|]; [|intros [= <- <- <-]; split; [reflexivity|discriminate]].
  destruct (negb (status =? 200));
    [intros [= <- <- <-]; split; [reflexivity|discriminate]|].
  destruct (negb created); [intros [= <- <- <-]; split; [reflexivity|discriminate]|].
  destruct (negb copied); [|discriminate].
  intros [= <- <- <-]. split; [congruence|].
  intros _ dataURL' response' created' copied'.
  rewrite bool_decide_eq_true_2 by set_solver. reflexivity.
Qed.

Lemma partial_download_is_kept_witness :
  downloadOSMFile "berlin-latest.osm.pbf" "https://example.org/berlin-latest.osm.pbf"
    (Some 200) true false ∅
  = ({["berlin-latest.osm.pbf"]} ∪ ∅, ["https://example.org/berlin-latest.osm.pbf"],
     Some CopyError)
  /\ downloadOSMFile "berlin-latest.osm.pbf" "https://example.org/berlin-latest.osm.pbf"
       (Some 200) true true ({["berlin-latest.osm.pbf"]} ∪ ∅)
     = ({["berlin-latest.osm.pbf"]} ∪ ∅, [], None).
Proof.
  assert (H : downloadOSMFile "berlin-latest.osm.pbf"
                "https://example.org/berlin-latest.osm.pbf" (Some 200) true false ∅
              = ({["berlin-latest.osm.pbf"]} ∪ ∅,
                 ["https://example.org/berlin-latest.osm.pbf"], Some CopyError)).
  { reflexivity. }
  refine (conj H _).
  exact (proj2 (partial_download_is_kept _ _ _ _ _ _ _ _ _ H) eq_refl
           "https://example.org/berlin-latest.osm.pbf" (Some 200) true true).
Defined.

(** ** More on the relation under insert-or-ignore *)

Lemma insert_or_ignore_prefix t r : rows t `prefix_of` rows (insert_or_ignore t r).
Proof.
  unfold insert_or_ignore. cbn [rows]. case_bool_decide; [reflexivity|].
  apply prefix_app_r. reflexivity.
Qed.

(** An insert statement leaves the rows of the table as they are. *)
Lemma insert_rows_prefix rs : forall t, rows t `prefix_of` rows (insert_rows t rs).
Proof.
  induction rs as [|r rs IH]; intros t; simpl; [reflexivity|].
  etransitivity; [apply insert_or_ignore_prefix|apply IH].
Qed.

Lemma insert_rows_keys_from rs : forall t k,
  k ∈ key_of_row <$> rows (insert_rows t rs) ->
  k ∈ key_of_row <$> rows t \/ k ∈ key_of_record <$> rs.
Proof.
  induction rs as [|r rs IH]; intros t k Hk; simpl in *; [auto|].
  apply IH in Hk as [Hk|Hk]; [|right; apply elem_of_cons; auto].
  unfold insert_or_ignore in Hk. cbn [rows] in Hk. case_bool_decide; [auto|].
  rewrite fmap_app in Hk. apply elem_of_app in Hk as [Hk|Hk]; [auto|].
  right. apply list_elem_of_singleton in Hk. subst k. apply list_elem_of_here.
Qed.

(** Tuples whose keys are all in the table add no row. *)
Lemma insert_rows_absorbed rs : forall t,
  (forall r, r ∈ rs -> key_of_record r ∈ key_of_row <$> rows t) ->
  rows (insert_rows t rs) = rows t.
Proof.
  induction rs as [|r rs IH]; intros t Hin; simpl; [reflexivity|].
  assert (Hrows : rows (insert_or_ignore t r) = rows t).
  { unfold insert_or_ignore. cbn [rows].
    rewrite bool_decide_eq_true_2 by (apply Hin, list_elem_of_here). reflexivity. }
  rewrite IH; [exact Hrows|].
  intros r' Hr'. rewrite Hrows. apply Hin, list_elem_of_further, Hr'.
Qed.

(** The first tuple with a key gives the row. *)
Lemma insert_rows_first t l1 r l2 :
  key_of_record r ∉ key_of_row <$> rows t ->
  key_of_record r ∉ key_of_record <$> l1 ->
  exists w, w ∈ rows (insert_rows t (l1 ++ r :: l2))
            /\ key_of_row w = key_of_record r
            /\ longitude w = Lon r /\ latitude w = Lat r.
Proof.
  intros Ht Hl1. rewrite insert_rows_app. simpl.
  set (t1 := insert_rows t l1).
  assert (Hnew : key_of_record r ∉ key_of_row <$> rows t1).
  { intros Hk. apply insert_rows_keys_from in Hk as [Hk|Hk]; contradiction. }
  exists {| row_id := next_id t1; street := Street r; house_number := HouseNumber r;
            city := City r; longitude := Lon r; latitude := Lat r |}.
  split; [|auto].
  eapply elem_of_prefix; [|apply insert_rows_prefix].
  unfold insert_or_ignore. cbn [rows]. rewrite bool_decide_eq_false_2 by exact Hnew.
  apply elem_of_app. right. apply list_elem_of_here.
Qed.

Lemma only_row_with_key (t : list Row) w :
  NoDup (key_of_row <$> t) -> w ∈ t ->
  filter (fun x => key_of_row x = key_of_row w) t = [w].
Proof.
  induction t as [|x t IH]; intros Hnd Hw; [inversion Hw|].
  simpl in Hnd. apply NoDup_cons in Hnd as [Hx Hnd].
  rewrite filter_cons. apply elem_of_cons in Hw as [->|Hw].
  - rewrite decide_True by reflexivity. f_equal.
    clear IH Hnd. induction t as [|y t IH]; [reflexivity|].
    rewrite filter_cons. simpl in Hx. apply not_elem_of_cons in Hx as [Hne Hx].
    rewrite decide_False by congruence. auto.
  - rewrite decide_False; [auto|].
    intros Heq. apply Hx. rewrite Heq. apply list_elem_of_fmap_2. exact Hw.
Qed.

Lemma insert_or_ignore_length t r :
  (length (rows (insert_or_ignore t r)) <= length (rows t) + 1)%nat.
Proof.
  unfold insert_or_ignore. cbn [rows]. case_bool_decide; [lia|].
  rewrite length_app. simpl. lia.
Qed.

Lemma insert_rows_length rs : forall t,
  (length (rows (insert_rows t rs)) <= length (rows t) + length rs)%nat.
Proof.
  induction rs as [|r rs IH]; intros t; simpl; [lia|].
  etransitivity; [apply IH|]. pose proof (insert_or_ignore_length t r). lia.
Qed.

(** When every tuple gives a row, no two tuples share a key. *)
Lemma insert_rows_all_new rs : forall t,
  length (rows (insert_rows t rs)) = (length (rows t) + length rs)%nat ->
  NoDup (key_of_record <$> rs).
Proof.
  induction rs as [|r rs IH]; intros t Hlen; simpl in *; [constructor|].
  pose proof (insert_rows_length rs (insert_or_ignore t r)) as Hle.
  pose proof (insert_or_ignore_length t r) as Hone.
  apply NoDup_cons. split; [|apply (IH (insert_or_ignore t r)); lia].
  intros Hr. apply list_elem_of_fmap in Hr as (r' & Hkey & Hr').
  apply list_elem_of_split in Hr' as (l1 & l2 & ->).
  rewrite insert_rows_app in Hlen. simpl in Hlen.
  set (t0 := insert_or_ignore t r) in *.
  set (t1 := insert_rows t0 l1) in *.
  assert (Hin0 : key_of_record r ∈ key_of_row <$> rows t0).
  { unfold t0, insert_or_ignore. cbn [rows]. case_bool_decide as Hin; [exact Hin|].
    rewrite fmap_app. apply elem_of_app. right. apply list_elem_of_here. }
  assert (Hin1 : key_of_record r' ∈ key_of_row <$> rows t1).
  { rewrite <- Hkey. eapply elem_of_prefix; [exact Hin0|].
    destruct (insert_rows_prefix l1 t0) as [more Hmore]. fold t1 in Hmore.
    rewrite Hmore, fmap_app. apply prefix_app_r. reflexivity. }
  pose proof (insert_rows_length l1 t0) as Hl1. fold t1 in Hl1.
  assert (Hsame : rows (insert_or_ignore t1 r') = rows t1).
  { unfold insert_or_ignore. cbn [rows].
    rewrite bool_decide_eq_true_2 by exact Hin1. reflexivity. }
  pose proof (insert_rows_length l2 (insert_or_ignore t1 r')) as Hl2.
  rewrite Hsame in Hl2. rewrite length_app in *. simpl in *. lia.
Qed.

(** *** The ids *)

Lemma max_id_nonneg l : 0 <= max_id l.
Proof. unfold max_id. induction l as [|w l IH]; simpl; lia. Qed.

Lemma max_id_app l k : max_id (l ++ k) = Z.max (max_id l) (max_id k).
Proof.
  pose proof (max_id_nonneg k) as Hk. unfold max_id in *.
  induction l as [|w l IH]; simpl; lia.
Qed.

(** Every tuple of an insert statement uses up one id, ignored or not. *)
Lemma insert_rows_sequence rs : forall t,
  max_id (rows t) <= sequence t ->
  sequence (insert_rows t rs) = sequence t + len rs
  /\ max_id (rows (insert_rows t rs)) <= sequence (insert_rows t rs).
Proof.
  induction rs as [|r rs IH]; intros t Hmax; simpl.
  - rewrite len_nil, Z.add_0_r. auto.
  - assert (Hseq : sequence (insert_or_ignore t r) = sequence t + 1).
    { unfold insert_or_ignore, next_id. cbn [sequence]. lia. }
    assert (Hmax1 : max_id (rows (insert_or_ignore t r)) <= sequence (insert_or_ignore t r)).
    { rewrite Hseq. unfold insert_or_ignore, next_id. cbn [rows].
      case_bool_decide; [lia|].
      rewrite max_id_app. unfold max_id at 2. cbn [fold_right row_id].
      pose proof (max_id_nonneg (rows t)). lia. }
    destruct (IH _ Hmax1) as [Hs Hm]. rewrite len_cons. split; lia.
Qed.

(** *** The ids after a tuple that is ignored *)

Lemma row_id_le_max_id (t : list Row) w : w ∈ t -> row_id w <= max_id t.
Proof.
  induction t as [|x t IH]; intros Hw; [inversion Hw|].
  unfold max_id. cbn [fold_right]. fold (max_id t).
  apply elem_of_cons in Hw as [->|Hw]; [lia|]. specialize (IH Hw). lia.
Qed.

Lemma bump_low n (t : list Row) : max_id t <= n -> bump n <$> t = t.
Proof.
  induction t as [|w t IH]; intros Hmax; [reflexivity|].
  unfold max_id in Hmax. cbn [fold_right] in Hmax. fold (max_id t) in Hmax.
  cbn [fmap list_fmap]. fold (fmap (M:=list) (bump n)). rewrite IH by lia. f_equal.
  unfold bump. destruct (Z.ltb_spec n (row_id w)); [lia|]. destruct w; reflexivity.
Qed.

Lemma key_of_row_bump n (t : list Row) :
  key_of_row <$> (bump n <$> t) = key_of_row <$> t.
Proof. rewrite <- list_fmap_compose. apply list_fmap_ext. intros i w _. reflexivity. Qed.

Lemma insert_or_ignore_shifted n u u' r :
  shifted n u u' -> shifted n (insert_or_ignore u r) (insert_or_ignore u' r).
Proof.
  intros (Hrows & Hseq & Hmax' & Hmax & Hn).
  unfold insert_or_ignore, next_id. rewrite Hrows, key_of_row_bump.
  pose proof (max_id_nonneg (rows u)). pose proof (max_id_nonneg (rows u')).
  rewrite <- Hrows.
  replace (Z.max (max_id (rows u)) (sequence u)) with (sequence u) by lia.
  replace (Z.max (max_id (rows u')) (sequence u')) with (sequence u') by lia.
  unfold shifted. cbn [rows sequence].
  case_bool_decide.
  - repeat split; [exact Hrows|lia..].
  - rewrite fmap_app, <- Hrows, !max_id_app.
    unfold max_id at 2 4. cbn [fold_right row_id list_fmap fmap].
    split; [|lia].
    f_equal. unfold bump. cbn [row_id street house_number city longitude latitude].
    destruct (Z.ltb_spec n (1 + sequence u')); [|lia].
    rewrite Hseq. do 2 f_equal. lia.
Qed.

Lemma insert_rows_shifted n rs : forall u u',
  shifted n u u' -> shifted n (insert_rows u rs) (insert_rows u' rs).
Proof.
  induction rs as [|r rs IH]; intros u u' H; simpl; [exact H|].
  apply IH, insert_or_ignore_shifted, H.
Qed.

(** A tuple whose key the relation has uses up an id and writes no row:
    the rows inserted after it have the ids that follow. *)
Lemma insert_rows_repeat t rs1 r rs2 :
  max_id (rows t) <= sequence t ->
  key_of_record r ∈ key_of_row <$> rows (insert_rows t rs1) ->
  shifted (sequence t + len rs1)
    (insert_rows t (rs1 ++ r :: rs2)) (insert_rows t (rs1 ++ rs2)).
Proof.
  intros Hmax Hkey.
  rewrite !insert_rows_app. cbn [insert_rows fold_left].
  apply (insert_rows_shifted _ rs2).
  destruct (insert_rows_sequence rs1 t Hmax) as [Hseq Hmax1].
  set (t1 := insert_rows t rs1) in *.
  unfold shifted, insert_or_ignore, next_id. cbn [rows sequence].
  rewrite bool_decide_eq_true_2 by exact Hkey.
  pose proof (max_id_nonneg (rows t1)).
  split; [symmetry; apply bump_low; lia|]. lia.
Qed.

Lemma records_of_app formatFloat formatComposite l1 l2 :
  records_of formatFloat formatComposite (l1 ++ l2)
  = records_of formatFloat formatComposite l1 ++ records_of formatFloat formatComposite l2.
Proof. apply omap_app. Qed.

Lemma database_eq (d d' : Database) :
  table_of d = table_of d' -> indices d = indices d' ->
  address_fts d = address_fts d' -> d = d'.
Proof. destruct d, d'. unfold table_of. simpl. congruence. Qed.

(** ** The connection, step by step *)
Section Steps.

Variable formatFloat : float -> string.
Variable formatComposite : json -> string.
Variable timeUp : Z -> bool.
Variable fault : nat -> bool.
Variable batchSize : Z.

Local Abbreviation steps := (rtc (store_step fault)).
Local Abbreviation features_loop :=
  (Pipeline.features_loop formatFloat formatComposite timeUp fault batchSize).
Local Abbreviation tokens_loop :=
  (Pipeline.tokens_loop formatFloat formatComposite timeUp fault batchSize).

Lemma periodic_commit_steps st :
  batch st <> [] -> steps (conn st) (conn (Pipeline.periodic_commit fault st).2).
Proof.
  intros Hne. unfold Pipeline.periodic_commit.
  pose proof (flush_step fault (conn st) (batch st) Hne) as Hflush.
  destruct (and_then (Pipeline.bulkInsert fault (conn st) (batch st)) (Pipeline.Commit fault))
    as [c2|c2]; simpl in *.
  - pose proof (begin_step fault c2) as Hbegin.
    destruct (Pipeline.Begin fault c2) as [c3|c3]; simpl in *;
      (eapply rtc_l; [exact Hflush|apply rtc_once; exact Hbegin]).
  - apply rtc_once. exact Hflush.
Qed.

Lemma accumulate_steps st record :
  steps (conn st) (conn (Pipeline.accumulate timeUp fault batchSize st record).2).
Proof.
  unfold Pipeline.accumulate.
  destruct (_ || _); [|reflexivity].
  apply (periodic_commit_steps
           {| decoder := decoder st; conn := conn st;
              batch := batch st ++ [record]; totalCount := totalCount st + 1 |}).
  simpl. destruct (batch st); discriminate.
Qed.

Lemma features_loop_steps fuel : forall st,
  steps (conn st) (conn (features_loop fuel st).2).
Proof.
  induction fuel as [|fuel IH]; intros st; simpl; [reflexivity|].
  destruct (More (decoder st)); [|reflexivity].
  destruct (Decode unmarshal_Feature (decoder st)) as [d feature].
  destruct feature as [feature|]; [|apply (IH (with_decoder st d))].
  destruct (Extractor.extractAddressData _ _ feature) as [[record|]|];
    [|apply (IH (with_decoder st d))|reflexivity].
  pose proof (accumulate_steps (with_decoder st d) record) as Hacc.
  destruct (Pipeline.accumulate _ _ _ (with_decoder st d) record) as [s1 st1].
  simpl in Hacc.
  destruct s1; try exact Hacc.
  etransitivity; [exact Hacc|apply IH].
Qed.

Lemma last_commit_steps st :
  steps (conn st) (conn (Pipeline.last_commit fault st).2).
Proof.
  unfold Pipeline.last_commit.
  destruct (Z.ltb_spec 0 (len (batch st))) as [Hpos|Hzero]; [|reflexivity].
  assert (Hne : batch st <> []) by (intros E; rewrite E in Hpos; discriminate).
  pose proof (flush_step fault (conn st) (batch st) Hne) as Hflush.
  destruct (and_then _ _); simpl in *; apply rtc_once; exact Hflush.
Qed.

(** Whatever the loops do to the connection, they do in such steps. *)
Lemma tokens_loop_steps fuel : forall st,
  steps (conn st) (conn (tokens_loop fuel st).2).
Proof.
  induction fuel as [|fuel IH]; intros st; simpl; [reflexivity|].
  destruct (More (decoder st)); [|reflexivity].
  destruct (Token_ (decoder st)) as [d [token|]]; [|reflexivity].
  destruct (Pipeline.is_features token); [|apply (IH (with_decoder st d))].
  destruct (Token_ d) as [d1 [open|]]; [|reflexivity].
  pose proof (features_loop_steps fuel (with_decoder st d1)) as Hloop.
  destruct (features_loop fuel (with_decoder st d1)) as [s1 st1]. simpl in Hloop.
  destruct s1; try exact Hloop.
  pose proof (last_commit_steps st1) as Hlast.
  destruct (Pipeline.last_commit fault st1) as [s2 st2]. simpl in Hlast.
  destruct s2; try (etransitivity; [exact Hloop|exact Hlast]).
  etransitivity; [exact Hloop|]. etransitivity; [exact Hlast|apply IH].
Qed.

(** *** What a step keeps *)

Lemma Begin_keeps c :
  committed (conn_of (Pipeline.Begin fault c)) = committed c
  /\ flushed (conn_of (Pipeline.Begin fault c)) = flushed c.
Proof. unfold Pipeline.Begin. destruct (fault (calls c)); auto. Qed.

Lemma Begin_done c c' :
  Pipeline.Begin fault c = Done c' -> pending c' = [] /\ flushed c' = flushed c.
Proof.
  unfold Pipeline.Begin. destruct (fault (calls c)); [discriminate|].
  intros [= <-]. auto.
Qed.

Lemma Commit_keeps_indices c :
  indices (committed (conn_of (Pipeline.Commit fault c))) = indices (committed c).
Proof.
  unfold Pipeline.Commit. destruct (tx c); [|reflexivity].
  destruct (fault (calls c)); reflexivity.
Qed.

Lemma step_keeps_indices c c' :
  store_step fault c c' -> indices (committed c') = indices (committed c).
Proof.
  intros [c0 records Hne|c0].
  - pose proof (bulkInsert_keeps fault records c0) as [Hc _].
    destruct (Pipeline.bulkInsert fault c0 records) as [c1|c1]; simpl in *.
    + rewrite Commit_keeps_indices, Hc. reflexivity.
    + rewrite Hc. reflexivity.
  - destruct (Begin_keeps c0) as [-> _]. reflexivity.
Qed.

Lemma steps_keep_indices c c' :
  steps c c' -> indices (committed c') = indices (committed c).
Proof.
  induction 1 as [|c c1 c' Hstep _ IH]; [reflexivity|].
  rewrite IH. apply step_keeps_indices. exact Hstep.
Qed.

Lemma Commit_keeps_fts c :
  address_fts (committed (conn_of (Pipeline.Commit fault c))) = address_fts (committed c).
Proof.
  unfold Pipeline.Commit. destruct (tx c); [|reflexivity].
  destruct (fault (calls c)); reflexivity.
Qed.

Lemma step_keeps_fts c c' :
  store_step fault c c' -> address_fts (committed c') = address_fts (committed c).
Proof.
  intros [c0 records Hne|c0].
  - pose proof (bulkInsert_keeps fault records c0) as [Hc _].
    destruct (Pipeline.bulkInsert fault c0 records) as [c1|c1]; simpl in *.
    + rewrite Commit_keeps_fts, Hc. reflexivity.
    + rewrite Hc. reflexivity.
  - destruct (Begin_keeps c0) as [-> _]. reflexivity.
Qed.

Lemma steps_keep_fts c c' :
  steps c c' -> address_fts (committed c') = address_fts (committed c).
Proof.
  induction 1 as [|c c1 c' Hstep _ IH]; [reflexivity|].
  rewrite IH. apply step_keeps_fts. exact Hstep.
Qed.

Lemma step_keeps_nonempty c c' :
  store_step fault c c' ->
  Forall (fun b => b <> []) (flushed c) -> Forall (fun b => b <> []) (flushed c').
Proof.
  intros [c0 records Hne|c0] Hall.
  - pose proof (insert_and_commit_result fault c0 records) as Hres.
    destruct (and_then _ _) as [c1|c1]; simpl.
    + destruct Hres as (-> & _). apply Forall_app. split; [exact Hall|].
      constructor; [|constructor]. destruct (pending c0); [exact Hne|discriminate].
    + destruct Hres as [-> _]. exact Hall.
  - destruct (Begin_keeps c0) as [_ ->]. exact Hall.
Qed.

Lemma steps_keep_nonempty c c' :
  steps c c' ->
  Forall (fun b => b <> []) (flushed c) -> Forall (fun b => b <> []) (flushed c').
Proof.
  induction 1 as [|c c1 c' Hstep _ IH]; [auto|].
  intros Hall. apply IH. eapply step_keeps_nonempty; eassumption.
Qed.

(** *** The count *)

Lemma periodic_commit_count st st' :
  pending (conn st) = [] ->
  Pipeline.periodic_commit fault st = (Success, st') ->
  pending (conn st') = [] /\ batch st' = []
  /\ len (concat (flushed (conn st'))) = len (concat (flushed (conn st))) + len (batch st)
  /\ totalCount st' = totalCount st.
Proof.
  intros Hp. unfold Pipeline.periodic_commit.
  pose proof (insert_and_commit_result fault (conn st) (batch st)) as Hres.
  destruct (and_then (Pipeline.bulkInsert fault (conn st) (batch st)) (Pipeline.Commit fault))
    as [c2|c2]; simpl; [|discriminate].
  destruct Hres as (Hf & _).
  destruct (Pipeline.Begin fault c2) as [c3|c3] eqn:Hbegin; simpl; [|discriminate].
  apply Begin_done in Hbegin as [Hp3 Hf3].
  intros [= <-]. simpl.
  rewrite Hp3, Hf3, Hf, Hp, concat_app, len_app. simpl. rewrite app_nil_r.
  auto.
Qed.

Lemma accumulate_count st record st' :
  count_ok st ->
  Pipeline.accumulate timeUp fault batchSize st record = (Success, st') ->
  count_ok st'.
Proof.
  intros [Hp Hcount]. unfold Pipeline.accumulate.
  destruct (_ || _).
  - intros Hrun. apply periodic_commit_count in Hrun as (Hp' & Hb' & Hlen & Htotal);
      [|exact Hp].
    simpl in *. split; [exact Hp'|].
    rewrite Htotal, Hlen, Hb', Hcount, len_app, len_cons, !len_nil. lia.
  - intros [= <-]. split; [exact Hp|]. simpl.
    rewrite Hcount, len_app, len_cons, len_nil. lia.
Qed.

Lemma features_loop_count fuel : forall st st',
  count_ok st ->
  features_loop fuel st = (Success, st') ->
  count_ok st' /\ More (decoder st') = false.
Proof.
  induction fuel as [|fuel IH]; intros st st' Hok; simpl; [discriminate|].
  destruct (More (decoder st)) eqn:Hmore; [|intros [= <-]; auto].
  destruct (Decode unmarshal_Feature (decoder st)) as [d feature].
  assert (Hok1 : count_ok (with_decoder st d)) by exact Hok.
  destruct feature as [feature|]; [|apply IH; exact Hok1].
  destruct (Extractor.extractAddressData _ _ feature) as [[record|]|];
    [|apply IH; exact Hok1|discriminate].
  destruct (Pipeline.accumulate _ _ _ (with_decoder st d) record) as [s1 st1] eqn:Hacc.
  destruct s1; try discriminate.
  apply IH. eapply accumulate_count; eassumption.
Qed.

Lemma last_commit_count st st' :
  count_ok st ->
  Pipeline.last_commit fault st = (Success, st') ->
  totalCount st' = len (concat (flushed (conn st'))) /\ decoder st' = decoder st.
Proof.
  intros [Hp Hcount]. unfold Pipeline.last_commit.
  destruct (Z.ltb_spec 0 (len (batch st))) as [Hpos|Hzero].
  - pose proof (insert_and_commit_result fault (conn st) (batch st)) as Hres.
    destruct (and_then _ _) as [c2|c2]; [|discriminate].
    destruct Hres as (Hf & _). intros [= <-]. simpl.
    rewrite Hf, Hp, concat_app, len_app. simpl. rewrite app_nil_r. auto.
  - intros [= <-]. pose proof (len_nonneg (batch st)). split; [lia|reflexivity].
Qed.

Lemma tokens_loop_count fuel : forall st st',
  count_ok st -> batch st = [] ->
  tokens_loop fuel st = (Success, st') ->
  totalCount st' = len (concat (flushed (conn st'))).
Proof.
  induction fuel as [|fuel IH]; intros st st' Hok Hbatch; simpl; [discriminate|].
  destruct (More (decoder st)).
  2: { intros [= <-]. destruct Hok as [_ ->]. rewrite Hbatch, len_nil. lia. }
  destruct (Token_ (decoder st)) as [d [token|]]; [|discriminate].
  destruct (Pipeline.is_features token); [|apply IH; assumption].
  destruct (Token_ d) as [d1 [open|]]; [|discriminate].
  destruct (features_loop fuel (with_decoder st d1)) as [s1 st1] eqn:Hloop.
  destruct s1; try discriminate.
  apply features_loop_count in Hloop as [Hok1 Hmore]; [|exact Hok].
  destruct (Pipeline.last_commit fault st1) as [s2 st2] eqn:Hlast.
  destruct s2; try discriminate.
  apply last_commit_count in Hlast as [Htotal Hdec]; [|exact Hok1].
  destruct fuel as [|fuel]; simpl; [discriminate|].
  rewrite Hdec, Hmore. intros [= <-]. exact Htotal.
Qed.

(** *** More fuel *)

Lemma step_extends c c' : store_step fault c c' -> flushed c `prefix_of` flushed c'.
Proof.
  intros [c0 records Hne|c0].
  - pose proof (insert_and_commit_result fault c0 records) as Hres.
    destruct (and_then _ _) as [c1|c1]; simpl.
    + destruct Hres as (-> & _). apply prefix_app_r. reflexivity.
    + destruct Hres as [-> _]. reflexivity.
  - destruct (Begin_keeps c0) as [_ ->]. reflexivity.
Qed.

Lemma steps_extend c c' : steps c c' -> flushed c `prefix_of` flushed c'.
Proof.
  induction 1 as [|c c1 c' Hstep _ IH]; [reflexivity|].
  etransitivity; [apply step_extends; exact Hstep|exact IH].
Qed.

(** A loop that has returned returns the same with more fuel. *)
Lemma features_loop_more_fuel fuel : forall fuel' st s st',
  (fuel <= fuel')%nat -> features_loop fuel st = (s, st') -> s <> OutOfFuel ->
  features_loop fuel' st = (s, st').
Proof.
  induction fuel as [|fuel IH]; intros fuel' st s st' Hle; simpl.
  - intros [= <- <-] H. contradiction.
  - destruct fuel' as [|fuel']; [lia|]. simpl.
    destruct (More (decoder st)); [|auto].
    destruct (Decode unmarshal_Feature (decoder st)) as [d feature].
    destruct feature as [feature|]; [|apply IH; lia].
    destruct (Extractor.extractAddressData _ _ feature) as [[record|]|];
      [|apply IH; lia|auto].
    destruct (Pipeline.accumulate _ _ _ (with_decoder st d) record) as [s1 st1].
    destruct s1; auto. apply IH. lia.
Qed.

Lemma tokens_loop_more_fuel fuel : forall fuel' st s st',
  (fuel <= fuel')%nat -> tokens_loop fuel st = (s, st') -> s <> OutOfFuel ->
  tokens_loop fuel' st = (s, st').
Proof.
  induction fuel as [|fuel IH]; intros fuel' st s st' Hle; simpl.
  - intros [= <- <-] H. contradiction.
  - destruct fuel' as [|fuel']; [lia|]. simpl.
    destruct (More (decoder st)); [|auto].
    destruct (Token_ (decoder st)) as [d [token|]]; [|auto].
    destruct (Pipeline.is_features token); [|apply IH; lia].
    destruct (Token_ d) as [d1 [open|]]; [|auto].
    destruct (features_loop fuel (with_decoder st d1)) as [s1 st1] eqn:Hloop.
    assert (Hsame : s1 <> OutOfFuel ->
                    features_loop fuel' (with_decoder st d1) = (s1, st1)).
    { apply (features_loop_more_fuel fuel); [lia|exact Hloop]. }
    destruct s1; try (rewrite Hsame by discriminate; auto);
      try (intros [= <- <-] H; contradiction).
    destruct (Pipeline.last_commit fault st1) as [s2 st2].
    destruct s2; auto. apply IH. lia.
Qed.

(** A loop stopped for want of fuel has committed the first of the
    transactions that it commits with more fuel. *)
Lemma features_loop_fuel fuel : forall fuel' st,
  (fuel <= fuel')%nat ->
  flushed (conn (features_loop fuel st).2)
  `prefix_of` flushed (conn (features_loop fuel' st).2).
Proof.
  induction fuel as [|fuel IH]; intros fuel' st Hle.
  - simpl. apply steps_extend, features_loop_steps.
  - destruct fuel' as [|fuel']; [lia|]. simpl.
    destruct (More (decoder st)); [|reflexivity].
    destruct (Decode unmarshal_Feature (decoder st)) as [d feature].
    destruct feature as [feature|]; [|apply IH; lia].
    destruct (Extractor.extractAddressData _ _ feature) as [[record|]|];
      [|apply IH; lia|reflexivity].
    destruct (Pipeline.accumulate _ _ _ (with_decoder st d) record) as [s1 st1].
    destruct s1; try reflexivity. apply IH. lia.
Qed.

Lemma tokens_loop_fuel fuel : forall fuel' st,
  (fuel <= fuel')%nat ->
  flushed (conn (tokens_loop fuel st).2)
  `prefix_of` flushed (conn (tokens_loop fuel' st).2).
Proof.
  induction fuel as [|fuel IH]; intros fuel' st Hle.
  - simpl. apply steps_extend, tokens_loop_steps.
  - destruct fuel' as [|fuel']; [lia|]. simpl.
    destruct (More (decoder st)); [|reflexivity].
    destruct (Token_ (decoder st)) as [d [token|]]; [|reflexivity].
    destruct (Pipeline.is_features token); [|apply IH; lia].
    destruct (Token_ d) as [d1 [open|]]; [|reflexivity].
    pose proof (features_loop_fuel fuel fuel' (with_decoder st d1) ltac:(lia)) as Hpre.
    destruct (features_loop fuel (with_decoder st d1)) as [s1 st1] eqn:Hloop.
    assert (Hsame : s1 <> OutOfFuel ->
                    features_loop fuel' (with_decoder st d1) = (s1, st1)).
    { apply (features_loop_more_fuel fuel); [lia|exact Hloop]. }
    destruct s1; try (rewrite Hsame by discriminate; reflexivity).
    + rewrite Hsame by discriminate.
      destruct (Pipeline.last_commit fault st1) as [s2 st2].
      destruct s2; try reflexivity. apply IH. lia.
    + clear Hsame. simpl in Hpre.
      destruct (features_loop fuel' (with_decoder st d1)) as [s1' st1'].
      simpl in Hpre. destruct s1'; try exact Hpre.
      pose proof (last_commit_steps st1') as Hlast.
      destruct (Pipeline.last_commit fault st1') as [s2 st2]. simpl in Hlast.
      apply steps_extend in Hlast.
      destruct s2; try (etransitivity; [exact Hpre|exact Hlast]).
      etransitivity; [exact Hpre|]. etransitivity; [exact Hlast|].
      apply steps_extend, tokens_loop_steps.
Qed.

End Steps.

(** *** Statements outside the transaction *)

Lemma db_Exec_all_keeps fault (P : Conn -> Prop) effects : forall c,
  Forall (fun effect => forall c, P c -> P (conn_of (Pipeline.db_Exec fault effect c)))
    effects ->
  P c -> P (conn_of (Pipeline.db_Exec_all fault effects c)).
Proof.
  induction effects as [|e effects IH]; intros c Heff Hc; simpl; [exact Hc|].
  apply Forall_cons in Heff as [He Heff].
  apply and_then_conn; [apply He; exact Hc|].
  intros c1 Hc1. apply IH; assumption.
Qed.

Lemma db_Exec_all_flushed fault effects c :
  flushed (conn_of (Pipeline.db_Exec_all fault effects c)) = flushed c.
Proof.
  apply (db_Exec_all_keeps fault (fun c' => flushed c' = flushed c)); [|reflexivity].
  apply Forall_forall. intros e _ c0 Hc0.
  unfold Pipeline.db_Exec. destruct (tx c0); [exact Hc0|].
  destruct (fault (calls c0)); exact Hc0.
Qed.

(** Statements that all succeed have their effects, in order. *)
Lemma db_Exec_all_done fault effects : forall c c',
  Pipeline.db_Exec_all fault effects c = Done c' ->
  committed c' = fold_left (fun d effect => effect d) effects (committed c)
  /\ flushed c' = flushed c.
Proof.
  induction effects as [|e effects IH]; intros c c'; simpl.
  - intros [= <-]. auto.
  - unfold Pipeline.db_Exec at 1. destruct (tx c); simpl; [discriminate|].
    destruct (fault (calls c)); simpl; [discriminate|].
    intros Hdone. apply IH in Hdone as [-> ->]. auto.
Qed.

Lemma open_store_indices fault :
  indices (committed (conn_of (Pipeline.open_store fault))) = [].
Proof.
  apply (db_Exec_all_keeps fault (fun c => indices (committed c) = [])); [|reflexivity].
  repeat (apply Forall_cons_2;
            [intros c Hc; unfold Pipeline.db_Exec;
             destruct (tx c); [exact Hc|];
             destruct (fault (calls c)); exact Hc|]).
  apply Forall_nil_2.
Qed.

Lemma open_store_fts fault :
  address_fts (committed (conn_of (Pipeline.open_store fault))) = None.
Proof.
  apply (db_Exec_all_keeps fault (fun c => address_fts (committed c) = None));
    [|reflexivity].
  repeat (apply Forall_cons_2;
            [intros c Hc; unfold Pipeline.db_Exec;
             destruct (tx c); [exact Hc|];
             destruct (fault (calls c)); exact Hc|]).
  apply Forall_nil_2.
Qed.

(** ** Runs of the import *)
Section Runs.

Variable formatFloat : float -> string.
Variable formatComposite : json -> string.
Variable timeUp : Z -> bool.
Variable fault : nat -> bool.

Local Abbreviation process_file :=
  (Pipeline.process_file formatFloat formatComposite timeUp fault).
Local Abbreviation processGeoJSON :=
  (Pipeline.processGeoJSON formatFloat formatComposite timeUp fault).

(** A run that returns without error has gone through every statement. *)
Lemma process_file_success fuel file st :
  process_file fuel file = (Success, st) ->
  exists c c1 d st1,
    Pipeline.open_store fault = Done c
    /\ Pipeline.Begin fault c = Done c1
    /\ Pipeline.tokens_loop formatFloat formatComposite timeUp fault 500000 fuel
         {| decoder := d; conn := c1; batch := []; totalCount := 0 |} = (Success, st1)
    /\ Pipeline.build_indices fault (conn st1) = Done (conn st)
    /\ totalCount st = totalCount st1.
Proof.
  unfold Pipeline.process_file.
  destruct (Pipeline.open_store fault) as [c|c] eqn:Hopen; [|discriminate].
  destruct (Token_ (NewDecoder file)) as [d [brace|]]; [|discriminate].
  destruct (Pipeline.Begin fault c) as [c1|c1] eqn:Hbegin; [|discriminate].
  destruct (Pipeline.tokens_loop _ _ _ _ _ fuel _) as [s st1] eqn:Hloop.
  destruct s; try discriminate.
  destruct (Pipeline.build_indices fault (conn st1)) as [c2|c2] eqn:Hidx; [|discriminate].
  intros [= <-]. exists c, c1, d, st1. auto.
Qed.

(** A run that has returned returns the same with more fuel. *)
Lemma process_file_more_fuel fuel fuel' file s st :
  (fuel <= fuel')%nat -> process_file fuel file = (s, st) -> s <> OutOfFuel ->
  process_file fuel' file = (s, st).
Proof.
  intros Hle. unfold Pipeline.process_file.
  destruct (Pipeline.open_store fault) as [c|c]; [|auto].
  destruct (Token_ (NewDecoder file)) as [d [brace|]]; [|auto].
  destruct (Pipeline.Begin fault c) as [c1|c1]; [|auto].
  destruct (Pipeline.tokens_loop _ _ _ _ _ fuel _) as [s1 st1] eqn:Hloop.
  intros Hrun Hs.
  assert (Hs1 : s1 <> OutOfFuel).
  { intros ->. apply Hs. injection Hrun as <- _. reflexivity. }
  rewrite (tokens_loop_more_fuel formatFloat formatComposite timeUp fault 500000
             fuel fuel' _ s1 st1 Hle Hloop Hs1).
  exact Hrun.
Qed.

(** A run stopped for want of fuel has committed the first of the
    transactions that it commits with more fuel. *)
Lemma process_file_fuel fuel fuel' file :
  (fuel <= fuel')%nat ->
  flushed (conn (process_file fuel file).2)
  `prefix_of` flushed (conn (process_file fuel' file).2).
Proof.
  intros Hle. unfold Pipeline.process_file.
  destruct (Pipeline.open_store fault) as [c|c]; [|reflexivity].
  destruct (Token_ (NewDecoder file)) as [d [brace|]]; [|reflexivity].
  destruct (Pipeline.Begin fault c) as [c1|c1]; [|reflexivity].
  set (st0 := {| decoder := d; conn := c1; batch := []; totalCount := 0 |}).
  pose proof (tokens_loop_fuel formatFloat formatComposite timeUp fault 500000
                fuel fuel' st0 Hle) as Hpre.
  destruct (Pipeline.tokens_loop _ _ _ _ _ fuel st0) as [s1 st1] eqn:Hloop.
  assert (Hsame : s1 <> OutOfFuel ->
                  Pipeline.tokens_loop formatFloat formatComposite timeUp fault 500000
                    fuel' st0 = (s1, st1)).
  { apply (tokens_loop_more_fuel formatFloat formatComposite timeUp fault 500000 fuel);
      [lia|exact Hloop]. }
  destruct s1; try (rewrite Hsame by discriminate; reflexivity).
  clear Hsame. simpl in Hpre.
  destruct (Pipeline.tokens_loop _ _ _ _ _ fuel' st0) as [s1' st1'].
  simpl in Hpre. destruct s1'; try exact Hpre.
  pose proof (db_Exec_all_flushed fault
                [Pipeline.create_index "idx_city"; Pipeline.create_index "idx_street";
                 Pipeline.create_index "idx_street_house"; Pipeline.nothing;
                 Pipeline.nothing; Pipeline.nothing; Pipeline.create_fts;
                 Pipeline.populate_fts] (conn st1')) as Hidx.
  fold (Pipeline.build_indices fault (conn st1')) in Hidx.
  destruct (Pipeline.build_indices fault (conn st1')); simpl in *; rewrite Hidx; exact Hpre.
Qed.

Lemma process_file_flushed fuel file :
  Forall (fun b => b <> []) (flushed (conn (process_file fuel file).2)).
Proof.
  unfold Pipeline.process_file.
  pose proof (open_store_fresh fault) as (_ & Hf & _).
  destruct (Pipeline.open_store fault) as [c|c]; simpl in Hf;
    [|simpl; rewrite Hf; constructor].
  destruct (Token_ (NewDecoder file)) as [d [brace|]]; [|simpl; rewrite Hf; constructor].
  destruct (Begin_keeps fault c) as [_ Hb].
  destruct (Pipeline.Begin fault c) as [c1|c1]; simpl in Hb;
    [|simpl; rewrite Hb, Hf; constructor].
  match goal with
  | |- context [Pipeline.tokens_loop _ _ _ _ _ fuel ?st0] =>
      pose proof (tokens_loop_steps formatFloat formatComposite timeUp fault 500000
                    fuel st0) as Hsteps;
      destruct (Pipeline.tokens_loop formatFloat formatComposite timeUp fault
                  500000 fuel st0) as [s st]
  end.
  simpl in Hsteps.
  apply steps_keep_nonempty in Hsteps; [|rewrite Hb, Hf; constructor].
  destruct s; try exact Hsteps.
  pose proof (db_Exec_all_flushed fault
                [Pipeline.create_index "idx_city"; Pipeline.create_index "idx_street";
                 Pipeline.create_index "idx_street_house"; Pipeline.nothing;
                 Pipeline.nothing; Pipeline.nothing; Pipeline.create_fts;
                 Pipeline.populate_fts] (conn st)) as Hidx.
  fold (Pipeline.build_indices fault (conn st)) in Hidx.
  destruct (Pipeline.build_indices fault (conn st)); simpl in *; rewrite Hidx; exact Hsteps.
Qed.

(** After a run without error the three indices exist, and the
    full-text table holds one entry for each row. *)
Lemma process_file_schema fuel file st :
  process_file fuel file = (Success, st) ->
  let d := committed (conn st) in
  indices d = ["idx_city"; "idx_street"; "idx_street_house"]
  /\ address_fts d = Some {| fts_tokenize := createFTSTable_tokenize;
                             fts_rows := mirror (addresses d) |}.
Proof.
  intros Hrun. apply process_file_success in Hrun
    as (c & c1 & d0 & st1 & Hopen & Hbegin & Hloop & Hidx & _).
  pose proof (open_store_indices fault) as Hi0. rewrite Hopen in Hi0. simpl in Hi0.
  destruct (Begin_keeps fault c) as [Hb _]. rewrite Hbegin in Hb. simpl in Hb.
  pose proof (tokens_loop_steps formatFloat formatComposite timeUp fault 500000 fuel
                {| decoder := d0; conn := c1; batch := []; totalCount := 0 |}) as Hsteps.
  rewrite Hloop in Hsteps. simpl in Hsteps.
  apply steps_keep_indices in Hsteps as Hi. rewrite Hb, Hi0 in Hi.
  apply db_Exec_all_done in Hidx as [Hc _].
  simpl. rewrite Hc. simpl. rewrite Hi. split; reflexivity.
Qed.

(** On a store that fails no call of its own accord, a run that does not
    return without error has built no index and no full-text table. *)
Lemma process_file_unindexed fuel file s st :
  (forall k, fault k = false) ->
  process_file fuel file = (s, st) -> s <> Success ->
  indices (committed (conn st)) = [] /\ address_fts (committed (conn st)) = None.
Proof.
  intros Hfree. unfold Pipeline.process_file.
  pose proof (open_store_indices fault) as Hi0.
  pose proof (open_store_fts fault) as Hf0.
  destruct (Pipeline.open_store fault) as [c|c]; simpl in Hi0, Hf0;
    [|intros [= <- <-] _; auto].
  destruct (Token_ (NewDecoder file)) as [d [brace|]]; [|intros [= <- <-] _; auto].
  destruct (Begin_keeps fault c) as [Hb _].
  destruct (Pipeline.Begin fault c) as [c1|c1]; simpl in Hb;
    [|intros [= <- <-] _; simpl; rewrite Hb; auto].
  match goal with
  | |- context [Pipeline.tokens_loop _ _ _ _ _ fuel ?st0] =>
      pose proof (tokens_loop_steps formatFloat formatComposite timeUp fault 500000
                    fuel st0) as Hsteps;
      destruct (Pipeline.tokens_loop formatFloat formatComposite timeUp fault
                  500000 fuel st0) as [s1 st1]
  end.
  simpl in Hsteps.
  assert (Hkeep : indices (committed (conn st1)) = []
                  /\ address_fts (committed (conn st1)) = None).
  { rewrite (steps_keep_indices _ _ _ Hsteps), (steps_keep_fts _ _ _ Hsteps), Hb. auto. }
  destruct s1; try (intros [= <- <-] _; exact Hkeep).
  unfold Pipeline.build_indices.
  destruct (tx (conn st1)) as [t|] eqn:Htx.
  - rewrite db_Exec_all_locked by eauto. intros [= <- <-] _. exact Hkeep.
  - match goal with
    | |- context [Pipeline.db_Exec_all fault ?effects ?c0] =>
        destruct (db_Exec_all_runs fault Hfree effects c0 Htx) as (c2 & -> & _)
    end.
    intros [= <- <-] H. contradiction.
Qed.

Lemma processGeoJSON_schema fuel geojson dbFile db log :
  processGeoJSON fuel geojson dbFile = (Success, db, log) ->
  exists d,
    db = Some d
    /\ indices d = ["idx_city"; "idx_street"; "idx_street_house"]
    /\ address_fts d = Some {| fts_tokenize := createFTSTable_tokenize;
                               fts_rows := mirror (addresses d) |}.
Proof.
  destruct geojson as [file|]; [|discriminate].
  unfold Pipeline.processGeoJSON.
  destruct (Pipeline.process_file _ _ _ _ fuel file) as [s st] eqn:Hrun.
  intros [= -> <- <-].
  apply process_file_schema in Hrun. eauto.
Qed.

(** X9.  No transaction that [processGeoJSON] commits is empty, whatever
    the input, the clock and the faults of the store, and wherever the
    run stops: a flush is made of a batch that holds a record. *)
Theorem no_empty_transaction fuel geojson dbFile :
  Forall (fun b => b <> []) (processGeoJSON fuel geojson dbFile).2.
Proof.
  destruct geojson as [file|]; [|constructor].
  unfold Pipeline.processGeoJSON.
  pose proof (process_file_flushed fuel file) as H.
  destruct (Pipeline.process_file _ _ _ _ fuel file) as [s st]. exact H.
Qed.

(** X10.  The number that a run without error reports as imported
    ([totalCount]) is the number of records in the transactions it
    committed.  The relation holds at most that many rows, and as many
    only if no two of the records share a (street, house number, city):
    a record that the insert ignores is counted all the same. *)
Theorem reported_count_is_records_committed fuel file st :
  process_file fuel file = (Success, st) ->
  let log := flushed (conn st) in
  let rows := addresses (committed (conn st)) in
  totalCount st = len (concat log)
  /\ len rows <= totalCount st
  /\ (len rows = totalCount st -> NoDup (key_of_record <$> concat log)).
Proof.
  intros Hrun log table.
  pose proof (process_file_ok formatFloat formatComposite timeUp fault fuel file)
    as (Hrep & _ & _).
  rewrite Hrun in Hrep. simpl in Hrep. rewrite replay_concat in Hrep.
  fold log in Hrep.
  apply process_file_success in Hrun
    as (c & c1 & d & st1 & Hopen & Hbegin & Hloop & Hidx & Htotal).
  assert (Hcount : totalCount st = len (concat log)).
  { apply db_Exec_all_done in Hidx as [_ Hf]. subst log. rewrite Hf, Htotal.
    eapply tokens_loop_count; [| |exact Hloop]; [|reflexivity].
    pose proof (open_store_fresh fault) as (_ & Hf0 & _). rewrite Hopen in Hf0.
    apply Begin_done in Hbegin as [Hp Hf1]. split; [exact Hp|]. simpl in *.
    rewrite Hf1, Hf0. reflexivity. }
  assert (Htable : table = rows (insert_rows empty_table (concat log)))
    by (rewrite <- Hrep; reflexivity).
  pose proof (insert_rows_length (concat log) empty_table) as Hle.
  rewrite <- Htable in Hle.
  split; [exact Hcount|]. rewrite Hcount. unfold len. split; [simpl in Hle; lia|].
  intros Heq. apply (insert_rows_all_new _ empty_table). rewrite <- Htable.
  simpl. lia.
Qed.

(** X11.  When [processGeoJSON] returns without error, the database has
    the three indices, and the full-text table, under the tokenizer of
    the statement, holds exactly one entry for each row of [addresses]:
    the row's id with its street, house number and city. *)
Theorem index_mirrors_relation fuel geojson dbFile db log :
  processGeoJSON fuel geojson dbFile = (Success, db, log) ->
  exists d,
    db = Some d
    /\ indices d = ["idx_city"; "idx_street"; "idx_street_house"]
    /\ address_fts d = Some {| fts_tokenize := createFTSTable_tokenize;
                               fts_rows := mirror (addresses d) |}.
Proof. apply processGeoJSON_schema. Qed.

End Runs.

Lemma reported_count_is_records_committed_witness :
  let result :=
    Pipeline.process_file Fixtures.no_format_float Fixtures.no_format_composite
      Fixtures.never Fixtures.no_fault 7
      (Fixtures.collection
         [Fixtures.feature_A; Fixtures.feature_B; Fixtures.feature_A_again]) in
  result = (Success, result.2)
  /\ totalCount result.2 = 3
  /\ len (addresses (committed (conn result.2))) = 2
  /\ totalCount result.2 = len (concat (flushed (conn result.2)))
  /\ len (addresses (committed (conn result.2))) <= totalCount result.2
  /\ (len (addresses (committed (conn result.2))) = totalCount result.2 ->
      NoDup (key_of_record <$> concat (flushed (conn result.2)))).
Proof.
  intros result.
  assert (H : result = (Success, result.2)) by (vm_compute; reflexivity).
  refine (conj H (conj _ (conj _ _))); [vm_compute; reflexivity..|].
  exact (reported_count_is_records_committed Fixtures.no_format_float
           Fixtures.no_format_composite Fixtures.never Fixtures.no_fault 7
           (Fixtures.collection
              [Fixtures.feature_A; Fixtures.feature_B; Fixtures.feature_A_again])
           result.2 H).
Defined.

Lemma index_mirrors_relation_witness :
  Pipeline.processGeoJSON Fixtures.no_format_float Fixtures.no_format_composite
    Fixtures.never Fixtures.no_fault 7
    (Some (Fixtures.collection
             [Fixtures.feature_A; Fixtures.feature_B; Fixtures.feature_C])) None
  = (Success, Some Fixtures.loaded, [[Fixtures.record_A; Fixtures.record_B]])
  /\ exists d,
       Some Fixtures.loaded = Some d
       /\ indices d = ["idx_city"; "idx_street"; "idx_street_house"]
       /\ address_fts d = Some {| fts_tokenize := createFTSTable_tokenize;
                                  fts_rows := mirror (addresses d) |}.
Proof.
  assert (H : Pipeline.processGeoJSON Fixtures.no_format_float
                Fixtures.no_format_composite Fixtures.never Fixtures.no_fault 7
                (Some (Fixtures.collection
                         [Fixtures.feature_A; Fixtures.feature_B; Fixtures.feature_C]))
                None
              = (Success, Some Fixtures.loaded, [[Fixtures.record_A; Fixtures.record_B]]))
    by (vm_compute; reflexivity).
  refine (conj H _).
  exact (index_mirrors_relation _ _ _ _ _ _ _ _ _ H).
Defined.

(** ** Where a run can stop *)

Section Stops.

Variable formatFloat : float -> string.
Variable formatComposite : json -> string.
Variable timeUp : Z -> bool.
Variable fault : nat -> bool.
Variable batchSize : Z.

Local Abbreviation features_loop :=
  (Pipeline.features_loop formatFloat formatComposite timeUp fault batchSize).
Local Abbreviation tokens_loop :=
  (Pipeline.tokens_loop formatFloat formatComposite timeUp fault batchSize).
Local Abbreviation records_of := (records_of formatFloat formatComposite).

(** *** Nothing is in flight where a run stops without a store error *)

Lemma periodic_commit_flight st s st' :
  Pipeline.periodic_commit fault st = (s, st') ->
  s <> StoreError -> in_flight (conn st') = false.
Proof.
  unfold Pipeline.periodic_commit.
  pose proof (insert_and_commit_result fault (conn st) (batch st)) as Hres.
  destruct (and_then (Pipeline.bulkInsert fault (conn st) (batch st)) (Pipeline.Commit fault))
    as [c2|c2]; simpl; [|intros [= <- <-] H; contradiction].
  destruct Hres as (_ & _ & _ & _ & Hflight).
  unfold Pipeline.Begin. destruct (fault (calls c2)); intros [= <- <-] H;
    [contradiction|exact Hflight].
Qed.

Lemma accumulate_flight st record s st' :
  in_flight (conn st) = false ->
  Pipeline.accumulate timeUp fault batchSize st record = (s, st') ->
  s <> StoreError -> in_flight (conn st') = false.
Proof.
  intros Hflight. unfold Pipeline.accumulate.
  destruct (_ || _); [apply periodic_commit_flight|].
  intros [= <- <-] _. exact Hflight.
Qed.

Lemma features_loop_flight fuel : forall st s st',
  in_flight (conn st) = false ->
  features_loop fuel st = (s, st') ->
  s <> StoreError -> in_flight (conn st') = false.
Proof.
  induction fuel as [|fuel IH]; intros st s st' Hflight; simpl.
  - intros [= <- <-] _. exact Hflight.
  - destruct (More (decoder st)); [|intros [= <- <-] _; exact Hflight].
    destruct (Decode unmarshal_Feature (decoder st)) as [d feature].
    destruct feature as [feature|]; [|apply IH; exact Hflight].
    destruct (Extractor.extractAddressData _ _ feature) as [[record|]|];
      [|apply IH; exact Hflight|intros [= <- <-] _; exact Hflight].
    destruct (Pipeline.accumulate _ _ _ (with_decoder st d) record) as [s1 st1] eqn:Hacc.
    pose proof (accumulate_flight (with_decoder st d) _ _ _ Hflight Hacc) as Hflight1.
    destruct s1; try (intros [= <- <-] Hs; apply Hflight1; exact Hs).
    apply IH. apply Hflight1. discriminate.
Qed.

Lemma last_commit_flight st s st' :
  in_flight (conn st) = false ->
  Pipeline.last_commit fault st = (s, st') ->
  s <> StoreError -> in_flight (conn st') = false.
Proof.
  intros Hflight. unfold Pipeline.last_commit.
  destruct (0 <? len (batch st)); [|intros [= <- <-] _; exact Hflight].
  pose proof (insert_and_commit_result fault (conn st) (batch st)) as Hres.
  destruct (and_then _ _) as [c2|c2]; intros [= <- <-] Hs; [|contradiction].
  destruct Hres as (_ & _ & _ & _ & Hflight2). exact Hflight2.
Qed.

Lemma tokens_loop_flight fuel : forall st s st',
  in_flight (conn st) = false ->
  tokens_loop fuel st = (s, st') ->
  s <> StoreError -> in_flight (conn st') = false.
Proof.
  induction fuel as [|fuel IH]; intros st s st' Hflight; simpl.
  - intros [= <- <-] _. exact Hflight.
  - destruct (More (decoder st)); [|intros [= <- <-] _; exact Hflight].
    destruct (Token_ (decoder st)) as [d [token|]]; [|intros [= <- <-] _; exact Hflight].
    destruct (Pipeline.is_features token); [|apply IH; exact Hflight].
    destruct (Token_ d) as [d1 [open|]]; [|intros [= <- <-] _; exact Hflight].
    destruct (features_loop fuel (with_decoder st d1)) as [s1 st1] eqn:Hloop.
    pose proof (features_loop_flight fuel (with_decoder st d1) _ _ Hflight Hloop)
      as Hflight1.
    destruct s1; try (intros [= <- <-] Hs; apply Hflight1; exact Hs).
    destruct (Pipeline.last_commit fault st1) as [s2 st2] eqn:Hlast.
    pose proof (last_commit_flight _ _ _ (Hflight1 ltac:(discriminate)) Hlast) as Hflight2.
    destruct s2; try (intros [= <- <-] Hs; apply Hflight2; exact Hs).
    apply IH. apply Hflight2. discriminate.
Qed.

Lemma db_Exec_all_flight effects : forall c c',
  Pipeline.db_Exec_all fault effects c = Done c' -> in_flight c' = in_flight c.
Proof.
  induction effects as [|e effects IH]; intros c c'; simpl.
  - intros [= <-]. reflexivity.
  - unfold Pipeline.db_Exec at 1. destruct (tx c); simpl; [discriminate|].
    destruct (fault (calls c)); simpl; [discriminate|].
    intros Hdone. apply IH in Hdone. exact Hdone.
Qed.

(** *** The committed records are the first records of the file *)

Lemma held_prefix st : concat (flushed (conn st)) `prefix_of` held st.
Proof. unfold held. apply prefix_app_r. reflexivity. Qed.

Lemma periodic_commit_prefix st s st' :
  pending (conn st) = [] ->
  Pipeline.periodic_commit fault st = (s, st') ->
  concat (flushed (conn st')) `prefix_of` held st
  /\ (s = Success ->
      pending (conn st') = [] /\ held st' = held st /\ decoder st' = decoder st).
Proof.
  intros Hp. unfold Pipeline.periodic_commit.
  pose proof (insert_and_commit_result fault (conn st) (batch st)) as Hres.
  destruct (and_then (Pipeline.bulkInsert fault (conn st) (batch st)) (Pipeline.Commit fault))
    as [c2|c2]; simpl.
  - destruct Hres as (Hf & _).
    assert (Hheld : concat (flushed c2) = held st).
    { unfold held. rewrite Hf, Hp, concat_app. simpl. rewrite app_nil_r. reflexivity. }
    destruct (Begin_keeps fault c2) as [_ Hb].
    destruct (Pipeline.Begin fault c2) as [c3|c3] eqn:Hbegin; simpl in Hb;
      intros [= <- <-]; simpl; rewrite Hb, Hheld.
    + split; [reflexivity|]. intros _.
      apply Begin_done in Hbegin as [Hp3 Hf3].
      split; [exact Hp3|]. split; [|reflexivity].
      unfold held. simpl. rewrite Hf3, app_nil_r. exact Hheld.
    + split; [reflexivity|discriminate].
  - destruct Hres as [Hf _]. intros [= <- <-]. simpl. rewrite Hf.
    split; [apply held_prefix|discriminate].
Qed.

Lemma accumulate_prefix st record s st' :
  pending (conn st) = [] ->
  Pipeline.accumulate timeUp fault batchSize st record = (s, st') ->
  concat (flushed (conn st')) `prefix_of` held st ++ [record]
  /\ (s = Success ->
      pending (conn st') = [] /\ held st' = held st ++ [record]
      /\ decoder st' = decoder st).
Proof.
  intros Hp. unfold Pipeline.accumulate.
  set (st1 := {| decoder := decoder st; conn := conn st;
                 batch := batch st ++ [record]; totalCount := totalCount st + 1 |}).
  assert (Hheld : held st1 = held st ++ [record]).
  { unfold held. simpl. apply app_assoc. }
  destruct (_ || _).
  - intros Hrun. apply periodic_commit_prefix in Hrun as [Hpre Hok]; [|exact Hp].
    rewrite Hheld in Hpre, Hok. auto.
  - intros [= <- <-]. split.
    + rewrite <- Hheld. apply held_prefix.
    + intros _. auto.
Qed.

Lemma features_loop_prefix l : forall fuel first st rest stack s st',
  decoder st = at_elements first l rest stack ->
  pending (conn st) = [] ->
  features_loop fuel st = (s, st') ->
  concat (flushed (conn st')) `prefix_of` held st ++ records_of l
  /\ (s = Success ->
      pending (conn st') = [] /\ held st' = held st ++ records_of l
      /\ More (decoder st') = false).
Proof.
  induction l as [|x l IH]; intros fuel first st rest stack s st' Hdec Hp;
    (destruct fuel as [|fuel];
     [intros [= <- <-]; split; [apply prefix_app_r, held_prefix|discriminate]|]).
  - cbn [Pipeline.features_loop]. rewrite Hdec, More_at_elements.
    intros [= <- <-]. split; [apply prefix_app_r, held_prefix|]. intros _.
    unfold records_of. simpl. rewrite app_nil_r, Hdec, More_at_elements. auto.
  - cbn [Pipeline.features_loop].
    rewrite Hdec, More_at_elements, Decode_element.
    rewrite records_of_cons. unfold extract_json.
    destruct (unmarshal_Feature x) as [feature|].
    + destruct (extractAddressData_returns formatFloat formatComposite feature)
        as [[record|] ->].
      * destruct (Pipeline.accumulate _ _ _ _ record) as [s1 st1] eqn:Hacc.
        apply accumulate_prefix in Hacc as [Hpre1 Hok1]; [|exact Hp].
        cbn [with_decoder held conn batch decoder] in Hpre1, Hok1.
        change (held (with_decoder st (at_elements false l rest stack)))
          with (held st) in Hpre1, Hok1.
        destruct s1;
          try (intros [= <- <-]; split; [|discriminate];
               change (record :: records_of l) with ([record] ++ records_of l);
               rewrite app_assoc; apply prefix_app_r; exact Hpre1).
        destruct (Hok1 eq_refl) as (Hp1 & Hh1 & Hd1).
        intros Hrun.
        apply (IH fuel false st1 rest stack s st' Hd1 Hp1) in Hrun as [Hpre Hok].
        rewrite Hh1, <- app_assoc in Hpre, Hok. cbn [app] in Hpre, Hok. auto.
      * intros Hrun.
        apply (IH fuel false (with_decoder st (at_elements false l rest stack))
                 rest stack s st' eq_refl Hp) in Hrun.
        exact Hrun.
    + intros Hrun.
      apply (IH fuel false (with_decoder st (at_elements false l rest stack))
               rest stack s st' eq_refl Hp) in Hrun.
      exact Hrun.
Qed.

Lemma last_commit_prefix st s st' :
  pending (conn st) = [] ->
  Pipeline.last_commit fault st = (s, st') ->
  concat (flushed (conn st')) `prefix_of` held st /\ decoder st' = decoder st.
Proof.
  intros Hp. unfold Pipeline.last_commit.
  destruct (0 <? len (batch st)).
  - pose proof (insert_and_commit_result fault (conn st) (batch st)) as Hres.
    destruct (and_then _ _) as [c2|c2]; intros [= <- <-]; simpl.
    + destruct Hres as (Hf & _). split; [|reflexivity].
      unfold held. rewrite Hf, Hp, concat_app. simpl. rewrite app_nil_r. reflexivity.
    + destruct Hres as [Hf _]. rewrite Hf. split; [apply held_prefix|reflexivity].
  - intros [= <- <-]. split; [apply held_prefix|reflexivity].
Qed.

Lemma tokens_loop_prefix before : forall fuel first st features after s st',
  forallb plain_member before = true ->
  decoder st = at_members first (before ++ ("features", JArr features) :: after) ->
  pending (conn st) = [] ->
  tokens_loop fuel st = (s, st') ->
  concat (flushed (conn st')) `prefix_of` held st ++ records_of features.
Proof.
  induction before as [|[k v] before IH];
    intros fuel first st features after s st' Hplain Hdec Hp;
    (destruct fuel as [|fuel];
     [intros [= <- <-]; apply prefix_app_r, held_prefix|]).
  - cbn [app] in Hdec. cbn [Pipeline.tokens_loop].
    assert (Hmore : More (decoder st) = true).
    { rewrite Hdec. apply More_at_members. }
    rewrite Hmore, Hdec, Token_key. cbn [Pipeline.is_features String.eqb].
    replace (String.eqb "features" "features") with true by reflexivity.
    rewrite lex_JArr. cbn [app]. rewrite Token_open.
    match goal with
    | |- context [Pipeline.features_loop _ _ _ _ _ fuel ?st0] =>
        destruct (Pipeline.features_loop formatFloat formatComposite timeUp fault
                    batchSize fuel st0) as [s1 st1] eqn:Hloop;
        apply (features_loop_prefix features fuel true st0 (member_tail after)
                 [tokenObjectValue; tokenTopValue] s1 st1 eq_refl Hp) in Hloop
          as [Hpre1 Hok1]
    end.
    cbn [with_decoder held conn batch] in Hpre1, Hok1.
    match type of Hpre1 with
    | _ `prefix_of` held ?st0 ++ _ => change (held st0) with (held st) in Hpre1, Hok1
    end.
    destruct s1; try (intros [= <- <-]; exact Hpre1).
    destruct (Hok1 eq_refl) as (Hp1 & Hh1 & Hmore1).
    destruct (Pipeline.last_commit fault st1) as [s2 st2] eqn:Hlast.
    apply last_commit_prefix in Hlast as [Hpre2 Hd2]; [|exact Hp1].
    rewrite Hh1 in Hpre2.
    destruct s2; try (intros [= <- <-]; exact Hpre2).
    destruct fuel as [|fuel]; cbn [Pipeline.tokens_loop];
      [intros [= <- <-]; exact Hpre2|].
    rewrite Hd2, Hmore1. intros [= <- <-]. exact Hpre2.
  - cbn [forallb] in Hplain. apply andb_prop in Hplain as [Hkv Hplain].
    apply plain_member_scalar in Hkv as (Hk & sc & Hlex & Hs & Hany & Hnot).
    cbn [app] in Hdec. cbn [Pipeline.tokens_loop].
    assert (Hmore : More (decoder st) = true).
    { rewrite Hdec. apply More_at_members. }
    rewrite Hmore, Hdec, Token_key. cbn [Pipeline.is_features]. rewrite Hk.
    destruct fuel as [|fuel];
      [intros [= <- <-]; apply prefix_app_r; exact (held_prefix st)|].
    cbn [Pipeline.tokens_loop].
    cbn [with_decoder decoder More input]. rewrite Hlex. cbn [app].
    rewrite <- Hs in Hany, Hnot. rewrite (Token_scalar sc _ Hany), Hnot.
    match goal with
    | |- context [Pipeline.tokens_loop _ _ _ _ _ _ ?s0] => set (st1 := s0)
    end.
    change (held st) with (held st1).
    apply (IH fuel false st1 features after s st'); try assumption.
    subst st1. cbn [with_decoder decoder]. unfold at_members, member_tail.
    destruct (before ++ ("features", JArr features) :: after) eqn:E; [|reflexivity].
    destruct before; discriminate.
Qed.

End Stops.

Section StoppedRuns.

Variable formatFloat : float -> string.
Variable formatComposite : json -> string.
Variable timeUp : Z -> bool.
Variable fault : nat -> bool.

(** A run that stops without an error of the store stops between two
    flushes: nothing written is left uncommitted. *)
Lemma process_file_flight fuel file s st :
  Pipeline.process_file formatFloat formatComposite timeUp fault fuel file = (s, st) ->
  s <> StoreError -> in_flight (conn st) = false.
Proof.
  unfold Pipeline.process_file.
  destruct (Pipeline.open_store fault) as [c|c] eqn:Hopen;
    [|intros [= <- <-] H; contradiction].
  apply db_Exec_all_flight in Hopen. simpl in Hopen.
  destruct (Token_ (NewDecoder file)) as [d [brace|]]; [|intros [= <- <-] _; exact Hopen].
  unfold Pipeline.Begin. destruct (fault (calls c)); [intros [= <- <-] H; contradiction|].
  match goal with
  | |- context [Pipeline.tokens_loop _ _ _ _ _ fuel ?st0] =>
      destruct (Pipeline.tokens_loop formatFloat formatComposite timeUp fault
                  500000 fuel st0) as [s1 st1] eqn:Hloop;
      pose proof (tokens_loop_flight formatFloat formatComposite timeUp fault 500000
                    fuel st0 s1 st1 Hopen Hloop) as Hflight
  end.
  destruct s1; try (intros [= <- <-] Hs; apply Hflight; exact Hs).
  destruct (Pipeline.build_indices fault (conn st1)) as [c2|c2] eqn:Hidx;
    intros [= <- <-] Hs; [|contradiction].
  apply db_Exec_all_flight in Hidx. simpl. rewrite Hidx. apply Hflight. discriminate.
Qed.

(** Wherever the import of a collection stops, and whatever the store
    does, the records committed are the first records of the file, in
    their order. *)
Lemma process_file_prefix before features after fuel :
  forallb plain_member before = true ->
  concat (flushed (conn (Pipeline.process_file formatFloat formatComposite timeUp fault
                           fuel
                           (lex (JObj (before ++ ("features", JArr features) :: after)))).2))
  `prefix_of` records_of formatFloat formatComposite features.
Proof.
  intros Hplain. unfold Pipeline.process_file.
  pose proof (open_store_fresh fault) as (_ & Hf & _).
  destruct (Pipeline.open_store fault) as [c|c]; simpl in Hf;
    [|simpl; rewrite Hf; apply prefix_nil].
  rewrite lex_JObj.
  change (Token_ (NewDecoder (LBrace :: lex_members
                                (before ++ ("features", JArr features) :: after))))
    with (at_members true (before ++ ("features", JArr features) :: after),
          Some (Delim LBrace)).
  destruct (Begin_keeps fault c) as [_ Hb].
  destruct (Pipeline.Begin fault c) as [c1|c1] eqn:Hbegin; simpl in Hb;
    [|simpl; rewrite Hb, Hf; apply prefix_nil].
  apply Begin_done in Hbegin as [Hp1 _].
  match goal with
  | |- context [Pipeline.tokens_loop _ _ _ _ _ fuel ?st0] =>
      destruct (Pipeline.tokens_loop formatFloat formatComposite timeUp fault
                  500000 fuel st0) as [s1 st1] eqn:Hloop;
      apply (tokens_loop_prefix formatFloat formatComposite timeUp fault 500000
               before fuel true st0 features after s1 st1 Hplain eq_refl Hp1) in Hloop
  end.
  unfold held in Hloop. cbn [conn batch] in Hloop. rewrite Hb, Hf in Hloop.
  simpl in Hloop.
  destruct s1; try exact Hloop.
  pose proof (db_Exec_all_flushed fault
                [Pipeline.create_index "idx_city"; Pipeline.create_index "idx_street";
                 Pipeline.create_index "idx_street_house"; Pipeline.nothing;
                 Pipeline.nothing; Pipeline.nothing; Pipeline.create_fts;
                 Pipeline.populate_fts] (conn st1)) as Hidx.
  fold (Pipeline.build_indices fault (conn st1)) in Hidx.
  destruct (Pipeline.build_indices fault (conn st1)); simpl in *; rewrite Hidx; exact Hloop.
Qed.

End StoppedRuns.

(** C1 as stated fails, on either reading of the store after restart.
    Read of the file that the stopped run leaves: under the clock that
    has the first record committed at once, the import of two features
    commits its first flush, and the [tx.Commit] of the second fails; the
    insert statement of the second flush has written, there is no journal
    to undo it with, and the content of the file is undefined.  Read of
    the store after the program has run again: a run stopped after its
    first flush has committed the one record, and the run that follows
    removes the file and imports both. *)
Lemma crash_safety_counterexample : ~ crash_safety_as_stated.
Proof.
  intros [Hreopen|Hrerun].
  - pose (run := Pipeline.process_file Fixtures.no_format_float
                   Fixtures.no_format_composite Fixtures.after_first
                   Fixtures.last_commit_fails 8
                   (Fixtures.collection [Fixtures.feature_A; Fixtures.feature_B])).
    destruct (Hreopen Fixtures.no_format_float Fixtures.no_format_composite
                Fixtures.after_first Fixtures.last_commit_fails 8%nat
                (Fixtures.collection [Fixtures.feature_A; Fixtures.feature_B])
                run.1 run.2 ltac:(vm_compute; reflexivity)
                ltac:(vm_compute; discriminate)) as (d & Hd & _).
    vm_compute in Hd. discriminate Hd.
  - specialize (Hrerun Fixtures.no_format_float Fixtures.no_format_composite
                  Fixtures.after_first Fixtures.no_fault 4%nat
                  (Fixtures.collection [Fixtures.feature_A; Fixtures.feature_B]) None
                  OutOfFuel
                  (Some {| addresses := [Fixtures.row_A]; sqlite_sequence := 1;
                           indices := []; address_fts := None |})
                  [[Fixtures.record_A]]
                  ltac:(vm_compute; reflexivity) ltac:(discriminate)
                  Fixtures.never Fixtures.no_fault 8%nat Fixtures.loaded
                  [[Fixtures.record_A; Fixtures.record_B]]
                  ltac:(vm_compute; reflexivity)).
    vm_compute in Hrerun. discriminate Hrerun.
Qed.

(** C1, amended.  The committed relation of a run is at every stop the
    replay of the transactions committed so far: a flush adds its whole
    batch to it or nothing.  A run that stops otherwise than on an error
    of the store (the process is stopped between two flushes, the
    decoder fails, the extractor panics) has nothing in flight, and a run
    that stops with nothing in flight leaves in the file that committed
    relation: the rows of the flushes committed, none of the next.  A
    run that stops with a flush in flight leaves a file whose content is
    undefined, for want of a journal.  Of a feature collection the
    records committed are, at every stop and whatever the store does,
    the first records of the file in their order.  A restart keeps
    nothing: [processGeoJSON] removes the database file first, and its
    result does not depend on the store it finds. *)
Theorem flushes_are_atomic formatFloat formatComposite timeUp fault :
  (forall fuel file s st,
      Pipeline.process_file formatFloat formatComposite timeUp fault fuel file = (s, st) ->
      table_of (committed (conn st)) = replay (flushed (conn st))
      /\ (s <> StoreError -> in_flight (conn st) = false)
      /\ (in_flight (conn st) = false ->
          left_on_disk (conn st) = Intact (committed (conn st)))
      /\ (in_flight (conn st) = true -> left_on_disk (conn st) = Undefined))
  /\ (forall before features after fuel,
        forallb plain_member before = true ->
        concat (flushed (conn (Pipeline.process_file formatFloat formatComposite
                                 timeUp fault fuel
                                 (lex (JObj (before ++ ("features", JArr features)
                                                    :: after)))).2))
        `prefix_of` records_of formatFloat formatComposite features)
  /\ (forall fuel file dbFile dbFile',
        Pipeline.processGeoJSON formatFloat formatComposite timeUp fault fuel
          (Some file) dbFile
        = Pipeline.processGeoJSON formatFloat formatComposite timeUp fault fuel
            (Some file) dbFile').
Proof.
  split; [|split].
  - intros fuel file s st Hrun.
    pose proof (process_file_ok formatFloat formatComposite timeUp fault fuel file)
      as (Hrep & _).
    rewrite Hrun in Hrep.
    split; [exact Hrep|]. split; [exact (process_file_flight _ _ _ _ _ _ _ _ Hrun)|].
    unfold left_on_disk.
    replace rollback_journal with false by (vm_compute; reflexivity).
    split; intros ->; reflexivity.
  - intros before features after fuel. apply process_file_prefix.
  - intros fuel file dbFile dbFile'. reflexivity.
Qed.

(** ** The search after the import *)

Lemma search_each_runs Rank rank_leb fts_match highlight db f qs :
  address_fts db = Some f ->
  is_Some (Search.search_each Rank rank_leb fts_match highlight db qs)
  <-> forall q, q ∈ qs -> is_Some (fts_match f q).
Proof.
  intros Hf. induction qs as [|q qs IH]; simpl.
  - split; [|eauto]. intros _ q Hq. inversion Hq.
  - unfold Search.Query at 1. rewrite Hf. simpl.
    destruct (fts_match f q) as [hits|] eqn:Hq; simpl.
    + destruct (Search.search_each _ _ _ _ db qs) as [out|]; simpl.
      * split; [|eauto]. intros _ q' Hq'. apply elem_of_cons in Hq' as [->|Hq'].
        -- rewrite Hq. eauto.
        -- apply IH; eauto.
      * split; [intros [? [=]]|].
        intros Hall. exfalso.
        assert (H : is_Some (@None (list (line Rank)))).
        { apply IH. intros q' Hq'. apply Hall. apply list_elem_of_further. exact Hq'. }
        destruct H as [? [=]].
    + split; [intros [? [=]]|].
      intros Hall. specialize (Hall q (list_elem_of_here _ _)). rewrite Hq in Hall.
      destruct Hall as [? [=]].
Qed.



(** ** The loops on a document *)

Lemma with_decoder_same st : with_decoder st (decoder st) = st.
Proof. destruct st; reflexivity. Qed.

(** A [Decode] that leaves the decoder in error has returned an error. *)
Lemma Decode_error {A} (target : json -> option A) dec :
  err (Decode target dec).1 = true -> (Decode target dec).2 = None.
Proof.
  unfold Decode.
  destruct (err dec); [reflexivity|].
  destruct (tokenPrepareForDecode dec) as [dec1|]; [|reflexivity].
  destruct (negb (tokenValueAllowed (state dec1))); [reflexivity|].
  destruct (scan_value _ _) as [[j rest]|]; [discriminate|reflexivity].
Qed.

(** The error stays: every later [Decode] returns it and reads nothing. *)
Lemma Decode_stuck {A} (target : json -> option A) dec :
  err dec = true -> Decode target dec = (dec, None).
Proof. intros Herr. unfold Decode. rewrite Herr. reflexivity. Qed.

Section Shapes.

Variable formatFloat : float -> string.
Variable formatComposite : json -> string.
Variable timeUp : Z -> bool.
Variable fault : nat -> bool.
Variable batchSize : Z.

Local Abbreviation features_loop :=
  (Pipeline.features_loop formatFloat formatComposite timeUp fault batchSize).
Local Abbreviation tokens_loop :=
  (Pipeline.tokens_loop formatFloat formatComposite timeUp fault batchSize).

Lemma features_loop_stuck fuel : forall st,
  err (decoder st) = true -> More (decoder st) = true ->
  features_loop fuel st = (OutOfFuel, st).
Proof.
  induction fuel as [|fuel IH]; intros st Herr Hmore; simpl; [reflexivity|].
  rewrite Hmore, Decode_stuck by exact Herr. rewrite with_decoder_same.
  apply IH; assumption.
Qed.

(** The scan over members that are plain, two tokens a member. *)
Lemma tokens_loop_scan before : forall first st rest m,
  forallb plain_member before = true ->
  decoder st = at_members first (before ++ rest) ->
  exists first',
    tokens_loop (2 * length before + m) st
    = tokens_loop m (with_decoder st (at_members first' rest)).
Proof.
  induction before as [|[k v] before IH]; intros first st rest m Hplain Hdec.
  - exists first. simpl in *. rewrite <- Hdec, with_decoder_same. reflexivity.
  - cbn [forallb] in Hplain. apply andb_prop in Hplain as [Hkv Hplain].
    apply plain_member_scalar in Hkv as (Hk & s & Hlex & Hs & Hany & Hnot).
    cbn [app length] in *.
    replace (2 * S (length before) + m)%nat
      with (S (S (2 * length before + m))) by lia.
    cbn [Pipeline.tokens_loop].
    assert (Hmore : More (decoder st) = true).
    { rewrite Hdec. apply More_at_members. }
    rewrite Hmore, Hdec, Token_key. cbn [Pipeline.is_features]. rewrite Hk.
    cbn [with_decoder decoder More input]. rewrite Hlex. cbn [app].
    rewrite <- Hs in Hany, Hnot. rewrite (Token_scalar s _ Hany), Hnot.
    match goal with
    | |- context [Pipeline.tokens_loop _ _ _ _ _ _ ?s] => set (st1 := s)
    end.
    destruct (IH false st1 rest m Hplain) as [first' Hscan].
    { subst st1. cbn [with_decoder decoder]. unfold at_members, member_tail.
      destruct (before ++ rest); reflexivity. }
    exists first'. exact Hscan.
Qed.

(** At the [features] key: the loop over the features, the last commit,
    and the scan again. *)
Lemma tokens_loop_at_features first st features after m :
  decoder st = at_members first (("features", JArr features) :: after) ->
  tokens_loop (S m) st
  = match features_loop m
            (with_decoder st (at_elements true features (member_tail after)
                                [tokenObjectValue; tokenTopValue])) with
    | (Success, st1) =>
        match Pipeline.last_commit fault st1 with
        | (Success, st2) => tokens_loop m st2
        | stop => stop
        end
    | stop => stop
    end.
Proof.
  intros Hdec. cbn [Pipeline.tokens_loop].
  assert (Hmore : More (decoder st) = true).
  { rewrite Hdec. apply More_at_members. }
  rewrite Hmore, Hdec, Token_key. cbn [Pipeline.is_features].
  replace (String.eqb "features" "features") with true by reflexivity.
  rewrite lex_JArr. cbn [app]. rewrite Token_open. reflexivity.
Qed.

Lemma tokens_loop_at_end st m :
  More (decoder st) = false -> tokens_loop (S m) st = (Success, st).
Proof. intros Hmore. simpl. rewrite Hmore. reflexivity. Qed.

(** With the clock below the ceiling and the batch below its size, the
    loop over the features calls the store not once. *)
Lemma features_loop_quiet l : forall first st rest stack m,
  (forall k, timeUp k = false) ->
  decoder st = at_elements first l rest stack ->
  len (batch st) + len (records_of formatFloat formatComposite l) < batchSize ->
  exists d,
    More d = false
    /\ features_loop (length l + 1 + m) st
       = (Success,
          {| decoder := d; conn := conn st;
             batch := batch st ++ records_of formatFloat formatComposite l;
             totalCount :=
               totalCount st + len (records_of formatFloat formatComposite l) |}).
Proof.
  induction l as [|x l IH]; intros first st rest stack m Hnever Hdec Hsmall.
  - exists (decoder st). cbn [length Nat.add Pipeline.features_loop].
    rewrite Hdec, More_at_elements. split; [reflexivity|].
    rewrite <- Hdec. destruct st. unfold records_of. simpl.
    rewrite app_nil_r, Z.add_0_r. reflexivity.
  - cbn [length Nat.add Pipeline.features_loop].
    rewrite Hdec, More_at_elements, Decode_element.
    rewrite records_of_cons in *. unfold extract_json in *.
    destruct (unmarshal_Feature x) as [feature|].
    + destruct (extractAddressData_returns formatFloat formatComposite feature)
        as [[record|] Hrec]; rewrite Hrec in *.
      * unfold Pipeline.accumulate. cbn [with_decoder decoder conn batch totalCount].
        rewrite Hnever, orb_false_r.
        rewrite len_cons in Hsmall.
        pose proof (len_nonneg (records_of formatFloat formatComposite l)).
        destruct (Z.leb_spec batchSize (len (batch st ++ [record]))) as [Hfull|_].
        { rewrite len_app, len_cons, len_nil in Hfull. lia. }
        match goal with
        | |- context [Pipeline.features_loop _ _ _ _ _ _ ?s] => set (st1 := s)
        end.
        destruct (IH false st1 rest stack m Hnever eq_refl) as (d & Hmore & Hrun).
        { subst st1. simpl. rewrite len_app, len_cons, len_nil. lia. }
        exists d. split; [exact Hmore|]. rewrite Hrun. subst st1. simpl.
        rewrite <- app_assoc, len_cons. simpl. do 2 f_equal. lia.
      * apply (IH false (with_decoder st (at_elements false l rest stack)) rest stack m);
          auto.
    + apply (IH false (with_decoder st (at_elements false l rest stack)) rest stack m);
        auto.
Qed.

End Shapes.

(** X6.  When [Decode] meets a syntax error in the features array (a
    malformed feature, or a file that ends inside one), the error stays
    in the decoder while [More] goes on reporting input: the loop over
    the features goes round without end.  However long it runs it has
    not returned, and it changes nothing but the decoder. *)
Theorem syntax_error_never_ends formatFloat formatComposite timeUp fault batchSize
  (st : Loader) :
  More (decoder st) = true ->
  err (Decode unmarshal_Feature (decoder st)).1 = true ->
  More (Decode unmarshal_Feature (decoder st)).1 = true ->
  forall fuel,
    exists d,
      Pipeline.features_loop formatFloat formatComposite timeUp fault batchSize fuel st
      = (OutOfFuel, with_decoder st d).
Proof.
  intros Hmore Herr Hmore1 [|fuel].
  - exists (decoder st). rewrite with_decoder_same. reflexivity.
  - exists (Decode unmarshal_Feature (decoder st)).1.
    pose proof (Decode_error unmarshal_Feature (decoder st) Herr) as Hnone.
    cbn [Pipeline.features_loop]. rewrite Hmore.
    destruct (Decode unmarshal_Feature (decoder st)) as [d x]. simpl in *. subst x.
    apply features_loop_stuck; assumption.
Qed.

Lemma syntax_error_never_ends_witness :
  More (decoder Scenarios.cut_off) = true
  /\ err (Decode unmarshal_Feature (decoder Scenarios.cut_off)).1 = true
  /\ More (Decode unmarshal_Feature (decoder Scenarios.cut_off)).1 = true
  /\ forall fuel,
       exists d,
         Pipeline.features_loop Fixtures.no_format_float Fixtures.no_format_composite
           Fixtures.never Fixtures.no_fault 500000 fuel Scenarios.cut_off
         = (OutOfFuel, with_decoder Scenarios.cut_off d).
Proof.
  refine (conj eq_refl (conj eq_refl (conj eq_refl _))).
  exact (syntax_error_never_ends Fixtures.no_format_float Fixtures.no_format_composite
           Fixtures.never Fixtures.no_fault 500000 Scenarios.cut_off
           eq_refl eq_refl eq_refl).
Defined.

(** ** Imports without a periodic commit *)

Section Small.

Variable formatFloat : float -> string.
Variable formatComposite : json -> string.
Variable timeUp : Z -> bool.
Variable fault : nat -> bool.

Local Abbreviation records_of := (records_of formatFloat formatComposite).

Lemma process_file_small before features after n :
  (forall k, timeUp k = false) ->
  forallb plain_member before = true ->
  len (records_of features) < 500000 ->
  let '(s, st) :=
    Pipeline.process_file formatFloat formatComposite timeUp fault
      (2 * length before + length features + 2 + n)
      (lex (JObj (before ++ ("features", JArr features) :: after))) in
  (flushed (conn st) = []
   \/ (records_of features <> [] /\ flushed (conn st) = [records_of features]))
  /\ (s = Success -> concat (flushed (conn st)) = records_of features).
Proof.
  intros Hnever Hplain Hsmall.
  unfold Pipeline.process_file.
  pose proof (open_store_fresh fault) as (_ & Hf & _).
  destruct (Pipeline.open_store fault) as [c|c]; simpl in Hf;
    [|simpl; split; [left; exact Hf|discriminate]].
  rewrite lex_JObj.
  change (Token_ (NewDecoder (LBrace :: lex_members
                                (before ++ ("features", JArr features) :: after))))
    with (at_members true (before ++ ("features", JArr features) :: after),
          Some (Delim LBrace)).
  destruct (Begin_keeps fault c) as [_ Hb].
  destruct (Pipeline.Begin fault c) as [c1|c1] eqn:Hbegin; simpl in Hb;
    [|simpl; split; [left; congruence|discriminate]].
  apply Begin_done in Hbegin as [Hp1 Hf1]. rewrite Hf in Hf1.
  set (st0 := {| decoder := at_members true
                              (before ++ ("features", JArr features) :: after);
                 conn := c1; batch := []; totalCount := 0 |}).
  destruct (tokens_loop_scan formatFloat formatComposite timeUp fault 500000
              before true st0 (("features", JArr features) :: after)
              (length features + 2 + n) Hplain eq_refl) as [first' Hscan].
  replace (2 * length before + length features + 2 + n)%nat
    with (2 * length before + (length features + 2 + n))%nat by lia.
  rewrite Hscan.
  replace (length features + 2 + n)%nat with (S (length features + 1 + n)) by lia.
  rewrite (tokens_loop_at_features formatFloat formatComposite timeUp fault 500000
             first'
             (with_decoder st0 (at_members first' (("features", JArr features) :: after)))
             features after _ eq_refl).
  destruct (features_loop_quiet formatFloat formatComposite timeUp fault 500000
              features true
              (with_decoder (with_decoder st0
                               (at_members first' (("features", JArr features) :: after)))
                 (at_elements true features (member_tail after)
                    [tokenObjectValue; tokenTopValue]))
              (member_tail after) [tokenObjectValue; tokenTopValue] n
              Hnever eq_refl Hsmall) as (d & Hmore & Hloop).
  rewrite Hloop. cbn [with_decoder conn batch totalCount st0 app].
  unfold Pipeline.last_commit. cbn [batch conn].
  assert (Hidx : forall c2, flushed (conn_of (Pipeline.build_indices fault c2)) = flushed c2).
  { intros c2. apply db_Exec_all_flushed. }
  destruct (Z.ltb_spec 0 (len (records_of features))) as [Hpos|Hzero].
  - assert (Hne : records_of features <> []).
    { intros E. rewrite E in Hpos. discriminate. }
    pose proof (insert_and_commit_result fault c1 (records_of features)) as Hres.
    destruct (and_then _ _) as [c2|c2].
    + destruct Hres as (Hf2 & _). rewrite Hf1, Hp1 in Hf2. simpl in Hf2.
      unfold with_conn. cbn [decoder conn batch totalCount].
      replace (length features + 1 + n)%nat with (S (length features + n)) by lia.
      rewrite tokens_loop_at_end by exact Hmore. cbn [conn].
      specialize (Hidx c2).
      destruct (Pipeline.build_indices fault c2) as [c3|c3]; simpl in *;
        rewrite Hidx, Hf2; simpl; rewrite app_nil_r; auto.
    + destruct Hres as [Hf2 _]. simpl. rewrite Hf2, Hf1. split; [auto|discriminate].
  - assert (Hnil : records_of features = []).
    { destruct (records_of features); [reflexivity|].
      rewrite len_cons in Hzero. pose proof (len_nonneg l). lia. }
    replace (length features + 1 + n)%nat with (S (length features + n)) by lia.
    rewrite tokens_loop_at_end by exact Hmore. cbn [conn].
    specialize (Hidx c1).
    destruct (Pipeline.build_indices fault c1) as [c3|c3]; simpl in *;
      rewrite Hidx, Hf1, Hnil; auto.
Qed.


End Small.


Section NoFeatures.

Variable formatFloat : float -> string.
Variable formatComposite : json -> string.
Variable timeUp : Z -> bool.
Variable fault : nat -> bool.

(** X5.  A document without a [features] member (its members scalars
    under other keys) imports nothing, whatever the store does: no
    record is counted, no transaction is committed and the relation
    stays empty.  Nor does the import return without error: the
    transaction begun before the scan is never committed, and the first
    statement of the index build, sent outside it, finds the file
    locked.  When the store fails no call of its own accord that is the
    error returned, with the transaction still open, no index and no
    full-text table. *)
Theorem no_features_member members n s st :
  forallb plain_member members = true ->
  Pipeline.process_file formatFloat formatComposite timeUp fault
    (2 * length members + 1 + n) (lex (JObj members))
  = (s, st) ->
  (totalCount st = 0 /\ flushed (conn st) = [] /\ addresses (committed (conn st)) = [])
  /\ s <> Success
  /\ ((forall k, fault k = false) ->
      s = StoreError
      /\ tx (conn st) = Some empty_table
      /\ committed (conn st) = empty_database).
Proof.
  intros Hplain. unfold Pipeline.process_file.
  pose proof (open_store_fresh fault) as (Ha & Hf & Ht & _).
  assert (Hrows : forall d, table_of d = empty_table -> addresses d = []).
  { intros d Hd. change (addresses d) with (rows (table_of d)). rewrite Hd. reflexivity. }
  destruct (Pipeline.open_store fault) as [c|c] eqn:Hopen; simpl in Ha, Hf, Ht.
  2:{ intros [= <- <-]. simpl. split; [auto|]. split; [discriminate|].
      intros Hfree. unfold Pipeline.open_store in Hopen.
      match type of Hopen with
      | Pipeline.db_Exec_all fault ?effects ?c0 = _ =>
          destruct (db_Exec_all_runs fault Hfree effects c0 eq_refl) as (c' & Hc' & _)
      end.
      congruence. }
  apply db_Exec_all_done in Hopen as [Hcom _].
  assert (Hempty : committed c = empty_database) by (rewrite Hcom; reflexivity).
  clear Hcom.
  rewrite lex_JObj.
  change (Token_ (NewDecoder (LBrace :: lex_members members)))
    with (at_members true members, Some (Delim LBrace)).
  unfold Pipeline.Begin.
  destruct (fault (calls c)) eqn:Hfault.
  { intros [= <- <-]. simpl. split; [auto|]. split; [discriminate|].
    intros Hfree. rewrite Hfree in Hfault. discriminate. }
  match goal with
  | |- context [Pipeline.tokens_loop _ _ _ _ _ _ ?s] => set (st0 := s)
  end.
  destruct (tokens_loop_scan formatFloat formatComposite timeUp fault 500000
              members true st0 [] (1 + n) Hplain) as [first' Hscan].
  { subst st0. cbn [decoder]. rewrite app_nil_r. reflexivity. }
  replace (2 * length members + 1 + n)%nat
    with (2 * length members + (1 + n))%nat by lia.
  rewrite Hscan. cbn [Nat.add].
  rewrite tokens_loop_at_end by (destruct first'; reflexivity).
  cbn [with_decoder conn st0].
  unfold Pipeline.build_indices. rewrite db_Exec_all_locked by (simpl; eauto).
  intros [= <- <-]. simpl. rewrite Hf, Hempty.
  split; [auto|]. split; [discriminate|]. auto.
Qed.

End NoFeatures.

Lemma no_features_member_witness :
  let result :=
    Pipeline.process_file Fixtures.no_format_float Fixtures.no_format_composite
      Fixtures.never Fixtures.no_fault (2 * length Scenarios.type_member + 1 + 0)
      (lex (JObj Scenarios.type_member)) in
  forallb plain_member Scenarios.type_member = true
  /\ result = (StoreError, result.2)
  /\ (totalCount result.2 = 0
      /\ flushed (conn result.2) = []
      /\ addresses (committed (conn result.2)) = [])
  /\ StoreError <> Success
  /\ ((forall k, Fixtures.no_fault k = false) ->
      StoreError = StoreError
      /\ tx (conn result.2) = Some empty_table
      /\ committed (conn result.2) = empty_database).
Proof.
  intros result.
  assert (H1 : forallb plain_member Scenarios.type_member = true) by reflexivity.
  assert (H2 : result = (StoreError, result.2)) by (vm_compute; reflexivity).
  refine (conj H1 (conj H2 _)).
  exact (no_features_member Fixtures.no_format_float Fixtures.no_format_composite
           Fixtures.never Fixtures.no_fault Scenarios.type_member 0%nat
           StoreError result.2 H1 H2).
Defined.

(** ** The statements of [bulkInsert] *)

Lemma placeholders_append a b :
  placeholders (String.append a b) = (placeholders a + placeholders b)%nat.
Proof. induction a as [|x a IH]; simpl; [reflexivity|]. rewrite IH. lia. Qed.

Lemma tuples_arguments rs : tuples (rs ≫= arguments) = Some rs.
Proof.
  induction rs as [|r rs IH]; [reflexivity|].
  cbn [mbind list_bind arguments app]. cbn [tuples]. rewrite IH. destruct r; reflexivity.
Qed.

Lemma build_insert_spec b : forall j query rs,
  (0 < j <-> rs <> []) ->
  0 <= j ->
  let '(query', args') := build_insert j b query (rs ≫= arguments) in
  placeholders query' = (placeholders query + 5 * length b)%nat
  /\ args' = (rs ++ b) ≫= arguments.
Proof.
  induction b as [|r b IH]; intros j query rs Hj Hpos; simpl.
  - rewrite app_nil_r. split; [lia|reflexivity].
  - specialize (IH (j + 1)
                  (String.append (if 0 <? j then String.append query "," else query)
                     "(?, ?, ?, ?, ?)")
                  (rs ++ [r])).
    rewrite bind_app in IH. cbn [mbind list_bind arguments app] in IH.
    destruct (build_insert _ b _ _) as [query' args'].
    destruct IH as (Hq & Ht).
    + split; [intros _|lia]. destruct rs; discriminate.
    + lia.
    + rewrite Hq, Ht, placeholders_append, <- app_assoc. simpl.
      destruct (0 <? j); [rewrite placeholders_append|]; simpl; split; (lia || reflexivity).
Qed.

(** X13.  The statement that [bulkInsert] builds for a batch has one
    [?] for each argument and five arguments for each record, the
    arguments are the records of the batch in order (street, house
    number, city, longitude, latitude), and a batch of at most
    [maxRecordsPerBatch] records binds at most 2500 variables. *)
Theorem insert_statement_binds_batch (currentBatch : list AddressRecord) :
  let '(query, args) := insert_statement currentBatch in
  placeholders query = length args
  /\ length args = (5 * length currentBatch)%nat
  /\ tuples args = Some currentBatch
  /\ (len currentBatch <= maxRecordsPerBatch -> (length args <= 2500)%nat).
Proof.
  unfold insert_statement.
  pose proof (build_insert_spec currentBatch 0
                "INSERT OR IGNORE INTO addresses (street, house_number, city, longitude, latitude) VALUES "
                [] ltac:(split; [lia|congruence]) ltac:(lia)) as H.
  cbn [mbind list_bind app] in H.
  destruct (build_insert _ _ _ _) as [query args].
  destruct H as (Hq & ->).
  assert (Hlen : length (currentBatch ≫= arguments) = (5 * length currentBatch)%nat).
  { clear. induction currentBatch as [|r rs IH]; [reflexivity|].
    cbn [mbind list_bind arguments app length] in *. rewrite IH. lia. }
  rewrite Hlen, Hq, tuples_arguments.
  split; [simpl; lia|]. split; [reflexivity|]. split; [reflexivity|].
  unfold maxRecordsPerBatch, len. lia.
Qed.

Lemma and_then_ext r k k' : (forall c, k c = k' c) -> and_then r k = and_then r k'.
Proof. intros H. destruct r; simpl; [apply H|reflexivity]. Qed.

Lemma bulkInsert_from_chunks fault records fuel : forall i c,
  Pipeline.bulkInsert_from fault fuel (Z.of_nat i) records c
  = Exec_each fault (chunks fuel 500 (drop i records)) c.
Proof.
  induction fuel as [|fuel IH]; intros i c; simpl; [reflexivity|].
  unfold maxRecordsPerBatch, len.
  destruct (Z.ltb_spec (Z.of_nat i) (Z.of_nat (length records))) as [Hlt|Hge].
  - destruct (drop i records) as [|x rest] eqn:Hdrop.
    { apply (f_equal length) in Hdrop. rewrite length_drop in Hdrop. simpl in Hdrop. lia. }
    rewrite <- Hdrop. simpl.
    assert (Hchunk : take (Z.to_nat ((if Z.of_nat (length records) <? Z.of_nat i + 500
                                      then Z.of_nat (length records)
                                      else Z.of_nat i + 500) - Z.of_nat i))
                          (drop i records)
                     = take 500 (drop i records)).
    { destruct (Z.ltb_spec (Z.of_nat (length records)) (Z.of_nat i + 500)).
      - rewrite !take_ge; [reflexivity| |]; rewrite length_drop; lia.
      - f_equal. lia. }
    rewrite Nat2Z.id, Hchunk.
    apply and_then_ext. intros c1.
    replace (Z.of_nat i + 500) with (Z.of_nat (i + 500)) by lia.
    rewrite IH, drop_drop. reflexivity.
  - rewrite drop_ge by lia. reflexivity.
Qed.

Lemma chunks_fuel size fuel : forall records,
  (0 < size)%nat -> (length records <= fuel)%nat ->
  chunks (S fuel) size records = chunks fuel size records.
Proof.
  induction fuel as [|fuel IH]; intros records Hsize Hlen.
  - destruct records; [reflexivity|simpl in Hlen; lia].
  - destruct records as [|x rest]; [reflexivity|].
    change (chunks (S (S fuel)) size (x :: rest))
      with (take size (x :: rest) :: chunks (S fuel) size (drop size (x :: rest))).
    rewrite IH; [reflexivity|exact Hsize|].
    rewrite length_drop. simpl in *. lia.
Qed.

Lemma chunks_spec size fuel : forall records,
  (0 < size)%nat -> (length records <= fuel)%nat ->
  concat (chunks fuel size records) = records
  /\ Forall (fun b => (0 < length b <= size)%nat) (chunks fuel size records).
Proof.
  induction fuel as [|fuel IH]; intros records Hsize Hlen.
  - destruct records; [split; [reflexivity|constructor]|simpl in Hlen; lia].
  - destruct records as [|x rest]; [split; [reflexivity|constructor]|].
    change (chunks (S fuel) size (x :: rest))
      with (take size (x :: rest) :: chunks fuel size (drop size (x :: rest))).
    destruct (IH (drop size (x :: rest)) Hsize) as [Hcat Hall].
    { rewrite length_drop. simpl in *. lia. }
    split.
    + cbn [concat]. rewrite Hcat. apply take_drop.
    + constructor; [|exact Hall]. rewrite length_take. simpl. lia.
Qed.

(** X12.  [bulkInsert] runs one statement for each batch of consecutive
    records, in order and up to the first error; the batches are not
    empty, hold at most [maxRecordsPerBatch] records each, and together
    are the records given. *)
Theorem bulkInsert_statements fault (c : Conn) (records : list AddressRecord) :
  let batches := chunks (length records) 500 records in
  Pipeline.bulkInsert fault c records = Exec_each fault batches c
  /\ concat batches = records
  /\ Forall (fun b => 0 < len b <= maxRecordsPerBatch) batches.
Proof.
  intros batches.
  destruct (chunks_spec 500 (length records) records ltac:(lia) ltac:(lia)) as [Hcat Hall].
  split; [|split; [exact Hcat|]].
  - unfold Pipeline.bulkInsert, len.
    destruct records as [|x rest]; [reflexivity|].
    replace (Z.of_nat (length (x :: rest)) =? 0) with false
      by (symmetry; apply Z.eqb_neq; simpl; lia).
    rewrite (bulkInsert_from_chunks fault (x :: rest) _ 0 c). simpl drop.
    rewrite chunks_fuel by lia. reflexivity.
  - eapply Forall_impl; [exact Hall|]. intros b Hb. cbv beta in Hb.
    unfold len, maxRecordsPerBatch. lia.
Qed.

(** ** Collections with the same records *)

Section Collections.

Variable formatFloat : float -> string.
Variable formatComposite : json -> string.
Variable fault : nat -> bool.
Hypothesis fault_free : forall k, fault k = false.

Local Abbreviation records_of := (records_of formatFloat formatComposite).

(** The import of a collection on a store that fails no call of its own
    accord: the status, the records committed, the relation and what is
    built over it. *)
Lemma collection_import timeUp before features after n dbFile :
  forallb plain_member before = true ->
  exists db log,
    Pipeline.processGeoJSON formatFloat formatComposite timeUp fault
      (2 * length before + length features + 2 + n)
      (Some (lex (JObj (before ++ ("features", JArr features) :: after)))) dbFile
    = (import_status timeUp (records_of features), Some db, log)
    /\ concat log = records_of features
    /\ table_of db = insert_rows empty_table (records_of features)
    /\ (indices db, address_fts db)
       = schema_after (import_status timeUp (records_of features)) (addresses db).
Proof.
  intros Hplain.
  destruct (collection_loaded formatFloat formatComposite timeUp fault fault_free
              before features after n dbFile Hplain) as (db & log & Hrun & Hlog & Hdb).
  exists db, log. split; [exact Hrun|]. split; [exact Hlog|]. split; [exact Hdb|].
  destruct (import_status timeUp (records_of features)) eqn:Hs;
    try (unfold Pipeline.processGeoJSON in Hrun;
         destruct (Pipeline.process_file _ _ _ _ _ _) as [s st] eqn:Hfile;
         injection Hrun as -> <- _;
         apply (process_file_unindexed _ _ _ _ _ _ _ _ fault_free) in Hfile as [-> ->];
         [reflexivity|discriminate]).
  destruct (processGeoJSON_schema _ _ _ _ _ _ _ _ _ Hrun) as (d & [= <-] & -> & ->).
  reflexivity.
Qed.

(** Two collections with the same records: the same relation and the
    same records committed, whatever the clock does in either run, and
    the same database when the two runs end alike. *)
Lemma same_records_same_table timeUp timeUp' before after features features' n n' dbFile :
  forallb plain_member before = true ->
  records_of features = records_of features' ->
  exists db db' log log',
    Pipeline.processGeoJSON formatFloat formatComposite timeUp fault
      (2 * length before + length features + 2 + n)
      (Some (lex (JObj (before ++ ("features", JArr features) :: after)))) dbFile
    = (import_status timeUp (records_of features'), Some db, log)
    /\ Pipeline.processGeoJSON formatFloat formatComposite timeUp' fault
         (2 * length before + length features' + 2 + n')
         (Some (lex (JObj (before ++ ("features", JArr features') :: after)))) dbFile
       = (import_status timeUp' (records_of features'), Some db', log')
    /\ concat log = records_of features'
    /\ concat log' = records_of features'
    /\ table_of db = table_of db'
    /\ (import_status timeUp (records_of features')
        = import_status timeUp' (records_of features') -> db = db').
Proof.
  intros Hplain Hsame.
  destruct (collection_import timeUp before features after n dbFile Hplain)
    as (db & log & Hrun & Hlog & Hdb & Hschema).
  destruct (collection_import timeUp' before features' after n' dbFile Hplain)
    as (db' & log' & Hrun' & Hlog' & Hdb' & Hschema').
  rewrite Hsame in *.
  assert (Htable : table_of db = table_of db') by congruence.
  exists db, db', log, log'. repeat (split; [assumption|]).
  intros Hs. rewrite Hs in Hschema.
  assert (Hrows : addresses db = addresses db') by exact (f_equal rows Htable).
  rewrite Hrows in Hschema. rewrite <- Hschema' in Hschema.
  injection Hschema as Hi Hf. apply database_eq; assumption.
Qed.

End Collections.

(** X7.  A feature from which no record is made (it is not decoded as a
    feature, has no street, no usable coordinate, or the coordinate
    (0, 0)) leaves no trace: on a store that fails no call of its own
    accord, the import of the collection with the feature and the import
    of the collection without it commit the same records and leave the
    same relation, ids included, whatever the clock does in either run.
    Each run ends as its clock has it end on these records, and the two
    leave the same database when they end alike. *)
Theorem excluded_features_leave_no_trace formatFloat formatComposite timeUp timeUp' fault
  before l1 f l2 after n n' dbFile :
  (forall k, fault k = false) ->
  forallb plain_member before = true ->
  extract_json formatFloat formatComposite f = None ->
  let records := records_of formatFloat formatComposite (l1 ++ l2) in
  exists db db' log log',
    Pipeline.processGeoJSON formatFloat formatComposite timeUp fault
      (2 * length before + length (l1 ++ f :: l2) + 2 + n)
      (Some (lex (JObj (before ++ ("features", JArr (l1 ++ f :: l2)) :: after)))) dbFile
    = (import_status timeUp records, Some db, log)
    /\ Pipeline.processGeoJSON formatFloat formatComposite timeUp' fault
         (2 * length before + length (l1 ++ l2) + 2 + n')
         (Some (lex (JObj (before ++ ("features", JArr (l1 ++ l2)) :: after)))) dbFile
       = (import_status timeUp' records, Some db', log')
    /\ concat log = records
    /\ concat log' = records
    /\ table_of db = table_of db'
    /\ (import_status timeUp records = import_status timeUp' records -> db = db').
Proof.
  intros Hfree Hplain Hf records.
  apply (same_records_same_table formatFloat formatComposite fault Hfree timeUp timeUp'
           before after (l1 ++ f :: l2) (l1 ++ l2) n n' dbFile Hplain).
  rewrite !records_of_app, records_of_cons, Hf. reflexivity.
Qed.

Lemma excluded_features_leave_no_trace_witness :
  (forall k, Fixtures.no_fault k = false)
  /\ forallb plain_member Scenarios.type_member = true
  /\ extract_json Fixtures.no_format_float Fixtures.no_format_composite
       Fixtures.feature_C = None
  /\ let records :=
       records_of Fixtures.no_format_float Fixtures.no_format_composite
         ([Fixtures.feature_A] ++ [Fixtures.feature_B]) in
     exists db db' log log',
       Pipeline.processGeoJSON Fixtures.no_format_float Fixtures.no_format_composite
         Fixtures.never Fixtures.no_fault
         (2 * length Scenarios.type_member
          + length ([Fixtures.feature_A] ++ Fixtures.feature_C :: [Fixtures.feature_B])
          + 2 + 0)
         (Some (lex (JObj (Scenarios.type_member
                           ++ ("features",
                               JArr ([Fixtures.feature_A]
                                     ++ Fixtures.feature_C :: [Fixtures.feature_B]))
                              :: []))))
         None
       = (import_status Fixtures.never records, Some db, log)
       /\ Pipeline.processGeoJSON Fixtures.no_format_float Fixtures.no_format_composite
            Fixtures.after_first Fixtures.no_fault
            (2 * length Scenarios.type_member
             + length ([Fixtures.feature_A] ++ [Fixtures.feature_B]) + 2 + 0)
            (Some (lex (JObj (Scenarios.type_member
                              ++ ("features",
                                  JArr ([Fixtures.feature_A] ++ [Fixtures.feature_B]))
                                 :: []))))
            None
          = (import_status Fixtures.after_first records, Some db', log')
       /\ concat log = records
       /\ concat log' = records
       /\ table_of db = table_of db'
       /\ (import_status Fixtures.never records
           = import_status Fixtures.after_first records -> db = db').
Proof.
  assert (H1 : forall k, Fixtures.no_fault k = false) by reflexivity.
  assert (H2 : forallb plain_member Scenarios.type_member = true) by reflexivity.
  assert (H3 : extract_json Fixtures.no_format_float Fixtures.no_format_composite
                 Fixtures.feature_C = None) by (vm_compute; reflexivity).
  refine (conj H1 (conj H2 (conj H3 _))).
  exact (excluded_features_leave_no_trace Fixtures.no_format_float
           Fixtures.no_format_composite Fixtures.never Fixtures.after_first
           Fixtures.no_fault Scenarios.type_member [Fixtures.feature_A]
           Fixtures.feature_C [Fixtures.feature_B] [] 0%nat 0%nat None H1 H2 H3).
Defined.







(** ** The record of a feature *)

(** X16.  [extractAddressData] returns a record exactly when the feature
    has the property [addr:street], its geometry gives a coordinate, and
    the coordinate is not (0, 0); the record then carries the printed
    street, the printed house number ([nil] when the property is
    absent), the city of the fallback and that coordinate. *)
Theorem extractAddressData_record formatFloat formatComposite (feature : Feature)
  (r : AddressRecord) :
  Extractor.extractAddressData formatFloat formatComposite feature = Ret (Some r)
  <-> exists street lon lat,
        Properties feature !! "addr:street" = Some street
        /\ first_pair (Feature_Geometry feature) = Some (lon, lat)
        /\ both_zero lon lat = false
        /\ r = {| Street := Extractor.Sprintf_v formatFloat formatComposite street;
                  HouseNumber :=
                    Extractor.Sprintf_v formatFloat formatComposite
                      (default JNull (Properties feature !! "addr:housenumber"));
                  City :=
                    Extractor.Sprintf_v formatFloat formatComposite
                      (Extractor.resolve_city (Properties feature));
                  Lon := lon;
                  Lat := lat |}.
Proof.
  assert (Hhouse : fst (map_index (Properties feature) "addr:housenumber")
                   = default JNull (Properties feature !! "addr:housenumber")).
  { unfold map_index. destruct (_ !! _); reflexivity. }
  destruct (Documented.payload_depth (Geometry_Type (Feature_Geometry feature))) eqn:Hdepth.
  - pose proof (coordinates_switch_first_pair (Feature_Geometry feature)
                  ltac:(congruence)) as Hsw.
    rewrite (extractAddressData_unfold _ _ feature _ Hsw), Hhouse.
    destruct (Properties feature !! "addr:street") as [street|].
    + destruct (first_pair (Feature_Geometry feature)) as [[lon lat]|]; simpl.
      * destruct (both_zero lon lat) eqn:Hzero.
        -- split; [discriminate|]. intros (? & ? & ? & _ & [= <- <-] & ? & _). congruence.
        -- split.
           ++ intros [= <-]. eauto 10.
           ++ intros (? & ? & ? & [= <-] & [= <- <-] & _ & ->). reflexivity.
      * replace (both_zero 0 0) with true by (vm_compute; reflexivity).
        split; [discriminate|]. intros (? & ? & ? & _ & ? & _). discriminate.
    + split; [discriminate|]. intros (? & ? & ? & ? & _). discriminate.
  - rewrite (extractAddressData_unfold _ _ feature None
               (coordinates_switch_unknown _ Hdepth)).
    assert (Hnone : first_pair (Feature_Geometry feature) = None).
    { unfold Documented.payload_depth in Hdepth. unfold first_pair.
      repeat (destruct (String.eqb _ _); [discriminate|]). reflexivity. }
    rewrite Hnone.
    split.
    + destruct (Properties feature !! "addr:street"); simpl; discriminate.
    + intros (? & ? & ? & _ & ? & _). discriminate.
Qed.

(** The text fields of a record in terms of the properties. *)
Lemma extractAddressData_fields formatFloat formatComposite (feature : Feature) r :
  Extractor.extractAddressData formatFloat formatComposite feature = Ret (Some r) ->
  exists street,
    Properties feature !! "addr:street" = Some street
    /\ Street r = Extractor.Sprintf_v formatFloat formatComposite street
    /\ HouseNumber r = Extractor.Sprintf_v formatFloat formatComposite
                         (default JNull (Properties feature !! "addr:housenumber"))
    /\ City r = Extractor.Sprintf_v formatFloat formatComposite
                  (Extractor.resolve_city (Properties feature)).
Proof.
  intros Hr.
  destruct (coordinates_switch_returns (Feature_Geometry feature)) as [c Hc].
  rewrite (extractAddressData_unfold _ _ feature c Hc) in Hr.
  destruct (Properties feature !! "addr:street") as [street|]; [|discriminate].
  destruct c as [[lon lat]|]; [|discriminate].
  destruct (both_zero lon lat); [discriminate|].
  injection Hr as <-. exists street. simpl.
  split; [reflexivity|]. split; [reflexivity|]. split; [|reflexivity].
  unfold map_index. destruct (_ !! _); reflexivity.
Qed.

(** X17.  The city of a record is the printed [addr:city] when that key
    is present, whatever its value; otherwise the printed [addr:town]
    when present; otherwise the printed [addr:village] when present;
    otherwise the empty string. *)
Theorem city_fallback formatFloat formatComposite (feature : Feature) r :
  Extractor.extractAddressData formatFloat formatComposite feature = Ret (Some r) ->
  let properties := Properties feature in
  let text := Extractor.Sprintf_v formatFloat formatComposite in
  City r = match properties !! "addr:city" with
           | Some city => text city
           | None =>
               match properties !! "addr:town" with
               | Some town => text town
               | None =>
                   match properties !! "addr:village" with
                   | Some village => text village
                   | None => ""
                   end
               end
           end.
Proof.
  intros Hr properties text.
  destruct (extractAddressData_fields _ _ _ _ Hr) as (_ & _ & _ & _ & ->).
  unfold Extractor.resolve_city, map_index. fold properties.
  destruct (properties !! "addr:city"); [reflexivity|]. simpl.
  destruct (properties !! "addr:town"); [reflexivity|].
  destruct (properties !! "addr:village"); reflexivity.
Qed.

Lemma city_fallback_witness :
  let r := {| Street := "Hauptstraße"; HouseNumber := "<nil>"; City := "<nil>";
              Lon := 11; Lat := 49.5 |} in
  Extractor.extractAddressData Fixtures.no_format_float Fixtures.no_format_composite
    Scenarios.town_and_village = Ret (Some r)
  /\ City r = "<nil>".
Proof.
  intros r.
  assert (H : Extractor.extractAddressData Fixtures.no_format_float
                Fixtures.no_format_composite Scenarios.town_and_village = Ret (Some r))
    by (vm_compute; reflexivity).
  refine (conj H _).
  exact (city_fallback Fixtures.no_format_float Fixtures.no_format_composite
           Scenarios.town_and_village r H).
Defined.

(** ** The token characters of the full-text table *)

Lemma address_fts_tokenchars_value : Fts5.address_fts_tokenchars = [92; 120; 50; 100]%N.
Proof. vm_compute. reflexivity. Qed.

Lemma starts_token_configured unicode_isalnum (c : N) :
  Fts5.starts_token unicode_isalnum Fts5.address_fts_tokenchars c
  = Fts5.starts_token unicode_isalnum [] c || (c =? 92)%N.
Proof.
  rewrite address_fts_tokenchars_value. unfold Fts5.starts_token.
  destruct (N.eqb_spec c 92) as [->|H92]; [rewrite orb_true_r; reflexivity|].
  destruct (N.eqb_spec c 120) as [->|H120]; [reflexivity|].
  destruct (N.eqb_spec c 50) as [->|H50]; [reflexivity|].
  destruct (N.eqb_spec c 100) as [->|H100]; [reflexivity|].
  rewrite orb_false_r. f_equal.
  rewrite !bool_decide_eq_false_2; [reflexivity| |].
  - apply not_elem_of_nil.
  - rewrite !elem_of_cons. intros [?|[?|[?|[?|H]]]]; try congruence. inversion H.
Qed.

Lemma tokens_from_configured unicode_isalnum unicode_isdiacritic unicode_fold text :
  92%N ∉ text ->
  forall token,
    Fts5.tokens_from unicode_isalnum unicode_isdiacritic unicode_fold
      Fts5.address_fts_tokenchars text token
    = Fts5.tokens_from unicode_isalnum unicode_isdiacritic unicode_fold [] text token.
Proof.
  induction text as [|c text IH]; intros Hno token; [reflexivity|].
  apply not_elem_of_cons in Hno as [Hc Hno].
  assert (Hstart : Fts5.starts_token unicode_isalnum Fts5.address_fts_tokenchars c
                   = Fts5.starts_token unicode_isalnum [] c).
  { rewrite starts_token_configured. destruct (N.eqb_spec c 92); [congruence|].
    apply orb_false_r. }
  cbn [Fts5.tokens_from]. unfold Fts5.continues_token. rewrite Hstart. clear Hstart.
  destruct token as [t|].
  - destruct (_ || _); rewrite IH by exact Hno; reflexivity.
  - destruct (Fts5.starts_token unicode_isalnum [] c); apply IH; exact Hno.
Qed.

(** X18.  The [tokenchars] option of the full-text table adds the
    backslash to the token characters and nothing else: a character
    starts or continues a token under the option exactly when it does
    without it or is the backslash, and a text without a backslash is
    split into the same tokens as without the option. *)
Theorem tokenchars_adds_backslash_only unicode_isalnum unicode_isdiacritic unicode_fold :
  (forall c, Fts5.starts_token unicode_isalnum Fts5.address_fts_tokenchars c
             = Fts5.starts_token unicode_isalnum [] c || (c =? 92)%N)
  /\ (forall text,
        92%N ∉ Fts5.utf8 text ->
        Fts5.address_fts_tokenize unicode_isalnum unicode_isdiacritic unicode_fold text
        = Fts5.tokenize unicode_isalnum unicode_isdiacritic unicode_fold [] text).
Proof.
  split; [apply starts_token_configured|].
  intros text Hno. apply tokens_from_configured. exact Hno.
Qed.
